(** * FridgeManager: record lifecycle, derived views and debounced write-back

    A shallow embedding of the React component [FridgeManager]
    (collection state, the add / update / delete handlers, the expiry and
    recipe views, the food form's submit handlers and the debounced save),
    with the properties the specification states about them. *)

From Stdlib Require Import QArith Qround Qabs Lqa String Ascii.
From stdpp Require Import base option list gmap sorting.

Local Open Scope string_scope.
Local Open Scope list_scope.
Local Open Scope Z_scope.

(** ** JavaScript numbers

    A [number] is NaN or a finite value, kept as a rational; the comparisons
    follow IEEE semantics (every comparison with NaN is false).  A sum is
    rounded to the nearest binary64 value, as the runtime does.  The
    differences and the quotient taken below keep their exact value: what is
    read of them is a sign or a ceiling.  Infinities never arise here: the
    only division is by a non-zero constant, and the sums are of a clock
    reading and a fraction. *)

Inductive number : Type :=
  | NaN
  | Num (q : Q).

Module Number.

Definition of_Z (z : Z) : number := Num (inject_Z z).

(** [a === b] *)
Definition strict_eq (a b : number) : bool :=
  match a, b with
  | Num p, Num q => Qeq_bool p q
  | _, _ => false
  end.

(** [a !== b] *)
Definition strict_ne (a b : number) : bool := negb (strict_eq a b).

(** [a <= b] *)
Definition le (a b : number) : bool :=
  match a, b with
  | Num p, Num q => Qle_bool p q
  | _, _ => false
  end.

(** [a >= b] *)
Definition ge (a b : number) : bool := le b a.

(** [a < b] *)
Definition lt (a b : number) : bool :=
  match a, b with
  | Num p, Num q => Qle_bool p q && negb (Qeq_bool p q)
  | _, _ => false
  end.

(** The integer nearest to [q], the even one of the two when [q] is half
    way. *)
Definition round_half_even (q : Q) : Z :=
  let f := Qfloor q in
  match Qcompare (q - inject_Z f) (1 # 2) with
  | Lt => f
  | Gt => f + 1
  | Eq => if Z.even f then f else f + 1
  end.

(** The exponent [e] with [2 ^ e <= |q| < 2 ^ (e + 1)], for [q] other than
    zero. *)
Definition binade (q : Q) : Z :=
  let a := Qabs q in
  if Qle_bool 1 a then Z.log2 (Qfloor a) else - Z.log2_up (Qceiling (/ a)).

(** The distance between two binary64 values next to [q]: 52 bits below its
    exponent, and no finer than the subnormal numbers. *)
Definition ulp (q : Q) : Q := Qpower 2 (Z.max (binade q) (-1022) - 52).

(** The binary64 value nearest to [q], ties to even. *)
Definition to_double (q : Q) : Q :=
  if Qeq_bool q 0 then 0 else inject_Z (round_half_even (q / ulp q)) * ulp q.

(** [a + b] *)
Definition add (a b : number) : number :=
  match a, b with
  | Num p, Num q => Num (to_double (p + q))
  | _, _ => NaN
  end.

(** [a - b] *)
Definition sub (a b : number) : number :=
  match a, b with
  | Num p, Num q => Num (p - q)
  | _, _ => NaN
  end.

(** [a / d] for a divisor that is a non-zero constant. *)
Definition div (a d : number) : number :=
  match a, d with
  | Num p, Num q => if Qeq_bool q 0 then NaN else Num (p / q)
  | _, _ => NaN
  end.

(** [Math.ceil(a)] *)
Definition ceil (a : number) : number :=
  match a with
  | Num p => of_Z (Qceiling p)
  | NaN => NaN
  end.

(** Truthiness of a number: NaN and zero are falsy. *)
Definition truthy (a : number) : bool :=
  match a with
  | Num p => negb (Qeq_bool p 0)
  | NaN => false
  end.

(** [a || b] on numbers. *)
Definition or_else (a b : number) : number := if truthy a then a else b.

(** Order and equality as propositions, for stating properties. *)
Definition Le (a b : number) : Prop :=
  ∃ p q, a = Num p ∧ b = Num q ∧ (p <= q)%Q.
Definition Lt (a b : number) : Prop :=
  ∃ p q, a = Num p ∧ b = Num q ∧ (p < q)%Q.
Definition Eq (a b : number) : Prop :=
  ∃ p q, a = Num p ∧ b = Num q ∧ (p == q)%Q.
Definition is_NaN (a : number) : Prop := a = NaN.

End Number.

(** ** Strings

    A JavaScript string is kept as its UTF-8 text: a Rocq string is a sequence
    of bytes, and a character outside the ASCII range takes two to four of
    them (the strings that hold a lone surrogate have no such text and are
    left out).  A text is contained in another exactly when it is as a
    sequence of bytes, so [includes] reads the bytes.

    [toLowerCase] follows the Unicode case mapping of the runtime, with its
    tables and its context rules: the functions that call it take it as a
    parameter, of which only the part on the ASCII range is spelt out.
    [trim] removes the white space and the line terminators of ECMAScript,
    which are listed here by their bytes. *)

Module Str.

(** The lower-case form of a character of the ASCII range: the letters A to
    Z become a to z. *)
Definition ascii_lower (c : ascii) : ascii :=
  let n := nat_of_ascii c in
  if (Nat.leb 65 n && Nat.leb n 90)%bool then ascii_of_nat (n + 32) else c.

Fixpoint map (f : ascii → ascii) (s : string) : string :=
  match s with
  | EmptyString => EmptyString
  | String c s' => String (f c) (map f s')
  end.

(** Every character of the text is of the ASCII range. *)
Fixpoint is_ascii (s : string) : bool :=
  match s with
  | EmptyString => true
  | String c s' => Nat.ltb (nat_of_ascii c) 128 && is_ascii s'
  end.

(** What is known here of [toLowerCase]: it is a function of the string, and
    a text of the ASCII range is lowered letter by letter.  Beyond that range
    the tables and the context rules of the runtime decide. *)
Record case_mapping : Type := mkCaseMapping {
  lower : string → string;
  lower_ascii : ∀ s, is_ascii s = true → lower s = map ascii_lower s
}.

(** [s.includes(t)]: some suffix of [s] starts with [t]. *)
Fixpoint includes (s t : string) : bool :=
  (String.prefix t s ||
   match s with
   | EmptyString => false
   | String _ s' => includes s' t
   end)%bool.

Definition bytes (l : list nat) : string :=
  string_of_list_ascii (List.map ascii_of_nat l).

(** TAB, LF, VT, FF, CR, SP, NBSP, OGHAM SPACE MARK, EN QUAD to HAIR SPACE,
    LINE SEPARATOR, PARAGRAPH SEPARATOR, NARROW NO-BREAK SPACE, MEDIUM
    MATHEMATICAL SPACE, IDEOGRAPHIC SPACE and ZERO WIDTH NO-BREAK SPACE. *)
Definition white_space : list string :=
  List.map bytes
    [ [9]; [10]; [11]; [12]; [13]; [32]; [194; 160]; [225; 154; 128];
      [226; 128; 128]; [226; 128; 129]; [226; 128; 130]; [226; 128; 131];
      [226; 128; 132]; [226; 128; 133]; [226; 128; 134]; [226; 128; 135];
      [226; 128; 136]; [226; 128; 137]; [226; 128; 138];
      [226; 128; 168]; [226; 128; 169]; [226; 128; 175]; [226; 129; 159];
      [227; 128; 128]; [239; 187; 191] ]%nat.

(** [s] without its prefix [w], when it starts with [w]. *)
Fixpoint strip_prefix (w s : string) : option string :=
  match w, s with
  | EmptyString, _ => Some s
  | String a w', String b s' => if Ascii.eqb a b then strip_prefix w' s' else None
  | String _ _, EmptyString => None
  end.

(** [s] without the first entry of [table] it starts with. *)
Fixpoint strip_first (table : list string) (s : string) : option string :=
  match table with
  | [] => None
  | w :: table' =>
      match strip_prefix w s with
      | Some rest => Some rest
      | None => strip_first table' s
      end
  end.

(** Entries of [table] are taken off the front of [s] as long as there is
    one; [fuel] bounds the number of rounds, and the length of [s] is
    enough. *)
Fixpoint strip_all (table : list string) (fuel : nat) (s : string) : string :=
  match fuel with
  | O => s
  | S fuel' =>
      match strip_first table s with
      | Some rest => strip_all table fuel' rest
      | None => s
      end
  end.

Fixpoint rev_onto (s acc : string) : string :=
  match s with
  | EmptyString => acc
  | String c s' => rev_onto s' (String c acc)
  end.

Definition reverse (s : string) : string := rev_onto s EmptyString.

Definition trim_start (s : string) : string :=
  strip_all white_space (String.length s) s.

Definition trim_end (s : string) : string :=
  reverse (strip_all (List.map reverse white_space) (String.length s) (reverse s)).

(** [s.trim()] *)
Definition trim (s : string) : string := trim_end (trim_start s).

(** Truthiness of a string: only the empty string is falsy. *)
Definition truthy (s : string) : bool :=
  match s with
  | EmptyString => false
  | String _ _ => true
  end.

(** [s || d] on strings. *)
Definition or_else (s d : string) : string := if truthy s then s else d.

End Str.

Coercion Str.lower : Str.case_mapping >-> Funclass.

(** ** Own keys

    An object keeps its own keys in the order in which they were first
    written, and the spread, [Object.values] and [JSON.stringify] go through
    them in that order.  Each record below carries the order of its keys next
    to their values. *)

Module Keys.

(** The keys once [k] has been written: a key the object already has keeps
    its place, a new one comes last. *)
Definition assign (k : string) (keys : list string) : list string :=
  if existsb (String.eqb k) keys then keys else keys ++ [k].

End Keys.

(** ** Records *)

Record Food : Type := mkFood {
  food_id : number;
  food_name : string;
  food_category : string;
  food_quantity : number;
  food_unit : string;
  food_expiryDate : string;
  food_notes : string;
  food_dateAdded : string;
  food_keys : list string
}.

Record Ingredient : Type := mkIngredient {
  ing_name : string;
  ing_quantity : number;
  ing_unit : string;
  ing_keys : list string
}.

Record Recipe : Type := mkRecipe {
  recipe_id : number;
  recipe_name : string;
  recipe_description : string;
  recipe_instructions : string;
  recipe_cookingTime : string;
  recipe_servings : number;
  recipe_ingredients : list Ingredient;
  recipe_dateCreated : string;
  recipe_keys : list string
}.

(** [Omit<Food, 'id' | 'dateAdded'>] *)
Record FoodData : Type := mkFoodData {
  fd_name : string;
  fd_category : string;
  fd_quantity : number;
  fd_unit : string;
  fd_expiryDate : string;
  fd_notes : string;
  fd_keys : list string
}.

(** [Omit<Recipe, 'id' | 'dateCreated'>] *)
Record RecipeData : Type := mkRecipeData {
  rd_name : string;
  rd_description : string;
  rd_instructions : string;
  rd_cookingTime : string;
  rd_servings : number;
  rd_ingredients : list Ingredient;
  rd_keys : list string
}.

(** ** Component state

    The [useState] cells the handlers read and write. *)

Record State : Type := mkState {
  foods : list Food;
  recipes : list Recipe;
  showAddFood : bool;
  showAddRecipe : bool;
  editingFood : option Food;
  editingRecipe : option Recipe
}.

(** What one handler call reads from the runtime: [Date.now()],
    [Math.random()] and [new Date().toISOString()]. *)
Record Env : Type := mkEnv {
  env_now : Z;
  env_random : Q;
  env_iso : string
}.

(** A handler either completes with the next state or throws. *)
Inductive outcome (A : Type) : Type :=
  | Done (a : A)
  | Threw (e : string).
Arguments Done {A} a.
Arguments Threw {A} e.

(** ** Record lifecycle *)

Module Lifecycle.

Definition newFood (env : Env) (foodData : FoodData) : Food :=
  {| food_id := Number.add (Number.of_Z (env_now env)) (Num (env_random env));
     food_name := fd_name foodData;
     food_category := fd_category foodData;
     food_quantity := fd_quantity foodData;
     food_unit := fd_unit foodData;
     food_expiryDate := fd_expiryDate foodData;
     food_notes := Str.or_else (fd_notes foodData) "";
     food_dateAdded := env_iso env;
     food_keys := ["id"; "name"; "category"; "quantity"; "unit"; "expiryDate";
                   "notes"; "dateAdded"] |}.

Definition addFood (env : Env) (foodData : FoodData) (st : State) : State :=
  {| foods := foods st ++ [newFood env foodData];
     recipes := recipes st;
     showAddFood := false;
     showAddRecipe := showAddRecipe st;
     editingFood := editingFood st;
     editingRecipe := editingRecipe st |}.

(** [{...foodData, id: editingFood.id, dateAdded: editingFood.dateAdded}] *)
Definition updatedFood (editing : Food) (foodData : FoodData) : Food :=
  {| food_id := food_id editing;
     food_name := fd_name foodData;
     food_category := fd_category foodData;
     food_quantity := fd_quantity foodData;
     food_unit := fd_unit foodData;
     food_expiryDate := fd_expiryDate foodData;
     food_notes := fd_notes foodData;
     food_dateAdded := food_dateAdded editing;
     food_keys := Keys.assign "dateAdded" (Keys.assign "id" (fd_keys foodData)) |}.

Definition replaceFood (updated : Food) (l : list Food) : list Food :=
  List.map (λ food, if Number.strict_eq (food_id food) (food_id updated)
                    then updated else food) l.

(** [editingFood!.id] on a null [editingFood] is a TypeError. *)
Definition updateFood (foodData : FoodData) (st : State) : outcome State :=
  match editingFood st with
  | None => Threw "TypeError"
  | Some editing =>
      Done {| foods := replaceFood (updatedFood editing foodData) (foods st);
              recipes := recipes st;
              showAddFood := showAddFood st;
              showAddRecipe := showAddRecipe st;
              editingFood := None;
              editingRecipe := editingRecipe st |}
  end.

Definition removeFood (id : number) (l : list Food) : list Food :=
  List.filter (λ food, Number.strict_ne (food_id food) id) l.

Definition deleteFood (id : number) (st : State) : State :=
  {| foods := removeFood id (foods st);
     recipes := recipes st;
     showAddFood := showAddFood st;
     showAddRecipe := showAddRecipe st;
     editingFood := editingFood st;
     editingRecipe := editingRecipe st |}.

(** [{...recipeData, id: Date.now(), dateCreated: new Date().toISOString()}] *)
Definition newRecipe (env : Env) (recipeData : RecipeData) : Recipe :=
  {| recipe_id := Number.of_Z (env_now env);
     recipe_name := rd_name recipeData;
     recipe_description := rd_description recipeData;
     recipe_instructions := rd_instructions recipeData;
     recipe_cookingTime := rd_cookingTime recipeData;
     recipe_servings := rd_servings recipeData;
     recipe_ingredients := rd_ingredients recipeData;
     recipe_dateCreated := env_iso env;
     recipe_keys :=
       Keys.assign "dateCreated" (Keys.assign "id" (rd_keys recipeData)) |}.

Definition addRecipe (env : Env) (recipeData : RecipeData) (st : State) : State :=
  {| foods := foods st;
     recipes := recipes st ++ [newRecipe env recipeData];
     showAddFood := showAddFood st;
     showAddRecipe := false;
     editingFood := editingFood st;
     editingRecipe := editingRecipe st |}.

(** [{...recipeData, id: editingRecipe.id,
      dateCreated: editingRecipe.dateCreated}] *)
Definition updatedRecipe (editing : Recipe) (recipeData : RecipeData) : Recipe :=
  {| recipe_id := recipe_id editing;
     recipe_name := rd_name recipeData;
     recipe_description := rd_description recipeData;
     recipe_instructions := rd_instructions recipeData;
     recipe_cookingTime := rd_cookingTime recipeData;
     recipe_servings := rd_servings recipeData;
     recipe_ingredients := rd_ingredients recipeData;
     recipe_dateCreated := recipe_dateCreated editing;
     recipe_keys :=
       Keys.assign "dateCreated" (Keys.assign "id" (rd_keys recipeData)) |}.

Definition replaceRecipe (updated : Recipe) (l : list Recipe) : list Recipe :=
  List.map (λ recipe, if Number.strict_eq (recipe_id recipe) (recipe_id updated)
                      then updated else recipe) l.

Definition updateRecipe (recipeData : RecipeData) (st : State) : outcome State :=
  match editingRecipe st with
  | None => Threw "TypeError"
  | Some editing =>
      Done {| foods := foods st;
              recipes := replaceRecipe (updatedRecipe editing recipeData) (recipes st);
              showAddFood := showAddFood st;
              showAddRecipe := showAddRecipe st;
              editingFood := editingFood st;
              editingRecipe := None |}
  end.

Definition removeRecipe (id : number) (l : list Recipe) : list Recipe :=
  List.filter (λ recipe, Number.strict_ne (recipe_id recipe) id) l.

Definition deleteRecipe (id : number) (st : State) : State :=
  {| foods := foods st;
     recipes := removeRecipe id (recipes st);
     showAddFood := showAddFood st;
     showAddRecipe := showAddRecipe st;
     editingFood := editingFood st;
     editingRecipe := editingRecipe st |}.

End Lifecycle.

(** ** Derived views

    [Date_getTime s] stands for [new Date(s).getTime()], a number that is
    NaN for a string the runtime does not read as a date; [now] is the
    reading of [new Date().getTime()]; [toLowerCase s] stands for
    [s.toLowerCase()]. *)

Module Views.

Definition msPerDay : Z := 1000 * 60 * 60 * 24.

Section WithDate.

Variable Date_getTime : string → number.

Definition getDaysUntilExpiry (now : Z) (expiryDate : string) : number :=
  let diffTime := Number.sub (Date_getTime expiryDate) (Number.of_Z now) in
  Number.ceil (Number.div diffTime (Number.of_Z msPerDay)).

Definition getExpiringFoods (days : number) (now : Z) (foods : list Food)
  : list Food :=
  List.filter (λ food,
    let daysUntilExpiry := getDaysUntilExpiry now (food_expiryDate food) in
    Number.le daysUntilExpiry days && Number.ge daysUntilExpiry (Number.of_Z 0))
    foods.

Definition getExpiredFoods (now : Z) (foods : list Food) : list Food :=
  List.filter (λ food,
    Number.lt (getDaysUntilExpiry now (food_expiryDate food)) (Number.of_Z 0))
    foods.

End WithDate.

(** The default of the [days] parameter. *)
Definition defaultDays : number := Number.of_Z 3.

(** Truthiness of the result of [find]: a record is truthy, [undefined]
    is not. *)
Definition found {A : Type} (r : option A) : bool :=
  match r with Some _ => true | None => false end.

Section WithCase.

(** [s.toLowerCase()] *)
Variable toLowerCase : Str.case_mapping.

(** The test handed to [foods.find] for one ingredient. *)
Definition satisfies (ingredient : Ingredient) (food : Food) : bool :=
  Str.includes (toLowerCase (food_name food))
               (toLowerCase (ing_name ingredient))
  && Number.ge (food_quantity food) (ing_quantity ingredient).

Definition getAvailableRecipes (recipes : list Recipe) (foods : list Food)
  : list Recipe :=
  List.filter (λ recipe,
    List.forallb (λ ingredient,
      let availableFood := List.find (satisfies ingredient) foods in
      found availableFood)
      (recipe_ingredients recipe))
    recipes.

End WithCase.

End Views.

(** ** The food form *)

Module FoodForm.

Inductive submission : Type :=
  | Alerted (msg : string)
  | Submitted (processedData : FoodData).

(** [Number(x)] of a number is that number. *)
Definition Number_ (x : number) : number := x.

(** [{...formData, quantity: Number(formData.quantity) || 1,
      name: formData.name.trim()}] *)
Definition processedData (formData : FoodData) : FoodData :=
  {| fd_name := Str.trim (fd_name formData);
     fd_category := fd_category formData;
     fd_quantity := Number.or_else (Number_ (fd_quantity formData)) (Number.of_Z 1);
     fd_unit := fd_unit formData;
     fd_expiryDate := fd_expiryDate formData;
     fd_notes := fd_notes formData;
     fd_keys := Keys.assign "name" (Keys.assign "quantity" (fd_keys formData)) |}.

Definition handleSubmit (formData : FoodData) : submission :=
  if negb (Str.truthy (Str.trim (fd_name formData))) then
    Alerted "El nombre del alimento es obligatorio"
  else if negb (Str.truthy (fd_expiryDate formData)) then
    Alerted "La fecha de caducidad es obligatoria"
  else Submitted (processedData formData).

Definition handleAddClick (formData : FoodData) : submission :=
  if negb (Str.truthy (Str.trim (fd_name formData))) then
    Alerted "El nombre del alimento es obligatorio"
  else if negb (Str.truthy (fd_expiryDate formData)) then
    Alerted "La fecha de caducidad es obligatoria"
  else Submitted (processedData formData).

(** The form mounted with [onSubmit={addFood}]. *)
Definition submitNew (env : Env) (formData : FoodData) (st : State) : State :=
  match handleAddClick formData with
  | Alerted _ => st
  | Submitted d => Lifecycle.addFood env d st
  end.

(** The form mounted with [onSubmit={updateFood}]. *)
Definition submitEdit (formData : FoodData) (st : State) : outcome State :=
  match handleAddClick formData with
  | Alerted _ => Done st
  | Submitted d => Lifecycle.updateFood d st
  end.

End FoodForm.

(** ** The food list, the recipe cards and the dashboard *)

Module Screens.

(** The colour of a food card's border and of its expiry line. *)
Inductive tone : Type := Red | Orange | Green.

Section WithRuntime.

Variable Date_getTime : string → number.
Variable toLowerCase : Str.case_mapping.

(** [filteredFoods], with the search box and the category selector as
    arguments. *)
Definition filteredFoods (searchTerm filterCategory : string) (foods : list Food)
  : list Food :=
  List.filter (λ food,
    let matchesSearch :=
      Str.includes (toLowerCase (food_name food)) (toLowerCase searchTerm) in
    let matchesCategory :=
      String.eqb filterCategory "all" || String.eqb (food_category food) filterCategory in
    matchesSearch && matchesCategory)
    foods.

(** [isExpired ? red : isExpiring ? orange : green] in [renderFoods]. *)
Definition foodTone (now : Z) (food : Food) : tone :=
  let daysUntilExpiry :=
    Views.getDaysUntilExpiry Date_getTime now (food_expiryDate food) in
  let isExpiring :=
    Number.le daysUntilExpiry (Number.of_Z 3)
    && Number.ge daysUntilExpiry (Number.of_Z 0) in
  let isExpired := Number.lt daysUntilExpiry (Number.of_Z 0) in
  if isExpired then Red else if isExpiring then Orange else Green.

(** What [renderDashboard] shows: the four counters, the foods about to
    expire, and the first four available recipes. *)
Record dashboard : Type := mkDashboard {
  totalFoods : nat;
  expiringCount : nat;
  expiredCount : nat;
  availableCount : nat;
  expiringShown : list Food;
  recipesShown : list Recipe
}.

Definition renderDashboard (now : Z) (foods : list Food) (recipes : list Recipe)
  : dashboard :=
  let expiringFoods := Views.getExpiringFoods Date_getTime Views.defaultDays now foods in
  let expiredFoods := Views.getExpiredFoods Date_getTime now foods in
  let availableRecipes := Views.getAvailableRecipes toLowerCase recipes foods in
  {| totalFoods := length foods;
     expiringCount := length expiringFoods;
     expiredCount := length expiredFoods;
     availableCount := length availableRecipes;
     expiringShown := expiringFoods;
     recipesShown := take 4 availableRecipes |}.

(** [canMake] on a recipe card. *)
Definition canMake (foods : list Food) (recipe : Recipe) : bool :=
  List.forallb (λ ingredient,
    let availableFood :=
      List.find (λ food,
        Str.includes (toLowerCase (food_name food))
                     (toLowerCase (ing_name ingredient))
        && Number.ge (food_quantity food) (ing_quantity ingredient)) foods in
    Views.found availableFood)
    (recipe_ingredients recipe).

(** [hasEnough] on one ingredient line of a recipe card: the first food
    matching by name is looked up, then its quantity is compared. *)
Definition hasEnough (foods : list Food) (ingredient : Ingredient) : bool :=
  let availableFood :=
    List.find (λ food,
      Str.includes (toLowerCase (food_name food))
                   (toLowerCase (ing_name ingredient))) foods in
  match availableFood with
  | Some food => Number.ge (food_quantity food) (ing_quantity ingredient)
  | None => false
  end.

End WithRuntime.

End Screens.

(** ** The forms' local state *)

Module FoodFormState.

(** The initial [formData] of [FoodForm], for a new food ([None]) or for the
    food being edited. *)
Definition initial (food : option Food) : FoodData :=
  let keys := ["name"; "category"; "quantity"; "unit"; "expiryDate"; "notes"] in
  match food with
  | Some food =>
      {| fd_name := Str.or_else (food_name food) "";
         fd_category := Str.or_else (food_category food) "otros";
         fd_quantity := Number.or_else (food_quantity food) (Number.of_Z 1);
         fd_unit := Str.or_else (food_unit food) "unidad";
         fd_expiryDate := Str.or_else (food_expiryDate food) "";
         fd_notes := Str.or_else (food_notes food) "";
         fd_keys := keys |}
  | None =>
      {| fd_name := ""; fd_category := "otros"; fd_quantity := Number.of_Z 1;
         fd_unit := "unidad"; fd_expiryDate := ""; fd_notes := "";
         fd_keys := keys |}
  end.

End FoodFormState.

Module RecipeForm.

Definition blankIngredient : Ingredient :=
  {| ing_name := ""; ing_quantity := Number.of_Z 1; ing_unit := "unidad";
     ing_keys := ["name"; "quantity"; "unit"] |}.

(** The initial [formData] of [RecipeForm].  An array is truthy even when
    empty, so the ingredients of the recipe being edited are taken as they
    are. *)
Definition initial (recipe : option Recipe) : RecipeData :=
  let keys := ["name"; "description"; "instructions"; "cookingTime"; "servings";
               "ingredients"] in
  match recipe with
  | Some recipe =>
      {| rd_name := Str.or_else (recipe_name recipe) "";
         rd_description := Str.or_else (recipe_description recipe) "";
         rd_instructions := Str.or_else (recipe_instructions recipe) "";
         rd_cookingTime := Str.or_else (recipe_cookingTime recipe) "";
         rd_servings := Number.or_else (recipe_servings recipe) (Number.of_Z 1);
         rd_ingredients := recipe_ingredients recipe;
         rd_keys := keys |}
  | None =>
      {| rd_name := ""; rd_description := ""; rd_instructions := "";
         rd_cookingTime := ""; rd_servings := Number.of_Z 1;
         rd_ingredients := [blankIngredient];
         rd_keys := keys |}
  end.

(** [{ ...formData, ingredients: l }] *)
Definition with_ingredients (l : list Ingredient) (formData : RecipeData)
  : RecipeData :=
  {| rd_name := rd_name formData; rd_description := rd_description formData;
     rd_instructions := rd_instructions formData;
     rd_cookingTime := rd_cookingTime formData;
     rd_servings := rd_servings formData; rd_ingredients := l;
     rd_keys := Keys.assign "ingredients" (rd_keys formData) |}.

Definition addIngredient (formData : RecipeData) : RecipeData :=
  with_ingredients (rd_ingredients formData ++ [blankIngredient]) formData.

(** [l.filter((_, i) => keep(i))], counting positions from [i]. *)
Fixpoint filter_index {A : Type} (keep : nat → bool) (i : nat) (l : list A)
  : list A :=
  match l with
  | [] => []
  | x :: l' =>
      if keep i then x :: filter_index keep (S i) l' else filter_index keep (S i) l'
  end.

(** [l.map((x, i) => f(x, i))], counting positions from [i]. *)
Fixpoint map_index {A B : Type} (f : A → nat → B) (i : nat) (l : list A) : list B :=
  match l with
  | [] => []
  | x :: l' => f x i :: map_index f (S i) l'
  end.

Definition removeIngredient (index : nat) (formData : RecipeData) : RecipeData :=
  with_ingredients
    (filter_index (λ i, negb (Nat.eqb i index)) 0 (rd_ingredients formData))
    formData.

(** The three calls of [updateIngredient] in the form: a field and a value of
    that field's type. *)
Inductive change : Type :=
  | Name (value : string)
  | Quantity (value : number)
  | Unit (value : string).

(** [{ ...ingredient, [field]: value }] *)
Definition apply (c : change) (ingredient : Ingredient) : Ingredient :=
  match c with
  | Name value =>
      {| ing_name := value; ing_quantity := ing_quantity ingredient;
         ing_unit := ing_unit ingredient;
         ing_keys := Keys.assign "name" (ing_keys ingredient) |}
  | Quantity value =>
      {| ing_name := ing_name ingredient; ing_quantity := value;
         ing_unit := ing_unit ingredient;
         ing_keys := Keys.assign "quantity" (ing_keys ingredient) |}
  | Unit value =>
      {| ing_name := ing_name ingredient; ing_quantity := ing_quantity ingredient;
         ing_unit := value;
         ing_keys := Keys.assign "unit" (ing_keys ingredient) |}
  end.

Definition updateIngredient (index : nat) (c : change) (formData : RecipeData)
  : RecipeData :=
  with_ingredients
    (map_index (λ ingredient i,
       if Nat.eqb i index then apply c ingredient else ingredient)
       0 (rd_ingredients formData))
    formData.

(** [handleSubmit] hands the form data over as it is. *)
Definition handleSubmit (formData : RecipeData) : RecipeData := formData.

(** The form mounted with [onSubmit={addRecipe}]. *)
Definition submitNew (env : Env) (formData : RecipeData) (st : State) : State :=
  Lifecycle.addRecipe env (handleSubmit formData) st.

(** The form mounted with [onSubmit={updateRecipe}]. *)
Definition submitEdit (formData : RecipeData) (st : State) : outcome State :=
  Lifecycle.updateRecipe (handleSubmit formData) st.

End RecipeForm.

(** ** Synchronization engine

    The write-back side of the component once loading has finished: the
    clock, the runtime's table of pending timeouts, [saveTimeoutRef], the two
    last-saved hashes, the guards read by the save effects, the collections,
    the log of calls to [foodsAPI.save] and [recipesAPI.save] (oldest first),
    and the calls among them whose promise is still pending: the timeout
    callback awaits the call it makes, and goes on once that is settled.

    [JSON_stringify] stands for the runtime's [JSON.stringify] on arrays of
    records. *)

(** The records handled as [any]. *)
Inductive any : Type :=
  | AFood (food : Food)
  | ARecipe (recipe : Recipe).

Definition any_id (item : any) : number :=
  match item with
  | AFood food => food_id food
  | ARecipe recipe => recipe_id recipe
  end.

Module Sync.

(** ['foods' | 'recipes'] *)
Inductive coll : Type := CFoods | CRecipes.

Global Instance coll_eq_dec : EqDecision coll.
Proof. solve_decision. Defined.

(** The closure handed to [setTimeout] by [debouncedSave], with the instant
    at which it becomes due. *)
Record timeout : Type := mkTimeout {
  to_type : coll;
  to_due : Z;
  to_data : list any;
  to_hash : string;
  to_currentHash : string
}.

Record Engine : Type := mkEngine {
  clock : Z;
  timeouts : gmap positive timeout;
  nextTimeout : positive;
  refFoods : option positive;
  refRecipes : option positive;
  lastFoodsSave : string;
  lastRecipesSave : string;
  isLoaded : bool;
  foodsFromServerRef : bool;
  recipesFromServerRef : bool;
  ui : State;
  saved : list (coll * list any);
  inflight : list (coll * string)
}.

Definition with_clock (t : Z) (e : Engine) : Engine :=
  mkEngine t (timeouts e) (nextTimeout e) (refFoods e) (refRecipes e)
    (lastFoodsSave e) (lastRecipesSave e) (isLoaded e) (foodsFromServerRef e)
    (recipesFromServerRef e) (ui e) (saved e) (inflight e).

Definition with_timeouts (m : gmap positive timeout) (next : positive) (e : Engine)
  : Engine :=
  mkEngine (clock e) m next (refFoods e) (refRecipes e)
    (lastFoodsSave e) (lastRecipesSave e) (isLoaded e) (foodsFromServerRef e)
    (recipesFromServerRef e) (ui e) (saved e) (inflight e).

Definition with_ref (type : coll) (r : option positive) (e : Engine) : Engine :=
  mkEngine (clock e) (timeouts e) (nextTimeout e)
    (match type with CFoods => r | CRecipes => refFoods e end)
    (match type with CFoods => refRecipes e | CRecipes => r end)
    (lastFoodsSave e) (lastRecipesSave e) (isLoaded e) (foodsFromServerRef e)
    (recipesFromServerRef e) (ui e) (saved e) (inflight e).

Definition with_lastSave (type : coll) (hash : string) (e : Engine) : Engine :=
  mkEngine (clock e) (timeouts e) (nextTimeout e) (refFoods e) (refRecipes e)
    (match type with CFoods => hash | CRecipes => lastFoodsSave e end)
    (match type with CFoods => lastRecipesSave e | CRecipes => hash end)
    (isLoaded e) (foodsFromServerRef e) (recipesFromServerRef e) (ui e) (saved e)
    (inflight e).

Definition with_ui (st : State) (e : Engine) : Engine :=
  mkEngine (clock e) (timeouts e) (nextTimeout e) (refFoods e) (refRecipes e)
    (lastFoodsSave e) (lastRecipesSave e) (isLoaded e) (foodsFromServerRef e)
    (recipesFromServerRef e) st (saved e) (inflight e).

Definition with_saved (log : list (coll * list any)) (e : Engine) : Engine :=
  mkEngine (clock e) (timeouts e) (nextTimeout e) (refFoods e) (refRecipes e)
    (lastFoodsSave e) (lastRecipesSave e) (isLoaded e) (foodsFromServerRef e)
    (recipesFromServerRef e) (ui e) log (inflight e).

Definition with_inflight (l : list (coll * string)) (e : Engine) : Engine :=
  mkEngine (clock e) (timeouts e) (nextTimeout e) (refFoods e) (refRecipes e)
    (lastFoodsSave e) (lastRecipesSave e) (isLoaded e) (foodsFromServerRef e)
    (recipesFromServerRef e) (ui e) (saved e) l.

(** [saveTimeoutRef.current[type]] *)
Definition ref (type : coll) (e : Engine) : option positive :=
  match type with CFoods => refFoods e | CRecipes => refRecipes e end.

(** [type === 'foods' ? lastFoodsSave : lastRecipesSave] *)
Definition lastSave (type : coll) (e : Engine) : string :=
  match type with CFoods => lastFoodsSave e | CRecipes => lastRecipesSave e end.

(** The collection of the given type, as the array handed to the engine. *)
Definition current (type : coll) (e : Engine) : list any :=
  match type with
  | CFoods => List.map AFood (foods (ui e))
  | CRecipes => List.map ARecipe (recipes (ui e))
  end.

(** [setTimeout(cb, 500)]: the runtime hands out a fresh positive handle. *)
Definition setTimeout (cb : timeout) (e : Engine) : positive * Engine :=
  (nextTimeout e,
   with_timeouts (<[nextTimeout e := cb]> (timeouts e)) (Pos.succ (nextTimeout e)) e).

(** [clearTimeout(id)]: a handle that is no longer pending is ignored. *)
Definition clearTimeout (id : positive) (e : Engine) : Engine :=
  with_timeouts (delete id (timeouts e)) (nextTimeout e) e.

Definition debounce : Z := 500.

Section WithJSON.

Variable JSON_stringify : list any → string.

(** The comparator [(a, b) => a.id - b.id] is negative. *)
Definition comes_before (a b : any) : bool :=
  Number.lt (Number.sub (any_id a) (any_id b)) (Number.of_Z 0).

(** [sort] is stable: a record passes only those that come before it. *)
Fixpoint insert_sorted (x : any) (l : list any) : list any :=
  match l with
  | [] => [x]
  | y :: ys => if comes_before y x then y :: insert_sorted x ys else x :: y :: ys
  end.

Definition sort_by_id (l : list any) : list any := foldr insert_sorted [] l.

(** [{ ...item }] *)
Definition copy (item : any) : any := item.

Definition createDataHash (data : list any) : string :=
  JSON_stringify (sort_by_id (List.map copy data)).

Definition debouncedSave (type : coll) (data : list any) (hash : string)
    (e : Engine) : Engine :=
  let e1 := match ref type e with
            | Some id => clearTimeout id e
            | None => e
            end in
  let cb := {| to_type := type; to_due := clock e1 + debounce; to_data := data;
               to_hash := hash; to_currentHash := lastSave type e1 |} in
  let '(id, e2) := setTimeout cb e1 in
  with_ref type (Some id) e2.

(** The effect that follows a render in which [foods], [isLoaded] or
    [debouncedSave] changed. *)
Definition foodsEffect (e : Engine) : Engine :=
  if isLoaded e && negb (foodsFromServerRef e)
     && Nat.leb 0 (length (foods (ui e)))
  then debouncedSave CFoods (current CFoods e) (createDataHash (current CFoods e)) e
  else e.

Definition recipesEffect (e : Engine) : Engine :=
  if isLoaded e && negb (recipesFromServerRef e)
     && Nat.leb 0 (length (recipes (ui e)))
  then debouncedSave CRecipes (current CRecipes e)
         (createDataHash (current CRecipes e)) e
  else e.

Definition effect (type : coll) (e : Engine) : Engine :=
  match type with CFoods => foodsEffect e | CRecipes => recipesEffect e end.

(** [setFoods(l)] and the render that follows. *)
Definition setFoods (l : list Food) (e : Engine) : Engine :=
  let st := ui e in
  foodsEffect
    (with_ui {| foods := l; recipes := recipes st; showAddFood := showAddFood st;
                showAddRecipe := showAddRecipe st; editingFood := editingFood st;
                editingRecipe := editingRecipe st |} e).

Definition setRecipes (l : list Recipe) (e : Engine) : Engine :=
  let st := ui e in
  recipesEffect
    (with_ui {| foods := foods st; recipes := l; showAddFood := showAddFood st;
                showAddRecipe := showAddRecipe st; editingFood := editingFood st;
                editingRecipe := editingRecipe st |} e).

(** [setLastFoodsSave(hash)] or [setLastRecipesSave(hash)].  Setting the value
    a state cell already holds causes no render; otherwise [debouncedSave] is
    rebuilt and both save effects run again. *)
Definition setLastSave (type : coll) (hash : string) (e : Engine) : Engine :=
  if String.eqb hash (lastSave type e) then e
  else recipesEffect (foodsEffect (with_lastSave type hash e)).

(** The body of the timeout callback as far as its [await]: the call to
    [save] is made, and the callback waits for its promise with the hash it
    will hand to [setLastFoodsSave] or [setLastRecipesSave]. *)
Definition runCallback (cb : timeout) (e : Engine) : Engine :=
  let currentHash := to_currentHash cb in
  if negb (String.eqb (to_hash cb) currentHash) then
    with_inflight (inflight e ++ [(to_type cb, to_hash cb)])
      (with_saved (saved e ++ [(to_type cb, to_data cb)]) e)
  else e.

(** The promise of the [k]-th pending call is fulfilled: its callback goes on
    with [setLastFoodsSave(hash)] or [setLastRecipesSave(hash)]. *)
Definition answer (k : nat) (e : Engine) : option Engine :=
  match inflight e !! k with
  | Some (type, hash) =>
      Some (setLastSave type hash (with_inflight (delete k (inflight e)) e))
  | None => None
  end.

(** The promise of the [k]-th pending call is rejected, as when the fallback
    write of [save] throws: the [catch] of the callback logs the error. *)
Definition reject (k : nat) (e : Engine) : option Engine :=
  match inflight e !! k with
  | Some _ => Some (with_inflight (delete k (inflight e)) e)
  | None => None
  end.

(** The runtime runs the callback of a pending timeout once it is due. *)
Definition fire (id : positive) (e : Engine) : option Engine :=
  match timeouts e !! id with
  | Some cb =>
      if to_due cb <=? clock e
      then Some (runCallback cb (clearTimeout id e))
      else None
  | None => None
  end.

(** Time passes. *)
Definition tick (dt : Z) (e : Engine) : Engine := with_clock (clock e + dt) e.

Inductive event : Type :=
  | SetFoods (l : list Food)
  | SetRecipes (l : list Recipe)
  | Tick (dt : Z)
  | Fire (id : positive)
  | Answer (k : nat)
  | Reject (k : nat).

Definition step (ev : event) (e : Engine) : option Engine :=
  match ev with
  | SetFoods l => Some (setFoods l e)
  | SetRecipes l => Some (setRecipes l e)
  | Tick dt => if 0 <=? dt then Some (tick dt e) else None
  | Fire id => fire id e
  | Answer k => answer k e
  | Reject k => reject k e
  end.

(** An event other than a change of a collection. *)
Definition quiet (ev : event) : bool :=
  match ev with
  | SetFoods _ | SetRecipes _ => false
  | Tick _ | Fire _ | Answer _ | Reject _ => true
  end.

(** The engine once [loadData] has completed and the from-server guards have
    been reset: nothing is pending, and the last-saved hashes are those of the
    loaded collections. *)
Definition loaded (now : Z) (st : State) : Engine :=
  {| clock := now; timeouts := ∅; nextTimeout := 1%positive;
     refFoods := None; refRecipes := None;
     lastFoodsSave := createDataHash (List.map AFood (foods st));
     lastRecipesSave := createDataHash (List.map ARecipe (recipes st));
     isLoaded := true; foodsFromServerRef := false; recipesFromServerRef := false;
     ui := st; saved := []; inflight := [] |}.

(** A trace is possible when each of its events is, in turn. *)
Fixpoint run (evs : list event) (e : Engine) : option Engine :=
  match evs with
  | [] => Some e
  | ev :: evs' =>
      match step ev e with
      | Some e' => run evs' e'
      | None => None
      end
  end.

End WithJSON.

(** A burst of changes to one collection: a first one, then each after a
    pause. *)
Definition burst {A : Type} (mk : A → event) (first : A) (rest : list (Z * A))
  : list event :=
  mk first :: flat_map (λ next, [Tick (fst next); mk (snd next)]) rest.

Definition foodsBurst (first : list Food) (rest : list (Z * list Food))
  : list event :=
  burst SetFoods first rest.

Definition recipesBurst (first : list Recipe) (rest : list (Z * list Recipe))
  : list event :=
  burst SetRecipes first rest.

(** The collection as the last change of a burst leaves it. *)
Definition final {A : Type} (first : A) (rest : list (Z * A)) : A :=
  List.last (List.map snd rest) first.

(** A timeout of the given collection is pending under the handle [id]. *)
Definition pending (type : coll) (id : positive) (e : Engine) : Prop :=
  ∃ cb, timeouts e !! id = Some cb ∧ to_type cb = type.

End Sync.

(** ** Loading and unmounting

    The mount effect [loadData] and the cleanup effect, on the engine of
    [Sync].  The timeout that resets the from-server guards 100 ms after a
    successful load is kept apart from the table of save timeouts: its
    callback is [resetGuards], and [loadSucceeded] only takes its handle. *)

Module Loading.

Definition with_guards (loaded foodsFromServer recipesFromServer : bool)
    (e : Sync.Engine) : Sync.Engine :=
  Sync.mkEngine (Sync.clock e) (Sync.timeouts e) (Sync.nextTimeout e)
    (Sync.refFoods e) (Sync.refRecipes e)
    (Sync.lastFoodsSave e) (Sync.lastRecipesSave e)
    loaded foodsFromServer recipesFromServer (Sync.ui e) (Sync.saved e)
    (Sync.inflight e).

(** The component as [useState] and [useRef] initialise it.  The save effects
    of the first render find [isLoaded] false and do nothing. *)
Definition mounted (now : Z) : Sync.Engine :=
  {| Sync.clock := now; Sync.timeouts := ∅; Sync.nextTimeout := 1%positive;
     Sync.refFoods := None; Sync.refRecipes := None;
     Sync.lastFoodsSave := ""; Sync.lastRecipesSave := "";
     Sync.isLoaded := false; Sync.foodsFromServerRef := false;
     Sync.recipesFromServerRef := false;
     Sync.ui := {| foods := []; recipes := []; showAddFood := false;
                   showAddRecipe := false; editingFood := None;
                   editingRecipe := None |};
     Sync.saved := []; Sync.inflight := [] |}.

Definition resetDelay : Z := 100.

Section WithJSON.

Variable JSON_stringify : list any → string.

(** [setIsLoaded(true)] and the render that follows: both save effects
    depend on [isLoaded]. *)
Definition setIsLoaded (e : Sync.Engine) : Sync.Engine :=
  if Sync.isLoaded e then e
  else Sync.recipesEffect JSON_stringify
         (Sync.foodsEffect JSON_stringify
            (with_guards true (Sync.foodsFromServerRef e)
               (Sync.recipesFromServerRef e) e)).

(** The [try] branch of [loadData] once both collections have arrived. *)
Definition loadSucceeded (loadedFoods : list Food) (loadedRecipes : list Recipe)
    (e : Sync.Engine) : Sync.Engine :=
  let e1 := with_guards (Sync.isLoaded e) true true e in
  let e2 := Sync.setFoods JSON_stringify loadedFoods e1 in
  let e3 := Sync.setRecipes JSON_stringify loadedRecipes e2 in
  let e4 := Sync.setLastSave JSON_stringify Sync.CFoods
              (Sync.createDataHash JSON_stringify (List.map AFood loadedFoods)) e3 in
  let e5 := Sync.setLastSave JSON_stringify Sync.CRecipes
              (Sync.createDataHash JSON_stringify (List.map ARecipe loadedRecipes))
              e4 in
  let e6 := setIsLoaded e5 in
  Sync.with_timeouts (Sync.timeouts e6) (Pos.succ (Sync.nextTimeout e6)) e6.

(** The [catch] branch of [loadData]: one of the two requests threw. *)
Definition loadFailed (e : Sync.Engine) : Sync.Engine := setIsLoaded e.

End WithJSON.

(** The callback of the 100 ms timeout: both guards are reset; a ref is not
    state, so nothing is rendered. *)
Definition resetGuards (e : Sync.Engine) : Sync.Engine :=
  with_guards (Sync.isLoaded e) false false e.

(** [if (timeout) clearTimeout(timeout)] *)
Definition clearIfSet (r : option positive) (e : Sync.Engine) : Sync.Engine :=
  match r with
  | Some id => Sync.clearTimeout id e
  | None => e
  end.

(** The cleanup effect: every handle still in [saveTimeoutRef] is cleared. *)
Definition unmount (e : Sync.Engine) : Sync.Engine :=
  clearIfSet (Sync.refRecipes e) (clearIfSet (Sync.refFoods e) e).

End Loading.

(** ** The storage server

    The Express handlers and their two file helpers, over a disk that holds
    files and directories and may refuse writes.  [json] is the type of JSON
    values; [JSON_parse] stands for [JSON.parse] ([None] when it throws),
    [JSON_pretty] for [JSON.stringify(_, null, 2)], and [emptyArray] for
    [[]]. *)

Module Server.

Record Disk : Type := mkDisk {
  files : gmap string string;
  dirs : gset string;
  writable : bool
}.

Fixpoint strip_slashes (s : string) : string :=
  match s with
  | String c s' => if Ascii.eqb c "/" then strip_slashes s' else s
  | EmptyString => EmptyString
  end.

Fixpoint after_slash (s : string) : option string :=
  match s with
  | String c s' => if Ascii.eqb c "/" then Some s' else after_slash s'
  | EmptyString => None
  end.

(** [path.dirname(p)], on POSIX paths. *)
Definition path_dirname (p : string) : string :=
  match p with
  | EmptyString => "."
  | _ =>
      match strip_slashes (Str.rev_onto p EmptyString) with
      | EmptyString => "/"
      | r =>
          match after_slash r with
          | None => "."
          | Some rest =>
              match strip_slashes rest with
              | EmptyString => "/"
              | rest' => Str.rev_onto rest' EmptyString
              end
          end
      end
  end.

(** [path.join(dir, ...segments)] for plain segments. *)
Definition path_join (dir : string) (segments : list string) : string :=
  fold_left (λ p segment, String.append p (String.append "/" segment)) segments dir.

Definition FOODS_FILE (dirname : string) : string :=
  path_join dirname ["public"; "data"; "foods.json"].

Definition RECIPES_FILE (dirname : string) : string :=
  path_join dirname ["public"; "data"; "recipes.json"].

(** [fs.existsSync(p)] *)
Definition existsSync (p : string) (d : Disk) : bool :=
  bool_decide (is_Some (files d !! p)) || bool_decide (p ∈ dirs d).

(** [fs.readFileSync(p, 'utf8')]; [None] when it throws. *)
Definition readFileSync (p : string) (d : Disk) : option string := files d !! p.

(** [fs.mkdirSync(dir, { recursive: true })]; [None] when it throws. *)
Definition mkdirSync (dir : string) (d : Disk) : option Disk :=
  if writable d
  then Some {| files := files d; dirs := {[dir]} ∪ dirs d; writable := true |}
  else None.

(** [fs.writeFileSync(p, content)]; [None] when it throws. *)
Definition writeFileSync (p content : string) (d : Disk) : option Disk :=
  if writable d && negb (bool_decide (p ∈ dirs d))
  then Some {| files := <[p := content]> (files d); dirs := dirs d;
               writable := writable d |}
  else None.

Inductive body (json : Type) : Type :=
  | Json (value : json)
  | Message (message : string)
  | Error (error : string).
Arguments Json {json} value.
Arguments Message {json} message.
Arguments Error {json} error.

Record response (json : Type) : Type := mkResponse {
  status : Z;
  payload : body json
}.
Arguments mkResponse {json} status payload.
Arguments status {json} r.
Arguments payload {json} r.

(** [response.ok] *)
Definition ok {json : Type} (r : response json) : bool :=
  (200 <=? status r) && (status r <=? 299).

Section WithJSON.

Context {json : Type}.
Variable JSON_parse : string → option json.
Variable JSON_pretty : json → string.
Variable emptyArray : json.

Definition readJSONFile (filePath : string) (d : Disk) : json :=
  if negb (existsSync filePath d) then emptyArray
  else
    match readFileSync filePath d with
    | Some data =>
        match JSON_parse data with
        | Some value => value
        | None => emptyArray
        end
    | None => emptyArray
    end.

(** The flag returned, and the disk as the call leaves it. *)
Definition writeJSONFile (filePath : string) (data : json) (d : Disk)
  : bool * Disk :=
  let dir := path_dirname filePath in
  let made := if negb (existsSync dir d) then mkdirSync dir d else Some d in
  match made with
  | Some d1 =>
      match writeFileSync filePath (JSON_pretty data) d1 with
      | Some d2 => (true, d2)
      | None => (false, d1)
      end
  | None => (false, d)
  end.

Variable dirname : string.

(** [app.get('/api/foods', ...)] *)
Definition getFoods (d : Disk) : response json :=
  mkResponse 200 (Json (readJSONFile (FOODS_FILE dirname) d)).

(** [app.post('/api/foods', ...)], with [req.body] as parsed by the JSON
    middleware. *)
Definition postFoods (reqBody : json) (d : Disk) : response json * Disk :=
  let '(success, d') := writeJSONFile (FOODS_FILE dirname) reqBody d in
  if success then (mkResponse 200 (Message "Foods saved successfully"), d')
  else (mkResponse 500 (Error "Failed to save foods"), d').

Definition getRecipes (d : Disk) : response json :=
  mkResponse 200 (Json (readJSONFile (RECIPES_FILE dirname) d)).

Definition postRecipes (reqBody : json) (d : Disk) : response json * Disk :=
  let '(success, d') := writeJSONFile (RECIPES_FILE dirname) reqBody d in
  if success then (mkResponse 200 (Message "Recipes saved successfully"), d')
  else (mkResponse 500 (Error "Failed to save recipes"), d').

End WithJSON.

End Server.

(** ** The storage client

    [foodsAPI] and [recipesAPI] of [api/storage.ts], talking to the server
    above when it can be reached.  [JSON_stringify] stands for
    [JSON.stringify], and [express_json] for the server's JSON middleware on
    the text of a request: [None] when it rejects the request (a text that is
    not JSON, or one over its size limit), which the handler then never sees.
    Writing to [localStorage] is taken to succeed. *)

Module Client.

Record World : Type := mkWorld {
  online : bool;
  disk : Server.Disk;
  localStorage : gmap string string
}.

Definition foodsKey : string := "fridgeManager_foods".
Definition recipesKey : string := "fridgeManager_recipes".

Section WithJSON.

Context {json : Type}.
Variable JSON_parse : string → option json.
Variable JSON_stringify : json → string.
Variable JSON_pretty : json → string.
Variable express_json : string → option json.
Variable emptyArray : json.
Variable dirname : string.

(** The [catch] branch of [getAll]. *)
Definition fromLocalStorage (key : string) (w : World) : outcome json :=
  match localStorage w !! key with
  | Some saved =>
      if Str.truthy saved then
        match JSON_parse saved with
        | Some value => Done value
        | None => Threw "SyntaxError"
        end
      else Done emptyArray
  | None => Done emptyArray
  end.

(** The [catch] branch of [save]. *)
Definition toLocalStorage (key : string) (data : json) (w : World) : World :=
  {| online := online w; disk := disk w;
     localStorage := <[key := JSON_stringify data]> (localStorage w) |}.

(** [fetch(url)] followed by [response.json()]: [None] when either throws or
    the response is not ok. *)
Definition fetchJson (handler : Server.Disk → Server.response json) (w : World)
  : option json :=
  if online w then
    let response := handler (disk w) in
    if Server.ok response then
      match Server.payload response with
      | Server.Json value => JSON_parse (JSON_stringify value)
      | _ => None
      end
    else None
  else None.

(** [fetch(url, { method: 'POST', body: JSON.stringify(data) })]: whether the
    response arrived and was ok, and the world afterwards. *)
Definition postJson
    (handler : json → Server.Disk → Server.response json * Server.Disk)
    (data : json) (w : World) : bool * World :=
  if online w then
    match express_json (JSON_stringify data) with
    | Some reqBody =>
        let '(response, d') := handler reqBody (disk w) in
        (Server.ok response,
         {| online := online w; disk := d'; localStorage := localStorage w |})
    | None => (false, w)
    end
  else (false, w).

Definition getAll (handler : Server.Disk → Server.response json) (key : string)
    (w : World) : outcome json :=
  match fetchJson handler w with
  | Some value => Done value
  | None => fromLocalStorage key w
  end.

Definition save
    (handler : json → Server.Disk → Server.response json * Server.Disk)
    (key : string) (data : json) (w : World) : World :=
  let '(accepted, w') := postJson handler data w in
  if accepted then w' else toLocalStorage key data w'.

Definition foodsAPI_getAll : World → outcome json :=
  getAll (Server.getFoods JSON_parse emptyArray dirname) foodsKey.

Definition foodsAPI_save : json → World → World :=
  save (Server.postFoods JSON_pretty dirname) foodsKey.

Definition recipesAPI_getAll : World → outcome json :=
  getAll (Server.getRecipes JSON_parse emptyArray dirname) recipesKey.

Definition recipesAPI_save : json → World → World :=
  save (Server.postRecipes JSON_pretty dirname) recipesKey.

End WithJSON.

End Client.

(** ** Calendar dates

    An instance of [Date_getTime] for the strings a date input produces:
    [YYYY-MM-DD] naming an existing day reads as midnight UTC of that day, in
    milliseconds since the epoch; this instance reports any other string as
    an invalid date. *)

Module IsoDate.

Definition digit (c : ascii) : option Z :=
  let n := nat_of_ascii c in
  if (Nat.leb 48 n && Nat.leb n 57)%bool then Some (Z.of_nat (n - 48)) else None.

Fixpoint digits (cs : list ascii) (acc : Z) : option Z :=
  match cs with
  | [] => Some acc
  | c :: cs' =>
      match digit c with
      | Some d => digits cs' (10 * acc + d)
      | None => None
      end
  end.

Definition is_leap (y : Z) : bool :=
  (y mod 4 =? 0) && (negb (y mod 100 =? 0) || (y mod 400 =? 0)).

Definition days_in_month (y m : Z) : Z :=
  if m =? 2 then (if is_leap y then 29 else 28)
  else if (m =? 4) || (m =? 6) || (m =? 9) || (m =? 11) then 30
  else 31.

(** Days from 1970-01-01 to the given civil date. *)
Definition days_from_civil (y m d : Z) : Z :=
  let y' := if m <=? 2 then y - 1 else y in
  let era := y' / 400 in
  let yoe := y' - era * 400 in
  let mp := (m + 9) mod 12 in
  let doy := (153 * mp + 2) / 5 + d - 1 in
  let doe := yoe * 365 + yoe / 4 - yoe / 100 + doy in
  era * 146097 + doe - 719468.

Definition getTime (s : string) : number :=
  match list_ascii_of_string s with
  | [y1; y2; y3; y4; dash1; m1; m2; dash2; d1; d2] =>
      match digits [y1; y2; y3; y4] 0, digits [m1; m2] 0, digits [d1; d2] 0 with
      | Some y, Some m, Some d =>
          if Ascii.eqb dash1 "-" && Ascii.eqb dash2 "-"
             && (1 <=? m) && (m <=? 12) && (1 <=? d) && (d <=? days_in_month y m)
          then Number.of_Z (days_from_civil y m d * 86400000)
          else NaN
      | _, _, _ => NaN
      end
  | _ => NaN
  end.

End IsoDate.

(** ** Sample data *)

Module Sample.

(** The second byte of a letter from U+00C0 to U+00DE, the multiplication
    sign apart, lowered. *)
Definition lower_latin1 (c : ascii) : ascii :=
  let n := nat_of_ascii c in
  if (Nat.leb 128 n && Nat.leb n 158 && negb (Nat.eqb n 151))%bool
  then ascii_of_nat (n + 32) else c.

Fixpoint lower_text (s : string) : string :=
  match s with
  | EmptyString => EmptyString
  | String c s' =>
      if Nat.eqb (nat_of_ascii c) 195 then
        match s' with
        | String d s'' => String c (String (lower_latin1 d) (lower_text s''))
        | EmptyString => String c EmptyString
        end
      else String (Str.ascii_lower c) (lower_text s')
  end.

(** A case mapping for texts in Basic Latin and Latin-1: the letters A to Z
    and the capital letters from U+00C0 to U+00DE are lowered. *)
Definition toLowerCase : Str.case_mapping.
Proof.
  refine {| Str.lower := lower_text |}.
  induction s as [| c s IH]; [reflexivity |].
  cbn [Str.is_ascii]. intros H. apply andb_prop in H as [Hc Hs].
  cbn [Str.map]. rewrite <- (IH Hs). cbn [lower_text].
  destruct (Nat.eqb_spec (nat_of_ascii c) 195) as [Heq | _]; [| reflexivity].
  rewrite Heq in Hc. discriminate Hc.
Defined.

(** U+00A0, the no-break space. *)
Definition nbsp : string := Str.bytes [194; 160]%nat.

(** The keys of a food as [addFood] writes them, of the data of the food form,
    of the data of the recipe form, of a recipe as [addRecipe] writes it, and
    of an ingredient. *)
Definition foodKeys : list string :=
  ["id"; "name"; "category"; "quantity"; "unit"; "expiryDate"; "notes";
   "dateAdded"].

Definition formKeys : list string :=
  ["name"; "category"; "quantity"; "unit"; "expiryDate"; "notes"].

Definition recipeFormKeys : list string :=
  ["name"; "description"; "instructions"; "cookingTime"; "servings";
   "ingredients"].

Definition recipeKeys : list string := recipeFormKeys ++ ["id"; "dateCreated"].

Definition ingredientKeys : list string := ["name"; "quantity"; "unit"].

Definition milk : Food :=
  {| food_id := Num 1700000000000.25; food_name := "Milk"; food_category := "lácteos";
     food_quantity := Num 0.5; food_unit := "l"; food_expiryDate := "2024-03-09";
     food_notes := ""; food_dateAdded := "2024-03-01T08:00:00.000Z";
     food_keys := foodKeys |}.

Definition wholeMilk : Food :=
  {| food_id := Num 1700000000001.5; food_name := "Whole Milk"; food_category := "lácteos";
     food_quantity := Num 2; food_unit := "l"; food_expiryDate := "2024-03-12";
     food_notes := ""; food_dateAdded := "2024-03-02T08:00:00.000Z";
     food_keys := foodKeys |}.

Definition eggs : Food :=
  {| food_id := Num 1700000000002.75; food_name := "Eggs"; food_category := "otros";
     food_quantity := Num 6; food_unit := "unidad"; food_expiryDate := "2024-03-20";
     food_notes := "free range"; food_dateAdded := "2024-03-03T08:00:00.000Z";
     food_keys := foodKeys |}.

Definition milkData (quantity : number) : FoodData :=
  {| fd_name := " Milk "; fd_category := "lácteos"; fd_quantity := quantity;
     fd_unit := "l"; fd_expiryDate := "2024-03-15"; fd_notes := "";
     fd_keys := formKeys |}.

Definition pancakes : Recipe :=
  {| recipe_id := Num 1700000000100; recipe_name := "Pancakes";
     recipe_description := ""; recipe_instructions := "Mix and fry.";
     recipe_cookingTime := "20 min"; recipe_servings := Num 2;
     recipe_ingredients :=
       [ {| ing_name := "milk"; ing_quantity := Num 1; ing_unit := "l";
            ing_keys := ingredientKeys |};
         {| ing_name := "MILK"; ing_quantity := Num 2; ing_unit := "l";
            ing_keys := ingredientKeys |} ];
     recipe_dateCreated := "2024-03-01T09:00:00.000Z";
     recipe_keys := recipeKeys |}.

Definition water : Recipe :=
  {| recipe_id := Num 1700000000200; recipe_name := "Glass of water";
     recipe_description := ""; recipe_instructions := "Pour.";
     recipe_cookingTime := ""; recipe_servings := Num 1;
     recipe_ingredients := [];
     recipe_dateCreated := "2024-03-01T09:30:00.000Z";
     recipe_keys := recipeKeys |}.

Definition waterData : RecipeData :=
  {| rd_name := "Sparkling water"; rd_description := "fizzy";
     rd_instructions := "Pour slowly."; rd_cookingTime := "1 min";
     rd_servings := Num 2; rd_ingredients := [];
     rd_keys := recipeFormKeys |}.

(** A stand-in for the serializer: the names of the records, in order. *)
Definition stringify (data : list any) : string :=
  String.concat ","
    (List.map (λ item, match item with
                       | AFood food => food_name food
                       | ARecipe recipe => recipe_name recipe
                       end) data).

(** A stand-in that also shows the keys of each record, in their order. *)
Definition keyed (data : list any) : string :=
  String.concat ","
    (List.map (λ item, match item with
                       | AFood food =>
                           String.append (food_name food)
                             (String.append ":" (String.concat "" (food_keys food)))
                       | ARecipe recipe =>
                           String.append (recipe_name recipe)
                             (String.append ":"
                                (String.concat "" (recipe_keys recipe)))
                       end) data).

(** 2024-03-10T12:00:00Z *)
Definition noon : Z := 1710072000000.

Definition env : Env :=
  {| env_now := 1700000000300; env_random := 0.5; env_iso := "2023-11-14T22:18:20.300Z" |}.

(** Another call within the same millisecond; the random fraction is
    0.5 + 2^-20. *)
Definition sameMillisecond : Env :=
  {| env_now := 1700000000300; env_random := 0.50000095367431640625;
     env_iso := "2023-11-14T22:18:20.300Z" |}.

Definition state (fs : list Food) (rs : list Recipe) : State :=
  {| foods := fs; recipes := rs; showAddFood := false; showAddRecipe := false;
     editingFood := None; editingRecipe := None |}.

(** The edit forms are open on [wholeMilk] and on [water]. *)
Definition editingWholeMilk : State :=
  {| foods := [milk; wholeMilk; eggs];
     recipes := [pancakes; water];
     showAddFood := false; showAddRecipe := false;
     editingFood := Some wholeMilk; editingRecipe := Some water |}.

(** The edit forms are open on records that the collections no longer hold. *)
Definition editingMissing : State :=
  {| foods := [milk; eggs]; recipes := [pancakes];
     showAddFood := false; showAddRecipe := false;
     editingFood := Some wholeMilk; editingRecipe := Some water |}.

Definition jalapeno : Food :=
  {| food_id := Num 1700000000004; food_name := "Jalapeño";
     food_category := "verduras"; food_quantity := Num 3; food_unit := "unidad";
     food_expiryDate := "2024-03-25"; food_notes := "";
     food_dateAdded := "2024-03-04T08:00:00.000Z";
     food_keys := foodKeys |}.

Definition platano : Food :=
  {| food_id := Num 1700000000005; food_name := "PLÁTANO";
     food_category := "frutas"; food_quantity := Num 4; food_unit := "unidad";
     food_expiryDate := "2024-03-14"; food_notes := "";
     food_dateAdded := "2024-03-04T09:00:00.000Z";
     food_keys := foodKeys |}.

Definition batido : Recipe :=
  {| recipe_id := Num 1700000000400; recipe_name := "Batido";
     recipe_description := ""; recipe_instructions := "Batir.";
     recipe_cookingTime := "5 min"; recipe_servings := Num 1;
     recipe_ingredients :=
       [ {| ing_name := "plátano"; ing_quantity := Num 2; ing_unit := "unidad";
            ing_keys := ingredientKeys |} ];
     recipe_dateCreated := "2024-03-04T09:30:00.000Z";
     recipe_keys := recipeKeys |}.

(** A food whose date is not a date. *)
Definition undatedRice : Food :=
  {| food_id := Num 1700000000003; food_name := "Rice"; food_category := "cereales";
     food_quantity := Num 1; food_unit := "kg"; food_expiryDate := "next year";
     food_notes := ""; food_dateAdded := "2024-03-01T08:00:00.000Z";
     food_keys := foodKeys |}.

(** A serializer that is never empty: [stringify] between brackets. *)
Definition bracketed (data : list any) : string :=
  String.append "[" (String.append (stringify data) "]").

(** Both collections changed at time 0 after a load, and 500 ms have passed:
    the foods' write-back (handle 1) and the recipes' (handle 2) are due. *)
Definition bothDue : Sync.Engine :=
  Sync.tick 500
    (Sync.setRecipes stringify [water]
       (Sync.setFoods stringify [eggs] (Sync.loaded stringify 0 (state [milk] [])))).

End Sample.


(** ** A sample store

    JSON restricted to arrays of one-digit numbers, with its compact and its
    indented text, and a server directory. *)

Module SampleStore.

Definition json : Type := list nat.

Definition digit (n : nat) : ascii := ascii_of_nat (48 + n).

Definition newline : ascii := ascii_of_nat 10.

Fixpoint compact_items (value : list nat) : string :=
  match value with
  | [] => EmptyString
  | [n] => String (digit n) EmptyString
  | n :: rest => String (digit n) (String "," (compact_items rest))
  end.

Definition stringify (value : json) : string :=
  String "[" (String.append (compact_items value) "]").

Fixpoint pretty_items (value : list nat) : string :=
  match value with
  | [] => EmptyString
  | [n] => String " " (String " " (String (digit n) (String newline EmptyString)))
  | n :: rest =>
      String " " (String " " (String (digit n) (String "," (String newline
        (pretty_items rest)))))
  end.

Definition pretty (value : json) : string :=
  match value with
  | [] => "[]"
  | _ => String "[" (String newline (String.append (pretty_items value) "]"))
  end.

Fixpoint parse_items (s : string) (acc : list nat) : option json :=
  match s with
  | EmptyString => None
  | String c s' =>
      let n := nat_of_ascii c in
      if Ascii.eqb c "]" then
        match s' with EmptyString => Some (rev acc) | _ => None end
      else if (Nat.leb 48 n && Nat.leb n 57)%bool then parse_items s' ((n - 48)%nat :: acc)
      else if (Ascii.eqb c "," || Ascii.eqb c " " || Ascii.eqb c newline)%bool
      then parse_items s' acc
      else None
  end.

Definition parse (s : string) : option json :=
  match s with
  | String c s' => if Ascii.eqb c "[" then parse_items s' [] else None
  | EmptyString => None
  end.

Definition emptyArray : json := [].

Definition shelf : json := [3; 1]%nat.

Definition dirname : string := "/srv/app".

(** A writable disk with nothing on it. *)
Definition blank : Server.Disk :=
  {| Server.files := ∅; Server.dirs := ∅; Server.writable := true |}.

(** A disk that refuses writes and holds a foods file. *)
Definition readonly : Server.Disk :=
  {| Server.files := {[ Server.FOODS_FILE dirname := pretty [7%nat] ]};
     Server.dirs := {[ Server.path_dirname (Server.FOODS_FILE dirname) ]};
     Server.writable := false |}.

Definition connected : Client.World :=
  {| Client.online := true; Client.disk := blank; Client.localStorage := ∅ |}.

Definition disconnected : Client.World :=
  {| Client.online := false; Client.disk := readonly; Client.localStorage := ∅ |}.

Definition refused : Client.World :=
  {| Client.online := true; Client.disk := readonly; Client.localStorage := ∅ |}.

End SampleStore.


(** * Vocabulary of the properties *)

(** ** Recipe feasibility *)

Section IgnoringCase.

Variable toLowerCase : Str.case_mapping.

(** [haystack] contains [needle] as a substring once both are lowered. *)
Definition contains_ignoring_case (haystack needle : string) : Prop :=
  ∃ pre post,
    toLowerCase haystack
    = String.append pre (String.append (toLowerCase needle) post).

(** The two texts are the same but for the case of the letters A to Z. *)
Definition same_but_case (a b : string) : Prop :=
  Str.map Str.ascii_lower a = Str.map Str.ascii_lower b.

(** [haystack] has a piece that is [needle] but for the case of the letters A
    to Z. *)
Definition contains_but_case (haystack needle : string) : Prop :=
  ∃ pre mid post,
    haystack = String.append pre (String.append mid post)
    ∧ same_but_case mid needle.

(** Some food matches the ingredient's name and holds at least the required
    quantity. *)
Definition covered (foods : list Food) (ingredient : Ingredient) : Prop :=
  ∃ food, food ∈ foods
    ∧ contains_ignoring_case (food_name food) (ing_name ingredient)
    ∧ Number.Le (ing_quantity ingredient) (food_quantity food).

End IgnoringCase.

(** ** White space *)

(** The code points of ECMAScript's WhiteSpace and LineTerminator
    productions. *)
Definition WhiteSpace : list N :=
  [ 0x9; 0xA; 0xB; 0xC; 0xD; 0x20; 0xA0; 0x1680;
    0x2000; 0x2001; 0x2002; 0x2003; 0x2004; 0x2005; 0x2006; 0x2007; 0x2008;
    0x2009; 0x200A; 0x2028; 0x2029; 0x202F; 0x205F; 0x3000; 0xFEFF ]%N.

Definition byte (n : N) : ascii := ascii_of_N n.

(** The UTF-8 text of a code point. *)
Definition utf8 (cp : N) : string :=
  (if cp <? 0x80 then String (byte cp) EmptyString
   else if cp <? 0x800 then
     String (byte (0xC0 + cp / 0x40)) (String (byte (0x80 + cp mod 0x40)) EmptyString)
   else if cp <? 0x10000 then
     String (byte (0xE0 + cp / 0x1000))
       (String (byte (0x80 + (cp / 0x40) mod 0x40))
          (String (byte (0x80 + cp mod 0x40)) EmptyString))
   else
     String (byte (0xF0 + cp / 0x40000))
       (String (byte (0x80 + (cp / 0x1000) mod 0x40))
          (String (byte (0x80 + (cp / 0x40) mod 0x40))
             (String (byte (0x80 + cp mod 0x40)) EmptyString))))%N.

(** [s] is a run of entries of [table]. *)
Inductive made_of (table : list string) : string → Prop :=
  | made_of_nil : made_of table EmptyString
  | made_of_cons (w s : string) :
      w ∈ table → made_of table s → made_of table (String.append w s).

(** [s] is the text of white space and nothing else. *)
Definition white (s : string) : Prop := made_of (List.map utf8 WhiteSpace) s.

(** *** Records under another order of their keys *)

Definition food_with_keys (keys : list string) (food : Food) : Food :=
  {| food_id := food_id food; food_name := food_name food;
     food_category := food_category food; food_quantity := food_quantity food;
     food_unit := food_unit food; food_expiryDate := food_expiryDate food;
     food_notes := food_notes food; food_dateAdded := food_dateAdded food;
     food_keys := keys |}.

Definition recipe_with_keys (keys : list string) (recipe : Recipe) : Recipe :=
  {| recipe_id := recipe_id recipe; recipe_name := recipe_name recipe;
     recipe_description := recipe_description recipe;
     recipe_instructions := recipe_instructions recipe;
     recipe_cookingTime := recipe_cookingTime recipe;
     recipe_servings := recipe_servings recipe;
     recipe_ingredients := recipe_ingredients recipe;
     recipe_dateCreated := recipe_dateCreated recipe;
     recipe_keys := keys |}.

(** The keys of a food and of a recipe that went through the edit form: those
    of the form, then the identity and the date of creation. *)
Definition edited_food_keys : list string :=
  ["name"; "category"; "quantity"; "unit"; "expiryDate"; "notes"; "id";
   "dateAdded"].

Definition edited_recipe_keys : list string :=
  ["name"; "description"; "instructions"; "cookingTime"; "servings";
   "ingredients"; "id"; "dateCreated"].

(** [s] neither starts nor ends with white space. *)
Definition trimmed (s : string) : Prop :=
  ∀ cp u, cp ∈ WhiteSpace →
    s ≠ String.append (utf8 cp) u ∧ s ≠ String.append u (utf8 cp).

(** ** Identities that are numbers *)

(** Every record of [l] has an identity that is not NaN. *)
Definition numeric_ids (l : list any) : Prop :=
  ∀ a, a ∈ l → ∃ q, any_id a = Num q.

(** [a] does not come after [b]: their identities are numbers in order. *)
Definition id_le (a b : any) : Prop := Number.Le (any_id a) (any_id b).

(** ** Collections addressed by identity *)

Section ByIdentity.

Context {A : Type} (id_of : A → number).

(** No two positions hold records with the same identity. *)
Definition unique_ids (l : list A) : Prop :=
  ∀ i j a b, l !! i = Some a → l !! j = Some b →
    Number.strict_eq (id_of a) (id_of b) = true → i = j.

(** Position [i] holds the only record of [l] with identity [id]. *)
Definition only_match (id : number) (i : nat) (l : list A) : Prop :=
  (∃ a, l !! i = Some a ∧ Number.strict_eq (id_of a) id = true)
  ∧ ∀ j b, l !! j = Some b → Number.strict_eq (id_of b) id = true → j = i.

(** No record of [l] has identity [id]. *)
Definition absent (id : number) (l : list A) : Prop :=
  ∀ a, a ∈ l → Number.strict_eq (id_of a) id = false.

End ByIdentity.

(** ** Storage *)

(** The same world once the server can be reached. *)
Definition reconnected (w : Client.World) : Client.World :=
  {| Client.online := true; Client.disk := Client.disk w;
     Client.localStorage := Client.localStorage w |}.

(** ** Coherence of the synchronization engine *)

Module Coherence.

(** Loading is over and the from-server guards have been reset. *)
Definition ready (e : Sync.Engine) : Prop :=
  Sync.isLoaded e = true
  ∧ Sync.foodsFromServerRef e = false
  ∧ Sync.recipesFromServerRef e = false.

(** Every pending timeout is the one [saveTimeoutRef] names for its
    collection; handles are older than the next one the runtime will hand
    out, and the two collections never share a handle. *)
Definition refs_sound (e : Sync.Engine) : Prop :=
  (∀ id cb, Sync.timeouts e !! id = Some cb →
     Sync.ref (Sync.to_type cb) e = Some id)
  ∧ (∀ type id, Sync.ref type e = Some id → (id < Sync.nextTimeout e)%positive)
  ∧ (∀ id, Sync.ref Sync.CFoods e = Some id → Sync.ref Sync.CRecipes e ≠ Some id).

(** At most one timeout is pending for the collection. *)
Definition at_most_one_pending (type : Sync.coll) (e : Sync.Engine) : Prop :=
  ∀ id1 cb1 id2 cb2,
    Sync.timeouts e !! id1 = Some cb1 → Sync.to_type cb1 = type →
    Sync.timeouts e !! id2 = Some cb2 → Sync.to_type cb2 = type →
    id1 = id2.

(** The timeouts left after [debouncedSave] has cleared the one it knows. *)
Definition cleared (type : Sync.coll) (e : Sync.Engine)
  : gmap positive Sync.timeout :=
  match Sync.ref type e with
  | Some id => delete id (Sync.timeouts e)
  | None => Sync.timeouts e
  end.

Section WithJSON.

Variable JSON_stringify : list any → string.

Local Abbreviation hash_of := (Sync.createDataHash JSON_stringify).

(** The closure carries the collection as it is now, its hash, and the
    last-saved hash as it is now. *)
Definition up_to_date (e : Sync.Engine) (cb : Sync.timeout) : Prop :=
  Sync.to_currentHash cb = Sync.lastSave (Sync.to_type cb) e
  ∧ Sync.to_data cb = Sync.current (Sync.to_type cb) e
  ∧ Sync.to_hash cb = hash_of (Sync.to_data cb).

Definition coherent_on (P : Sync.coll → Prop) (e : Sync.Engine) : Prop :=
  ready e ∧ refs_sound e
  ∧ ∀ id cb, Sync.timeouts e !! id = Some cb → P (Sync.to_type cb) →
      up_to_date e cb.

Definition coherent (e : Sync.Engine) : Prop := coherent_on (λ _, True) e.

(** What a save effect does once its guard passes. *)
Definition arm (type : Sync.coll) (e : Sync.Engine) : Sync.Engine :=
  Sync.debouncedSave type (Sync.current type e) (hash_of (Sync.current type e)) e.

Definition armed_timeout (type : Sync.coll) (e : Sync.Engine) : Sync.timeout :=
  {| Sync.to_type := type;
     Sync.to_due := Sync.clock e + Sync.debounce;
     Sync.to_data := Sync.current type e;
     Sync.to_hash := hash_of (Sync.current type e);
     Sync.to_currentHash := Sync.lastSave type e |}.

(** The timeout armed for [data] at a moment when the last-saved hash is
    [last]. *)
Definition armed_with (type : Sync.coll) (due : Z) (data : list any)
    (last : string) : Sync.timeout :=
  {| Sync.to_type := type; Sync.to_due := due; Sync.to_data := data;
     Sync.to_hash := hash_of data; Sync.to_currentHash := last |}.

(** The event [mk x] replaces the collection [type] by [inj x], and the render
    that follows runs the save effect of that collection. *)
Definition sets {A : Type} (type : Sync.coll) (inj : A → list any)
    (mk : A → Sync.event) : Prop :=
  ∀ x e, ready e →
    ∃ e0, Sync.step JSON_stringify (mk x) e = Some (arm type e0)
      ∧ Sync.current type e0 = inj x
      ∧ Sync.timeouts e0 = Sync.timeouts e
      ∧ Sync.nextTimeout e0 = Sync.nextTimeout e
      ∧ (∀ t, Sync.lastSave t e0 = Sync.lastSave t e)
      ∧ Sync.clock e0 = Sync.clock e
      ∧ Sync.saved e0 = Sync.saved e
      ∧ Sync.inflight e0 = Sync.inflight e
      ∧ (coherent e → coherent_on (λ t, t ≠ type) e0).

End WithJSON.

End Coherence.

(** * Properties *)

(** ** Numbers: the boolean tests against their meaning *)

Lemma Number_le_spec (a b : number) : Number.le a b = true ↔ Number.Le a b.
Proof.
  unfold Number.Le. destruct a as [|p], b as [|q]; simpl.
  1-3: split; [discriminate | intros (? & ? & ? & ? & _); discriminate].
  rewrite Qle_bool_iff. split.
  - intros H. by exists p, q.
  - intros (p' & q' & [= ->] & [= ->] & H). exact H.
Qed.

Lemma Qlt_bool_iff (p q : Q) :
  Qle_bool p q && negb (Qeq_bool p q) = true ↔ (p < q)%Q.
Proof.
  rewrite andb_true_iff, negb_true_iff, Qle_bool_iff.
  rewrite <- not_true_iff_false, Qeq_bool_iff. split.
  - intros [Hle Hne]. apply Qle_lteq in Hle as [Hlt | Heq]; [done | by destruct Hne].
  - intros Hlt. split; [by apply Qlt_le_weak | by apply Qlt_not_eq].
Qed.

Lemma Number_lt_spec (a b : number) : Number.lt a b = true ↔ Number.Lt a b.
Proof.
  unfold Number.Lt. destruct a as [|p], b as [|q]; simpl.
  1-3: split; [discriminate | intros (? & ? & ? & ? & _); discriminate].
  rewrite Qlt_bool_iff. split.
  - intros H. by exists p, q.
  - intros (p' & q' & [= ->] & [= ->] & H). exact H.
Qed.

Lemma Number_strict_eq_spec (a b : number) :
  Number.strict_eq a b = true ↔ Number.Eq a b.
Proof.
  unfold Number.Eq. destruct a as [|p], b as [|q]; simpl.
  1-3: split; [discriminate | intros (? & ? & ? & ? & _); discriminate].
  rewrite Qeq_bool_iff. split.
  - intros H. by exists p, q.
  - intros (p' & q' & [= ->] & [= ->] & H). exact H.
Qed.

Lemma Number_strict_eq_sym (a b : number) :
  Number.strict_eq a b = Number.strict_eq b a.
Proof.
  destruct a as [|p], b as [|q]; simpl; try done.
  apply eq_true_iff_eq. rewrite !Qeq_bool_iff. split; intros H; by symmetry.
Qed.

Lemma Number_strict_eq_trans (a b c : number) :
  Number.strict_eq a b = true → Number.strict_eq b c = true →
  Number.strict_eq a c = true.
Proof.
  destruct a as [|p], b as [|q], c as [|r]; simpl; try done.
  rewrite !Qeq_bool_iff. intros H1 H2. by rewrite H1.
Qed.

Lemma Number_Lt_not_eq (a b : number) :
  Number.Lt a b → Number.strict_eq a b = false.
Proof.
  intros (p & q & -> & -> & Hlt). simpl.
  apply not_true_iff_false. rewrite Qeq_bool_iff.
  by apply Qlt_not_eq.
Qed.

Lemma Number_Lt_not_Le (a b : number) : Number.Lt a b → ¬ Number.Le b a.
Proof.
  intros (p & q & -> & -> & Hlt) (q' & p' & [= <-] & [= <-] & Hle).
  by apply (Qlt_not_le p q).
Qed.

(** ** Strings: [includes] finds exactly the substrings *)

Lemma append_cons (x : ascii) (a b : string) :
  String.append (String x a) b = String x (String.append a b).
Proof. reflexivity. Qed.

Lemma append_empty_l (b : string) : String.append EmptyString b = b.
Proof. reflexivity. Qed.

Lemma append_assoc (a b c : string) :
  String.append (String.append a b) c = String.append a (String.append b c).
Proof.
  induction a as [|x a IH]; [done |]. rewrite !append_cons. by f_equal.
Qed.

Lemma append_empty_r (a : string) : String.append a EmptyString = a.
Proof. induction a as [|x a IH]; [done |]. rewrite append_cons. by f_equal. Qed.

Lemma append_length (a b : string) :
  String.length (String.append a b) = (String.length a + String.length b)%nat.
Proof.
  induction a as [| c a IH]; [done |]. rewrite append_cons. cbn. by rewrite IH.
Qed.

Lemma append_inj_l (a x y : string) :
  String.append a x = String.append a y → x = y.
Proof.
  induction a as [| c a IH]; [by rewrite !append_empty_l |].
  rewrite !append_cons. intros [=]. by apply IH.
Qed.

Lemma lower_empty (toLowerCase : Str.case_mapping) :
  toLowerCase EmptyString = EmptyString.
Proof. by rewrite Str.lower_ascii. Qed.

Lemma map_append (f : ascii → ascii) (a b : string) :
  Str.map f (String.append a b) = String.append (Str.map f a) (Str.map f b).
Proof.
  induction a as [| c a IH]; [done |]. rewrite append_cons. cbn [Str.map].
  by rewrite IH.
Qed.

Lemma map_split (f : ascii → ascii) (s a b : string) :
  Str.map f s = String.append a b →
  ∃ s1 s2, s = String.append s1 s2 ∧ Str.map f s1 = a ∧ Str.map f s2 = b.
Proof.
  revert s. induction a as [| c a IH]; intros s Hs.
  - by exists EmptyString, s.
  - destruct s as [| d s]; [discriminate Hs |].
    rewrite append_cons in Hs. cbn [Str.map] in Hs. injection Hs as Hc Hs.
    destruct (IH s Hs) as (s1 & s2 & -> & H1 & H2).
    exists (String d s1), s2. cbn [Str.map]. by rewrite Hc, H1.
Qed.

Lemma is_ascii_append (a b : string) :
  Str.is_ascii (String.append a b) = Str.is_ascii a && Str.is_ascii b.
Proof.
  induction a as [| c a IH]; [done |]. rewrite append_cons. cbn [Str.is_ascii].
  by rewrite IH, andb_assoc.
Qed.

Lemma prefix_append (t s : string) :
  String.prefix t s = true ↔ ∃ post, s = String.append t post.
Proof.
  revert s. induction t as [|c t IH]; intros s; simpl.
  - split; [intros _; by exists s | intros _; by destruct s].
  - destruct s as [|d s].
    + split; [done | intros [post H]; discriminate].
    + simpl. destruct (Ascii.ascii_dec c d) as [-> | Hne].
      * rewrite IH. split.
        -- intros [post ->]. by exists post.
        -- intros [post [= H]]. by exists post.
      * split; [done | intros [post [= H _]]; by destruct Hne].
Qed.

Lemma includes_spec (s t : string) :
  Str.includes s t = true ↔
  ∃ pre post, s = String.append pre (String.append t post).
Proof.
  induction s as [|c s IH].
  - cbn [Str.includes]. rewrite orb_false_r, prefix_append. split.
    + intros [post H]. by exists EmptyString, post.
    + intros (pre & post & H). destruct pre as [|d pre]; [| discriminate].
      by exists post.
  - cbn [Str.includes]. rewrite orb_true_iff, prefix_append, IH. split.
    + intros [[post H] | (pre & post & H)].
      * by exists EmptyString, post.
      * exists (String c pre), post. simpl. by rewrite H.
    + intros (pre & post & H). destruct pre as [|d pre].
      * left. by exists post.
      * right. simpl in H. injection H as _ H. by exists pre, post.
Qed.

(** ** Lists: [filter] and [map] by position *)

Lemma filter_elem_of {A : Type} (f : A → bool) (l : list A) (x : A) :
  x ∈ List.filter f l ↔ x ∈ l ∧ f x = true.
Proof. rewrite !list_elem_of_In. apply filter_In. Qed.

Lemma filter_sublist {A : Type} (f : A → bool) (l : list A) :
  sublist (List.filter f l) l.
Proof.
  induction l as [|x l IH]; simpl; [constructor |].
  destruct (f x); by constructor.
Qed.

Lemma filter_all_true {A : Type} (f : A → bool) (l : list A) :
  (∀ x, x ∈ l → f x = true) → List.filter f l = l.
Proof.
  induction l as [|x l IH]; intros H; simpl; [done |].
  rewrite (H x) by constructor. f_equal. apply IH.
  intros y Hy. apply H. by constructor.
Qed.

Lemma find_found {A : Type} (f : A → bool) (l : list A) :
  Views.found (List.find f l) = true ↔ ∃ x, x ∈ l ∧ f x = true.
Proof.
  induction l as [|x l IH]; simpl.
  - split; [done | intros (x & Hx & _); by apply elem_of_nil in Hx].
  - destruct (f x) eqn:Hfx; simpl.
    + split; [intros _ | done]. exists x. split; [constructor | done].
    + rewrite IH. split.
      * intros (y & Hy & Hfy). exists y. split; [by constructor | done].
      * intros (y & Hy & Hfy). apply elem_of_cons in Hy as [-> | Hy].
        -- congruence.
        -- by exists y.
Qed.

Example iso_epoch : IsoDate.getTime "1970-01-01" = Number.of_Z 0.
Proof. reflexivity. Qed.

Example iso_2024_03_10 : IsoDate.getTime "2024-03-10" = Number.of_Z 1710028800000.
Proof. reflexivity. Qed.

Example iso_invalid : IsoDate.getTime "2023-02-29" = NaN ∧ IsoDate.getTime "soon" = NaN.
Proof. split; reflexivity. Qed.

Example days_milk :
  Views.getDaysUntilExpiry IsoDate.getTime Sample.noon "2024-03-09" = Number.of_Z (-1).
Proof. reflexivity. Qed.

(** ** Recipe feasibility *)

Section Feasibility.

Variable toLowerCase : Str.case_mapping.

Lemma satisfies_spec (ingredient : Ingredient) (food : Food) :
  Views.satisfies toLowerCase ingredient food = true ↔
  contains_ignoring_case toLowerCase (food_name food) (ing_name ingredient)
  ∧ Number.Le (ing_quantity ingredient) (food_quantity food).
Proof.
  unfold Views.satisfies, Number.ge, contains_ignoring_case.
  by rewrite andb_true_iff, includes_spec, Number_le_spec.
Qed.

Lemma covered_spec (foods : list Food) (ingredient : Ingredient) :
  Views.found (List.find (Views.satisfies toLowerCase ingredient) foods) = true ↔
  covered toLowerCase foods ingredient.
Proof.
  rewrite find_found. unfold covered.
  split; intros (food & Hin & H); exists food; (split; [done |]);
    by apply satisfies_spec.
Qed.

Lemma available_spec (foods : list Food) (recipe : Recipe) :
  List.forallb (λ ingredient,
    Views.found (List.find (Views.satisfies toLowerCase ingredient) foods))
    (recipe_ingredients recipe) = true ↔
  ∀ ingredient, ingredient ∈ recipe_ingredients recipe →
    covered toLowerCase foods ingredient.
Proof.
  rewrite forallb_forall. split; intros H ingredient Hin.
  - apply covered_spec, H. by apply list_elem_of_In.
  - apply covered_spec, H. by apply list_elem_of_In.
Qed.

(** On names of the ASCII range, matching is containment but for the case of
    the letters A to Z, whatever the runtime. *)
Lemma contains_ascii (haystack needle : string) :
  Str.is_ascii haystack = true → Str.is_ascii needle = true →
  contains_ignoring_case toLowerCase haystack needle ↔
  contains_but_case haystack needle.
Proof.
  intros Hh Hn. unfold contains_ignoring_case, contains_but_case, same_but_case.
  rewrite !Str.lower_ascii by done. split.
  - intros (p & q & Hs).
    apply map_split in Hs as (pre & rest & -> & <- & Hrest).
    apply map_split in Hrest as (mid & post & -> & Hmid & <-).
    by exists pre, mid, post.
  - intros (pre & mid & post & -> & Hmid).
    exists (Str.map Str.ascii_lower pre), (Str.map Str.ascii_lower post).
    by rewrite !map_append, Hmid.
Qed.


(** C10. A recipe without ingredients is reported as available, whatever the
    foods are. *)
Theorem empty_recipe_available
  (recipes : list Recipe) (foods : list Food) (recipe : Recipe) :
  recipe ∈ recipes →
  recipe_ingredients recipe = [] →
  recipe ∈ Views.getAvailableRecipes toLowerCase recipes foods.
Proof.
  intros Hin Hnil. unfold Views.getAvailableRecipes.
  apply filter_elem_of. split; [done |]. by rewrite Hnil.
Qed.

End Feasibility.

Lemma empty_recipe_available_witness :
  Sample.water
    ∈ Views.getAvailableRecipes Sample.toLowerCase [Sample.pancakes; Sample.water] []
  ∧ Sample.water
      ∈ Views.getAvailableRecipes Sample.toLowerCase [Sample.water] [Sample.milk].
Proof.
  split.
  - apply (empty_recipe_available Sample.toLowerCase
             [Sample.pancakes; Sample.water] [] Sample.water);
      [apply list_elem_of_In; simpl; auto | reflexivity].
  - apply (empty_recipe_available Sample.toLowerCase
             [Sample.water] [Sample.milk] Sample.water);
      [apply list_elem_of_In; simpl; auto | reflexivity].
Defined.

Example scenario_insufficient :
  Views.getAvailableRecipes Sample.toLowerCase [Sample.pancakes; Sample.water]
    [Sample.milk]
  = [Sample.water].
Proof. reflexivity. Qed.

(** With the sample case mapping: an ingredient is found in a name written
    in another case, beyond the ASCII letters too, and not in a name that
    does not hold it. *)
Example scenario_case :
  Views.getAvailableRecipes Sample.toLowerCase [Sample.batido] [Sample.platano]
  = [Sample.batido]
  ∧ Views.getAvailableRecipes Sample.toLowerCase [Sample.batido; Sample.pancakes]
      [Sample.eggs; Sample.jalapeno]
    = [].
Proof. split; reflexivity. Qed.

Example scenario_shared_food :
  Views.getAvailableRecipes Sample.toLowerCase [Sample.pancakes; Sample.water]
    [Sample.milk; Sample.wholeMilk]
  = [Sample.pancakes; Sample.water].
Proof. reflexivity. Qed.


(** ** Expiry views *)

Section ExpiryViews.

Variable Date_getTime : string → number.

Local Abbreviation days_left now food :=
  (Views.getDaysUntilExpiry Date_getTime now (food_expiryDate food)).

(** C2. With the clock fixed at [now], [getExpiringFoods] keeps exactly the
    foods whose days until expiry lie between 0 and the window, and
    [getExpiredFoods] exactly those whose days until expiry are negative;
    both keep the order of the collection, and no food is in both. *)
Theorem expiry_buckets (days : number) (now : Z) (foods : list Food) :
  (∀ food, food ∈ Views.getExpiringFoods Date_getTime days now foods ↔
     food ∈ foods
     ∧ Number.Le (Number.of_Z 0) (days_left now food)
     ∧ Number.Le (days_left now food) days)
  ∧ (∀ food, food ∈ Views.getExpiredFoods Date_getTime now foods ↔
       food ∈ foods ∧ Number.Lt (days_left now food) (Number.of_Z 0))
  ∧ sublist (Views.getExpiringFoods Date_getTime days now foods) foods
  ∧ sublist (Views.getExpiredFoods Date_getTime now foods) foods
  ∧ (∀ food, ¬ (food ∈ Views.getExpiringFoods Date_getTime days now foods
                ∧ food ∈ Views.getExpiredFoods Date_getTime now foods)).
Proof.
  assert (Hsoon : ∀ food,
    food ∈ Views.getExpiringFoods Date_getTime days now foods ↔
     food ∈ foods
     ∧ Number.Le (Number.of_Z 0) (days_left now food)
     ∧ Number.Le (days_left now food) days).
  { intros food. unfold Views.getExpiringFoods, Number.ge.
    rewrite filter_elem_of, andb_true_iff, !Number_le_spec. tauto. }
  assert (Hgone : ∀ food,
    food ∈ Views.getExpiredFoods Date_getTime now foods ↔
     food ∈ foods ∧ Number.Lt (days_left now food) (Number.of_Z 0)).
  { intros food. unfold Views.getExpiredFoods.
    by rewrite filter_elem_of, Number_lt_spec. }
  split; [exact Hsoon |]. split; [exact Hgone |].
  split; [apply filter_sublist |]. split; [apply filter_sublist |].
  intros food [Hs Hg]. apply Hsoon in Hs as (_ & Hle & _).
  apply Hgone in Hg as [_ Hlt]. by apply (Number_Lt_not_Le _ _ Hlt).
Qed.

End ExpiryViews.

Example scenario_buckets :
  Views.getExpiringFoods IsoDate.getTime Views.defaultDays Sample.noon
    [Sample.milk; Sample.wholeMilk; Sample.eggs] = [Sample.wholeMilk]
  ∧ Views.getExpiredFoods IsoDate.getTime Sample.noon
      [Sample.milk; Sample.wholeMilk; Sample.eggs] = [Sample.milk].
Proof. split; reflexivity. Qed.

(** ** Days until expiry *)

Lemma inject_Z_minus (a b : Z) :
  inject_Z (a - b) = (inject_Z a - inject_Z b)%Q.
Proof. unfold Qminus. by rewrite <- inject_Z_opp, <- inject_Z_plus. Qed.

Lemma Qceiling_unique (x : Q) (z : Z) :
  (inject_Z z - 1 < x)%Q → (x <= inject_Z z)%Q → Qceiling x = z.
Proof.
  intros Hlo Hhi.
  assert (H1 : (Qceiling x <= z)%Z).
  { rewrite <- (Qceiling_Z z). by apply Qceiling_resp_le. }
  assert (H2 : (z - 1 < Qceiling x)%Z).
  { rewrite Zlt_Qlt. rewrite inject_Z_minus.
    eapply Qlt_le_trans; [exact Hlo | apply Qle_ceiling]. }
  lia.
Qed.

Lemma Qceiling_bounds (x : Q) :
  (inject_Z (Qceiling x) - 1 < x)%Q ∧ (x <= inject_Z (Qceiling x))%Q.
Proof.
  split; [| apply Qle_ceiling].
  pose proof (Qceiling_lt x) as H. by rewrite inject_Z_minus in H.
Qed.

Lemma msPerDay_nonzero : Qeq_bool (inject_Z Views.msPerDay) 0 = false.
Proof. reflexivity. Qed.

Lemma days_of_valid_date (Date_getTime : string → number)
  (now : Z) (expiryDate : string) (expiry : Q) :
  Date_getTime expiryDate = Num expiry →
  Views.getDaysUntilExpiry Date_getTime now expiryDate
  = Number.of_Z (Qceiling ((expiry - inject_Z now) / inject_Z Views.msPerDay)).
Proof.
  intros H. unfold Views.getDaysUntilExpiry. rewrite H.
  unfold Number.of_Z at 1 2. cbn [Number.sub Number.div].
  by rewrite msPerDay_nonzero.
Qed.

(** C8. For an expiry date the runtime reads as the instant [expiry], the
    days until expiry are the ceiling of [(expiry - now)] counted in days:
    the one integer [d] with [d - 1 < (expiry - now) / msPerDay <= d].  One
    day later the result is [d - 1], strictly less. *)
Theorem daysUntilExpiry_ceiling (Date_getTime : string → number)
  (now : Z) (expiryDate : string) (expiry : Q) :
  Date_getTime expiryDate = Num expiry →
  ∃ d : Z,
    Views.getDaysUntilExpiry Date_getTime now expiryDate = Number.of_Z d
    ∧ (inject_Z d - 1 < (expiry - inject_Z now) / inject_Z Views.msPerDay)%Q
    ∧ ((expiry - inject_Z now) / inject_Z Views.msPerDay <= inject_Z d)%Q
    ∧ Views.getDaysUntilExpiry Date_getTime (now + Views.msPerDay) expiryDate
      = Number.of_Z (d - 1)
    ∧ Number.Lt
        (Views.getDaysUntilExpiry Date_getTime (now + Views.msPerDay) expiryDate)
        (Views.getDaysUntilExpiry Date_getTime now expiryDate).
Proof.
  intros Hdate.
  set (x := ((expiry - inject_Z now) / inject_Z Views.msPerDay)%Q).
  exists (Qceiling x).
  destruct (Qceiling_bounds x) as [Hlo Hhi].
  assert (Hnow : Views.getDaysUntilExpiry Date_getTime now expiryDate
                 = Number.of_Z (Qceiling x)).
  { by apply days_of_valid_date. }
  assert (Hnext :
    Views.getDaysUntilExpiry Date_getTime (now + Views.msPerDay) expiryDate
    = Number.of_Z (Qceiling x - 1)).
  { rewrite (days_of_valid_date _ _ _ _ Hdate). f_equal.
    apply Qceiling_unique.
    - rewrite inject_Z_minus, inject_Z_plus.
      assert (Heq : ((expiry - (inject_Z now + inject_Z Views.msPerDay))
                     / inject_Z Views.msPerDay == x - 1)%Q).
      { unfold x. field. discriminate. }
      rewrite Heq. change (inject_Z 1) with 1%Q. lra.
    - rewrite inject_Z_minus, inject_Z_plus.
      assert (Heq : ((expiry - (inject_Z now + inject_Z Views.msPerDay))
                     / inject_Z Views.msPerDay == x - 1)%Q).
      { unfold x. field. discriminate. }
      rewrite Heq. change (inject_Z 1) with 1%Q. lra. }
  repeat split; try done.
  rewrite Hnow, Hnext. unfold Number.of_Z.
  eexists _, _. repeat split. rewrite <- Zlt_Qlt. lia.
Qed.

Lemma daysUntilExpiry_ceiling_witness :
  ∃ d : Z,
    Views.getDaysUntilExpiry IsoDate.getTime Sample.noon "2024-03-12" = Number.of_Z d
    ∧ (inject_Z d - 1
       < (inject_Z 1710201600000 - inject_Z Sample.noon) / inject_Z Views.msPerDay)%Q
    ∧ ((inject_Z 1710201600000 - inject_Z Sample.noon) / inject_Z Views.msPerDay
       <= inject_Z d)%Q
    ∧ Views.getDaysUntilExpiry IsoDate.getTime (Sample.noon + Views.msPerDay)
        "2024-03-12" = Number.of_Z (d - 1)
    ∧ Number.Lt
        (Views.getDaysUntilExpiry IsoDate.getTime (Sample.noon + Views.msPerDay)
           "2024-03-12")
        (Views.getDaysUntilExpiry IsoDate.getTime Sample.noon "2024-03-12").
Proof.
  apply (daysUntilExpiry_ceiling IsoDate.getTime Sample.noon "2024-03-12"
           (inject_Z 1710201600000)).
  reflexivity.
Defined.

(** An unreadable date gives NaN, which lies in neither bucket. *)
Lemma days_of_invalid_date (Date_getTime : string → number)
  (now : Z) (expiryDate : string) :
  Date_getTime expiryDate = NaN →
  Views.getDaysUntilExpiry Date_getTime now expiryDate = NaN.
Proof. intros H. unfold Views.getDaysUntilExpiry. by rewrite H. Qed.

(** ** Collections addressed by identity *)

Section ById.

Context {A : Type} (id_of : A → number).

Lemma only_match_head (id : number) (a : A) (l : list A) :
  only_match id_of id 0 (a :: l) →
  Number.strict_eq (id_of a) id = true ∧ absent id_of id l.
Proof.
  intros [(a' & [= <-] & Ha) Honly]. split; [done |].
  intros b Hb. apply list_elem_of_lookup in Hb as [j Hj].
  destruct (Number.strict_eq (id_of b) id) eqn:Hb; [| done].
  by specialize (Honly (S j) b Hj Hb).
Qed.

Lemma only_match_tail (id : number) (i : nat) (a : A) (l : list A) :
  only_match id_of id (S i) (a :: l) →
  Number.strict_eq (id_of a) id = false ∧ only_match id_of id i l.
Proof.
  intros [(b & Hb & Hbid) Honly]. split.
  - destruct (Number.strict_eq (id_of a) id) eqn:Ha; [| done].
    by specialize (Honly 0%nat a eq_refl Ha).
  - split; [by exists b |].
    intros j c Hj Hc. specialize (Honly (S j) c Hj Hc). by injection Honly.
Qed.

Lemma map_absent (id : number) (u : A) (l : list A) :
  absent id_of id l →
  List.map (λ x, if Number.strict_eq (id_of x) id then u else x) l = l.
Proof.
  induction l as [|a l IH]; intros Habs; simpl; [done |].
  rewrite (Habs a) by constructor. f_equal. apply IH.
  intros b Hb. apply Habs. by constructor.
Qed.

Lemma map_only_match (id : number) (u : A) (i : nat) (l : list A) :
  only_match id_of id i l →
  List.map (λ x, if Number.strict_eq (id_of x) id then u else x) l = <[i := u]> l.
Proof.
  revert i. induction l as [|a l IH]; intros i Honly.
  - destruct Honly as [(a & Ha & _) _]. by rewrite lookup_nil in Ha.
  - destruct i as [|i]; simpl.
    + apply only_match_head in Honly as [-> Habs]. f_equal. by apply map_absent.
    + apply only_match_tail in Honly as [-> Honly]. f_equal. by apply IH.
Qed.

Lemma filter_absent (id : number) (l : list A) :
  absent id_of id l →
  List.filter (λ x, Number.strict_ne (id_of x) id) l = l.
Proof.
  intros Habs. apply filter_all_true. intros a Ha.
  unfold Number.strict_ne. by rewrite (Habs a Ha).
Qed.

Lemma filter_only_match (id : number) (i : nat) (l : list A) :
  only_match id_of id i l →
  List.filter (λ x, Number.strict_ne (id_of x) id) l = delete i l.
Proof.
  revert i. induction l as [|a l IH]; intros i Honly.
  - destruct Honly as [(a & Ha & _) _]. by rewrite lookup_nil in Ha.
  - destruct i as [|i]; simpl; unfold Number.strict_ne at 1.
    + apply only_match_head in Honly as [-> Habs]. simpl. by apply filter_absent.
    + apply only_match_tail in Honly as [-> Honly]. simpl. f_equal. by apply IH.
Qed.

Lemma unique_ids_snoc (l : list A) (new : A) :
  unique_ids id_of l → absent id_of (id_of new) l → unique_ids id_of (l ++ [new]).
Proof.
  intros Huniq Habs i j a b Ha Hb Hab.
  assert (Hold : ∀ k c, (l ++ [new]) !! k = Some c →
            (k < length l)%nat ∧ l !! k = Some c
            ∨ k = length l ∧ c = new).
  { intros k c Hk. destruct (decide (k < length l)%nat) as [Hlt | Hge].
    - left. split; [done |]. by rewrite lookup_app_l in Hk.
    - right. rewrite lookup_app_r in Hk by lia.
      destruct (k - length l)%nat as [|n] eqn:Hn; simpl in Hk; [| done].
      split; [lia | congruence]. }
  apply Hold in Ha as [[_ Ha] | [-> ->]]; apply Hold in Hb as [[_ Hb] | [-> ->]].
  - by apply (Huniq i j a b).
  - apply list_elem_of_lookup_2 in Ha. by rewrite (Habs a Ha) in Hab.
  - apply list_elem_of_lookup_2 in Hb.
    rewrite Number_strict_eq_sym in Hab. by rewrite (Habs b Hb) in Hab.
  - done.
Qed.

End ById.

(** ** Updating a record *)

Lemma updateFood_only_match
  (st : State) (i : nat) (editing : Food) (foodData : FoodData) :
  editingFood st = Some editing →
  only_match food_id (food_id editing) i (foods st) →
  Lifecycle.updateFood foodData st
  = Done {| foods := <[i := Lifecycle.updatedFood editing foodData]> (foods st);
            recipes := recipes st;
            showAddFood := showAddFood st;
            showAddRecipe := showAddRecipe st;
            editingFood := None;
            editingRecipe := editingRecipe st |}.
Proof.
  intros Hed Honly. unfold Lifecycle.updateFood, Lifecycle.replaceFood.
  rewrite Hed. do 2 f_equal.
  by apply (map_only_match food_id (food_id editing)).
Qed.

Lemma updateRecipe_only_match
  (st : State) (i : nat) (editing : Recipe) (recipeData : RecipeData) :
  editingRecipe st = Some editing →
  only_match recipe_id (recipe_id editing) i (recipes st) →
  Lifecycle.updateRecipe recipeData st
  = Done {| foods := foods st;
            recipes := <[i := Lifecycle.updatedRecipe editing recipeData]> (recipes st);
            showAddFood := showAddFood st;
            showAddRecipe := showAddRecipe st;
            editingFood := editingFood st;
            editingRecipe := None |}.
Proof.
  intros Hed Honly. unfold Lifecycle.updateRecipe, Lifecycle.replaceRecipe.
  rewrite Hed. do 2 f_equal.
  by apply (map_only_match recipe_id (recipe_id editing)).
Qed.

(** C4. When the record being edited sits at position [i] of its collection
    and is the only one carrying its identity, [updateFood] (and likewise
    [updateRecipe]) completes, and the new collection is the old one with
    position [i] overwritten: the record there has the input's values in every
    mutable field and the identity and creation timestamp it had before; the
    length, every other position and the other collection are as they
    were. *)
Theorem update_in_place :
  (∀ (st : State) (i : nat) (editing : Food) (foodData : FoodData),
     editingFood st = Some editing →
     foods st !! i = Some editing →
     only_match food_id (food_id editing) i (foods st) →
     ∃ st' updated,
       Lifecycle.updateFood foodData st = Done st'
       ∧ foods st' = <[i := updated]> (foods st)
       ∧ foods st' !! i = Some updated
       ∧ food_id updated = food_id editing
       ∧ food_dateAdded updated = food_dateAdded editing
       ∧ (food_name updated, food_category updated, food_quantity updated,
          food_unit updated, food_expiryDate updated, food_notes updated)
         = (fd_name foodData, fd_category foodData, fd_quantity foodData,
            fd_unit foodData, fd_expiryDate foodData, fd_notes foodData)
       ∧ length (foods st') = length (foods st)
       ∧ (∀ j, j ≠ i → foods st' !! j = foods st !! j)
       ∧ recipes st' = recipes st)
  ∧
  (∀ (st : State) (i : nat) (editing : Recipe) (recipeData : RecipeData),
     editingRecipe st = Some editing →
     recipes st !! i = Some editing →
     only_match recipe_id (recipe_id editing) i (recipes st) →
     ∃ st' updated,
       Lifecycle.updateRecipe recipeData st = Done st'
       ∧ recipes st' = <[i := updated]> (recipes st)
       ∧ recipes st' !! i = Some updated
       ∧ recipe_id updated = recipe_id editing
       ∧ recipe_dateCreated updated = recipe_dateCreated editing
       ∧ (recipe_name updated, recipe_description updated,
          recipe_instructions updated, recipe_cookingTime updated,
          recipe_servings updated, recipe_ingredients updated)
         = (rd_name recipeData, rd_description recipeData,
            rd_instructions recipeData, rd_cookingTime recipeData,
            rd_servings recipeData, rd_ingredients recipeData)
       ∧ length (recipes st') = length (recipes st)
       ∧ (∀ j, j ≠ i → recipes st' !! j = recipes st !! j)
       ∧ foods st' = foods st).
Proof.
  split.
  - intros st i editing foodData Hed Hi Honly.
    eexists _, (Lifecycle.updatedFood editing foodData).
    split; [by apply (updateFood_only_match st i) |]. cbn [foods recipes].
    repeat split.
    + apply list_lookup_insert_eq. by apply lookup_lt_Some in Hi.
    + apply length_insert.
    + intros j Hj. by apply list_lookup_insert_ne.
  - intros st i editing recipeData Hed Hi Honly.
    eexists _, (Lifecycle.updatedRecipe editing recipeData).
    split; [by apply (updateRecipe_only_match st i) |]. cbn [foods recipes].
    repeat split.
    + apply list_lookup_insert_eq. by apply lookup_lt_Some in Hi.
    + apply length_insert.
    + intros j Hj. by apply list_lookup_insert_ne.
Qed.

Lemma sample_only_match :
  only_match food_id (food_id Sample.wholeMilk) 1
    [Sample.milk; Sample.wholeMilk; Sample.eggs].
Proof.
  split; [by exists Sample.wholeMilk |].
  intros [|[|[|j]]] b Hj Hb; simpl in Hj; try done.
  - injection Hj as <-. discriminate Hb.
  - injection Hj as <-. discriminate Hb.
Qed.

Lemma sample_recipe_only_match :
  only_match recipe_id (recipe_id Sample.water) 1 [Sample.pancakes; Sample.water].
Proof.
  split; [by exists Sample.water |].
  intros [|[|j]] b Hj Hb; simpl in Hj; try done.
  injection Hj as <-. discriminate Hb.
Qed.

Lemma update_in_place_witness :
  (∃ st',
     Lifecycle.updateFood (Sample.milkData (Num 3)) Sample.editingWholeMilk = Done st'
     ∧ foods st' =
         [Sample.milk;
          {| food_id := food_id Sample.wholeMilk; food_name := " Milk ";
             food_category := "lácteos"; food_quantity := Num 3; food_unit := "l";
             food_expiryDate := "2024-03-15"; food_notes := "";
             food_dateAdded := food_dateAdded Sample.wholeMilk;
             food_keys := Sample.formKeys ++ ["id"; "dateAdded"] |};
          Sample.eggs])
  ∧ (∃ st',
       Lifecycle.updateRecipe Sample.waterData Sample.editingWholeMilk = Done st'
       ∧ recipes st' !! 0%nat = Some Sample.pancakes
       ∧ (recipe_id <$> recipes st' !! 1%nat) = Some (recipe_id Sample.water)).
Proof.
  split.
  - destruct (proj1 update_in_place Sample.editingWholeMilk 1%nat Sample.wholeMilk
                (Sample.milkData (Num 3)) eq_refl eq_refl sample_only_match)
      as (st' & updated & Hrun & Hfoods & _).
    exists st'. split; [exact Hrun |].
    injection Hrun as <-. reflexivity.
  - destruct (proj2 update_in_place Sample.editingWholeMilk 1%nat Sample.water
                Sample.waterData eq_refl eq_refl sample_recipe_only_match)
      as (st' & updated & Hrun & _ & Hat & Hid & _ & _ & _ & Hother & _).
    exists st'. split; [exact Hrun |]. split.
    + by rewrite (Hother 0%nat).
    + rewrite Hat. simpl. by rewrite Hid.
Defined.

(** C5 as stated fails: with no record carrying the edited identity,
    [updateFood] still completes and reports nothing. *)
Lemma update_absent_reports_nothing :
  absent food_id (food_id Sample.wholeMilk) (foods Sample.editingMissing)
  ∧ absent recipe_id (recipe_id Sample.water) (recipes Sample.editingMissing)
  ∧ ¬ (∃ e, Lifecycle.updateFood (Sample.milkData (Num 3)) Sample.editingMissing
            = Threw e)
  ∧ ¬ (∃ e, Lifecycle.updateRecipe Sample.waterData Sample.editingMissing
            = Threw e).
Proof.
  repeat split.
  - intros a Ha. apply list_elem_of_In in Ha. simpl in Ha.
    destruct Ha as [<- | [<- | []]]; reflexivity.
  - intros a Ha. apply list_elem_of_In in Ha. simpl in Ha.
    destruct Ha as [<- | []]; reflexivity.
  - intros [e He]. discriminate He.
  - intros [e He]. discriminate He.
Qed.

(** C5, amended. When no record of the collection carries the identity of the
    record being edited, [updateFood] (and likewise [updateRecipe]) completes
    without reporting anything: both collections are as they were and the
    edit form is closed. *)
Theorem update_absent_silent :
  (∀ (st : State) (editing : Food) (foodData : FoodData),
     editingFood st = Some editing →
     absent food_id (food_id editing) (foods st) →
     Lifecycle.updateFood foodData st
     = Done {| foods := foods st; recipes := recipes st;
               showAddFood := showAddFood st; showAddRecipe := showAddRecipe st;
               editingFood := None; editingRecipe := editingRecipe st |})
  ∧
  (∀ (st : State) (editing : Recipe) (recipeData : RecipeData),
     editingRecipe st = Some editing →
     absent recipe_id (recipe_id editing) (recipes st) →
     Lifecycle.updateRecipe recipeData st
     = Done {| foods := foods st; recipes := recipes st;
               showAddFood := showAddFood st; showAddRecipe := showAddRecipe st;
               editingFood := editingFood st; editingRecipe := None |}).
Proof.
  split.
  - intros st editing foodData Hed Habs.
    unfold Lifecycle.updateFood, Lifecycle.replaceFood. rewrite Hed.
    do 2 f_equal. by apply (map_absent food_id (food_id editing)).
  - intros st editing recipeData Hed Habs.
    unfold Lifecycle.updateRecipe, Lifecycle.replaceRecipe. rewrite Hed.
    do 2 f_equal. by apply (map_absent recipe_id (recipe_id editing)).
Qed.

Lemma sample_absent :
  absent food_id (food_id Sample.wholeMilk) [Sample.milk; Sample.eggs].
Proof.
  intros a Ha. apply list_elem_of_In in Ha. simpl in Ha.
  destruct Ha as [<- | [<- | []]]; reflexivity.
Qed.

Lemma sample_recipe_absent :
  absent recipe_id (recipe_id Sample.water) [Sample.pancakes].
Proof.
  intros a Ha. apply list_elem_of_In in Ha. simpl in Ha.
  destruct Ha as [<- | []]; reflexivity.
Qed.

Lemma update_absent_silent_witness :
  Lifecycle.updateFood (Sample.milkData (Num 3)) Sample.editingMissing
  = Done {| foods := [Sample.milk; Sample.eggs]; recipes := [Sample.pancakes];
            showAddFood := false; showAddRecipe := false;
            editingFood := None; editingRecipe := Some Sample.water |}
  ∧ Lifecycle.updateRecipe Sample.waterData Sample.editingMissing
    = Done {| foods := [Sample.milk; Sample.eggs]; recipes := [Sample.pancakes];
              showAddFood := false; showAddRecipe := false;
              editingFood := Some Sample.wholeMilk; editingRecipe := None |}.
Proof.
  split.
  - apply (proj1 update_absent_silent Sample.editingMissing Sample.wholeMilk
             (Sample.milkData (Num 3)) eq_refl sample_absent).
  - apply (proj2 update_absent_silent Sample.editingMissing Sample.water
             Sample.waterData eq_refl sample_recipe_absent).
Defined.

(** ** Deleting a record *)

(** C6. [deleteFood] (and likewise [deleteRecipe]) always completes.  When
    position [i] holds the one record carrying identity [id], the new
    collection is the old one with position [i] taken out; in every case the
    records that remain keep their relative order and the other collection is
    untouched; and when no record carries [id] the state, hence the length
    and content of the collection, is exactly as before. *)
Theorem delete_by_identity :
  (∀ (st : State) (id : number) (i : nat),
     only_match food_id id i (foods st) →
     foods (Lifecycle.deleteFood id st) = delete i (foods st))
  ∧ (∀ (st : State) (id : number),
       sublist (foods (Lifecycle.deleteFood id st)) (foods st)
       ∧ recipes (Lifecycle.deleteFood id st) = recipes st)
  ∧ (∀ (st : State) (id : number),
       absent food_id id (foods st) → Lifecycle.deleteFood id st = st)
  ∧ (∀ (st : State) (id : number) (i : nat),
       only_match recipe_id id i (recipes st) →
       recipes (Lifecycle.deleteRecipe id st) = delete i (recipes st))
  ∧ (∀ (st : State) (id : number),
       sublist (recipes (Lifecycle.deleteRecipe id st)) (recipes st)
       ∧ foods (Lifecycle.deleteRecipe id st) = foods st)
  ∧ (∀ (st : State) (id : number),
       absent recipe_id id (recipes st) → Lifecycle.deleteRecipe id st = st).
Proof.
  split; [| split; [| split; [| split; [| split]]]].
  - intros st id i Honly. by apply filter_only_match.
  - intros st id. split; [apply filter_sublist | done].
  - intros st id Habs. destruct st.
    unfold Lifecycle.deleteFood, Lifecycle.removeFood.
    cbn [foods] in *. f_equal. by apply filter_absent.
  - intros st id i Honly. by apply filter_only_match.
  - intros st id. split; [apply filter_sublist | done].
  - intros st id Habs. destruct st.
    unfold Lifecycle.deleteRecipe, Lifecycle.removeRecipe.
    cbn [recipes] in *. f_equal. by apply filter_absent.
Qed.

Lemma delete_by_identity_witness :
  foods (Lifecycle.deleteFood (food_id Sample.wholeMilk) Sample.editingWholeMilk)
  = [Sample.milk; Sample.eggs]
  ∧ Lifecycle.deleteFood (food_id Sample.wholeMilk) Sample.editingMissing
    = Sample.editingMissing
  ∧ recipes (Lifecycle.deleteRecipe (recipe_id Sample.water) Sample.editingWholeMilk)
    = [Sample.pancakes]
  ∧ Lifecycle.deleteRecipe (recipe_id Sample.water) Sample.editingMissing
    = Sample.editingMissing.
Proof.
  destruct delete_by_identity as (Hf & _ & Hfa & Hr & _ & Hra).
  split; [| split; [| split]].
  - apply (Hf Sample.editingWholeMilk (food_id Sample.wholeMilk) 1%nat).
    exact sample_only_match.
  - apply (Hfa Sample.editingMissing (food_id Sample.wholeMilk)).
    exact sample_absent.
  - apply (Hr Sample.editingWholeMilk (recipe_id Sample.water) 1%nat).
    exact sample_recipe_only_match.
  - apply (Hra Sample.editingMissing (recipe_id Sample.water)).
    exact sample_recipe_absent.
Defined.

(** With the same identity at two positions, both records go. *)
Example delete_duplicates :
  Lifecycle.removeFood (food_id Sample.milk) [Sample.milk; Sample.eggs; Sample.milk]
  = [Sample.eggs].
Proof. reflexivity. Qed.

(** ** Creating a record *)

Example to_double_samples :
  Qeq_bool (Number.to_double 1700000000300.5) 1700000000300.5 = true
  ∧ Qeq_bool (Number.to_double 1700000000300.50000095367431640625)
      1700000000300.5 = true
  ∧ Qeq_bool (Number.to_double 1700000000300.4998)
      1700000000300.499755859375 = true
  ∧ Qeq_bool (Number.to_double (1 # 3))
      (6004799503160661 # 18014398509481984) = true
  ∧ Qeq_bool (Number.to_double 9007199254740993) 9007199254740992 = true
  ∧ Qeq_bool (Number.to_double (-0.1))
      (- (3602879701896397 # 36028797018963968)) = true.
Proof. split_and!; vm_compute; reflexivity. Qed.

(** C7 at two calls within one millisecond.  The new identity is the clock
    reading, for a food plus a random fraction rounded with it to a binary64
    value; the collection is not looked at.  A food added in the millisecond
    of another one, with the random fractions 0.5 and 0.5 + 2^-20, gets the
    identity of the first, and so does a recipe added in the millisecond of
    another one: identities that were unique are not any more. *)
Theorem new_identity_collides :
  unique_ids food_id
    (foods (Lifecycle.addFood Sample.env (Sample.milkData (Num 1))
              (Sample.state [Sample.milk] [])))
  ∧ Number.strict_eq
      (food_id (Lifecycle.newFood Sample.env (Sample.milkData (Num 1))))
      (food_id (Lifecycle.newFood Sample.sameMillisecond (Sample.milkData (Num 2))))
    = true
  ∧ ¬ unique_ids food_id
        (foods (Lifecycle.addFood Sample.sameMillisecond (Sample.milkData (Num 2))
                  (Lifecycle.addFood Sample.env (Sample.milkData (Num 1))
                     (Sample.state [Sample.milk] []))))
  ∧ unique_ids recipe_id
      (recipes (Lifecycle.addRecipe Sample.env Sample.waterData
                  (Sample.state [] [Sample.pancakes])))
  ∧ ¬ unique_ids recipe_id
        (recipes (Lifecycle.addRecipe Sample.sameMillisecond Sample.waterData
                    (Lifecycle.addRecipe Sample.env Sample.waterData
                       (Sample.state [] [Sample.pancakes])))).
Proof.
  split_and!.
  - intros [|[|i]] [|[|j]] a b Ha Hb Hab; cbn in Ha, Hb; try done.
    + injection Ha as <-. injection Hb as <-. vm_compute in Hab. discriminate Hab.
    + injection Ha as <-. injection Hb as <-. vm_compute in Hab. discriminate Hab.
  - vm_compute. reflexivity.
  - intros Huniq.
    assert (H : 1%nat = 2%nat); [| discriminate H].
    apply (Huniq 1%nat 2%nat _ _ eq_refl eq_refl). vm_compute. reflexivity.
  - intros [|[|i]] [|[|j]] a b Ha Hb Hab; cbn in Ha, Hb; try done.
    + injection Ha as <-. injection Hb as <-. vm_compute in Hab. discriminate Hab.
    + injection Ha as <-. injection Hb as <-. vm_compute in Hab. discriminate Hab.
  - intros Huniq.
    assert (H : 1%nat = 2%nat); [| discriminate H].
    apply (Huniq 1%nat 2%nat _ _ eq_refl eq_refl). vm_compute. reflexivity.
Qed.

Lemma strict_eq_self (q : Q) : Number.strict_eq (Num q) (Num q) = true.
Proof. apply Qeq_bool_refl. Qed.

(** A record just created and then edited keeps the identity and the
    creation timestamp it was given. *)
Lemma create_then_update (env : Env) (created edited : FoodData) (st : State) :
  absent food_id (food_id (Lifecycle.newFood env created)) (foods st) →
  let st1 := Lifecycle.addFood env created st in
  let editing := Lifecycle.newFood env created in
  ∃ st2 updated,
    Lifecycle.updateFood edited
      {| foods := foods st1; recipes := recipes st1;
         showAddFood := showAddFood st1; showAddRecipe := showAddRecipe st1;
         editingFood := Some editing; editingRecipe := editingRecipe st1 |}
    = Done st2
    ∧ foods st2 = foods st ++ [updated]
    ∧ food_id updated = food_id editing
    ∧ food_dateAdded updated = food_dateAdded editing
    ∧ food_name updated = fd_name edited
    ∧ food_quantity updated = fd_quantity edited.
Proof.
  intros Habs st1 editing. subst st1 editing.
  eexists _, (Lifecycle.updatedFood (Lifecycle.newFood env created) edited). split.
  - apply (updateFood_only_match _ (length (foods st))
             (Lifecycle.newFood env created)); [done |].
    cbn [foods Lifecycle.addFood]. split.
    + exists (Lifecycle.newFood env created). split; [by apply list_lookup_middle |].
      apply strict_eq_self.
    + intros j b Hj Hb.
      destruct (decide (j < length (foods st))%nat) as [Hlt | Hge].
      * rewrite lookup_app_l in Hj by done.
        apply list_elem_of_lookup_2 in Hj. by rewrite (Habs b Hj) in Hb.
      * apply lookup_lt_Some in Hj. rewrite length_app in Hj. simpl in Hj. lia.
  - cbn [foods Lifecycle.addFood]. split_and!; try done.
    replace (length (foods st)) with (length (foods st) + 0)%nat by lia.
    by rewrite insert_app_r.
Qed.

(** ** The food form *)

(** A quantity that is NaN or zero is replaced by 1. *)
Lemma falsy_quantity_defaulted (formData : FoodData) :
  Number.truthy (fd_quantity formData) = false →
  fd_quantity (FoodForm.processedData formData) = Number.of_Z 1.
Proof.
  intros H. unfold FoodForm.processedData, FoodForm.Number_, Number.or_else.
  cbn [fd_quantity]. by rewrite H.
Qed.

(** Any other quantity is submitted as entered. *)
Lemma truthy_quantity_kept (formData : FoodData) :
  Number.truthy (fd_quantity formData) = true →
  fd_quantity (FoodForm.processedData formData) = fd_quantity formData.
Proof.
  intros H. unfold FoodForm.processedData, FoodForm.Number_, Number.or_else.
  cbn [fd_quantity]. by rewrite H.
Qed.

Example quantity_NaN_defaulted :
  FoodForm.handleAddClick (Sample.milkData NaN)
  = FoodForm.Submitted
      {| fd_name := "Milk"; fd_category := "lácteos"; fd_quantity := Num 1;
         fd_unit := "l"; fd_expiryDate := "2024-03-15"; fd_notes := "";
         fd_keys := Sample.formKeys |}.
Proof. reflexivity. Qed.

Example quantity_zero_defaulted :
  FoodForm.handleAddClick (Sample.milkData (Num 0))
  = FoodForm.handleAddClick (Sample.milkData NaN).
Proof. reflexivity. Qed.

(** C3 at a negative quantity.  Both submit handlers of the food form pass
    the quantity -5 through unchanged, for a new record and for an edit, so
    the collection receives a record whose quantity is not positive. *)
Theorem negative_quantity_submitted :
  FoodForm.handleAddClick (Sample.milkData (Num (-5)))
  = FoodForm.Submitted
      {| fd_name := "Milk"; fd_category := "lácteos"; fd_quantity := Num (-5);
         fd_unit := "l"; fd_expiryDate := "2024-03-15"; fd_notes := "";
         fd_keys := Sample.formKeys |}
  ∧ FoodForm.handleSubmit (Sample.milkData (Num (-5)))
    = FoodForm.handleAddClick (Sample.milkData (Num (-5)))
  ∧ food_quantity
      <$> foods (FoodForm.submitNew Sample.env (Sample.milkData (Num (-5)))
                   (Sample.state [] []))
    = [Num (-5)]
  ∧ (∃ st', FoodForm.submitEdit (Sample.milkData (Num (-5))) Sample.editingWholeMilk
            = Done st'
            ∧ food_quantity <$> foods st' = [Num 0.5; Num (-5); Num 6])
  ∧ Number.lt (Number.of_Z 0) (Num (-5)) = false.
Proof.
  split; [reflexivity |]. split; [reflexivity |]. split; [reflexivity |].
  split; [| reflexivity].
  eexists. split; reflexivity.
Qed.

(** ** Debounced write-back *)

Section WriteBack.

Variable JSON_stringify : list any → string.

Local Abbreviation hash_of := (Sync.createDataHash JSON_stringify).
Local Abbreviation ready := Coherence.ready.
Local Abbreviation refs_sound := Coherence.refs_sound.
Local Abbreviation at_most_one_pending := Coherence.at_most_one_pending.
Local Abbreviation cleared := Coherence.cleared.
Local Abbreviation up_to_date := (Coherence.up_to_date JSON_stringify).
Local Abbreviation coherent_on := (Coherence.coherent_on JSON_stringify).
Local Abbreviation coherent := (Coherence.coherent JSON_stringify).
Local Abbreviation arm := (Coherence.arm JSON_stringify).
Local Abbreviation armed_timeout := (Coherence.armed_timeout JSON_stringify).
Local Abbreviation armed_with := (Coherence.armed_with JSON_stringify).
Local Abbreviation sets type inj mk := (Coherence.sets JSON_stringify type inj mk).
Local Abbreviation burst mk first rest := (Sync.burst mk first rest).
Local Abbreviation final first rest := (Sync.final first rest).

Lemma refs_sound_at_most_one (type : Sync.coll) (e : Sync.Engine) :
  refs_sound e → at_most_one_pending type e.
Proof.
  intros (Hnamed & _ & _) id1 cb1 id2 cb2 H1 <- H2 Heq.
  apply Hnamed in H1, H2. rewrite Heq in H2. congruence.
Qed.

Lemma effect_ready (type : Sync.coll) (e : Sync.Engine) :
  ready e → Sync.effect JSON_stringify type e = arm type e.
Proof.
  intros (Hl & Hf & Hr).
  destruct type; unfold Sync.effect, Sync.foodsEffect, Sync.recipesEffect, arm;
    by rewrite Hl, ?Hf, ?Hr.
Qed.

Lemma arm_fields (type : Sync.coll) (e : Sync.Engine) :
  Sync.clock (arm type e) = Sync.clock e
  ∧ Sync.timeouts (arm type e)
    = <[Sync.nextTimeout e := armed_timeout type e]> (cleared type e)
  ∧ Sync.nextTimeout (arm type e) = Pos.succ (Sync.nextTimeout e)
  ∧ Sync.ref type (arm type e) = Some (Sync.nextTimeout e)
  ∧ (∀ other, other ≠ type → Sync.ref other (arm type e) = Sync.ref other e)
  ∧ (∀ t, Sync.lastSave t (arm type e) = Sync.lastSave t e)
  ∧ Sync.ui (arm type e) = Sync.ui e
  ∧ Sync.saved (arm type e) = Sync.saved e
  ∧ (ready e → ready (arm type e)).
Proof.
  unfold Coherence.arm, Sync.debouncedSave, Coherence.cleared,
    Coherence.armed_timeout, Coherence.ready.
  destruct type, (Sync.ref _ e) eqn:Href; simpl;
    repeat split; try done; try (intros [] Hne; done); tauto.
Qed.

Lemma arm_inflight (type : Sync.coll) (e : Sync.Engine) :
  Sync.inflight (arm type e) = Sync.inflight e.
Proof.
  unfold Coherence.arm, Sync.debouncedSave. by destruct type, (Sync.ref _ e).
Qed.

Lemma cleared_lookup (type : Sync.coll) (e : Sync.Engine)
  (id : positive) (cb : Sync.timeout) :
  refs_sound e →
  cleared type e !! id = Some cb ↔
  Sync.timeouts e !! id = Some cb ∧ Sync.to_type cb ≠ type.
Proof.
  intros (Hnamed & _ & Hdistinct). unfold Coherence.cleared.
  destruct (Sync.ref type e) as [id0 |] eqn:Href.
  - rewrite lookup_delete. case_decide as Hid.
    + subst id0. split; [done |]. intros [Hcb Hne]. exfalso.
      apply Hnamed in Hcb.
      destruct type, (Sync.to_type cb); try done.
      * by apply (Hdistinct id).
      * by apply (Hdistinct id).
    + split; [| by intros [? _]]. intros Hcb. split; [done |].
      intros Htype. apply Hnamed in Hcb. rewrite Htype, Href in Hcb. congruence.
  - split; [| by intros [? _]]. intros Hcb. split; [done |].
    intros Htype. apply Hnamed in Hcb. rewrite Htype, Href in Hcb. done.
Qed.

Lemma arm_lookup (type : Sync.coll) (e : Sync.Engine)
  (id : positive) (cb : Sync.timeout) :
  refs_sound e →
  Sync.timeouts (arm type e) !! id = Some cb ↔
  (id = Sync.nextTimeout e ∧ cb = armed_timeout type e)
  ∨ (id ≠ Sync.nextTimeout e ∧ Sync.timeouts e !! id = Some cb
     ∧ Sync.to_type cb ≠ type).
Proof.
  intros Hsound. destruct (arm_fields type e) as (_ & -> & _).
  rewrite lookup_insert. case_decide as Hid.
  - subst id. split.
    + intros [= <-]. by left.
    + intros [[_ ->] | [Hne _]]; done.
  - rewrite (cleared_lookup _ _ _ _ Hsound). split.
    + intros [Hcb Hty]. right. by repeat split.
    + intros [[-> _] | (_ & Hcb & Hty)]; done.
Qed.

Lemma arm_refs_sound (type : Sync.coll) (e : Sync.Engine) :
  refs_sound e → refs_sound (arm type e).
Proof.
  intros Hsound.
  destruct (arm_fields type e) as (_ & _ & Hnext & Hnew & Hother & _).
  pose proof Hsound as (Hnamed & Hold & Hdistinct).
  assert (Hbound : ∀ t id, Sync.ref t (arm type e) = Some id →
            id = Sync.nextTimeout e ∧ t = type
            ∨ (id < Sync.nextTimeout e)%positive ∧ t ≠ type
              ∧ Sync.ref t e = Some id).
  { intros t id Ht. destruct (decide (t = type)) as [-> | Hne].
    - left. rewrite Hnew in Ht. by injection Ht as <-.
    - right. rewrite (Hother t Hne) in Ht. split; [by apply (Hold t) | done]. }
  split; [| split].
  - intros id cb Hcb. apply (arm_lookup _ _ _ _ Hsound) in Hcb
      as [[-> ->] | (_ & Hcb & Hty)]; [done |].
    rewrite (Hother _ Hty). by apply Hnamed.
  - intros t id Ht. rewrite Hnext.
    apply Hbound in Ht as [[-> _] | [Hlt _]]; lia.
  - intros id Hf Hr.
    apply Hbound in Hf as [[Hid Hty] | (Hlt & Hne & Hf)];
      apply Hbound in Hr as [[Hid' Hty'] | (Hlt' & Hne' & Hr)].
    + congruence.
    + lia.
    + lia.
    + by apply (Hdistinct id).
Qed.

Lemma up_to_date_same (e e' : Sync.Engine) (cb : Sync.timeout) :
  Sync.lastSave (Sync.to_type cb) e' = Sync.lastSave (Sync.to_type cb) e →
  Sync.current (Sync.to_type cb) e' = Sync.current (Sync.to_type cb) e →
  up_to_date e cb → up_to_date e' cb.
Proof. intros Hl Hc (H1 & H2 & H3). unfold Coherence.up_to_date. by rewrite Hl, Hc. Qed.

Lemma current_ui (type : Sync.coll) (e e' : Sync.Engine) :
  Sync.ui e' = Sync.ui e → Sync.current type e' = Sync.current type e.
Proof. intros H. unfold Sync.current. by rewrite H. Qed.

Lemma arm_coherent_on (P Q : Sync.coll → Prop) (type : Sync.coll) (e : Sync.Engine) :
  coherent_on P e →
  (∀ t, t ≠ type → Q t → P t) →
  coherent_on Q (arm type e).
Proof.
  intros (Hready & Hsound & Hfresh) HQP.
  destruct (arm_fields type e) as (_ & _ & _ & _ & _ & Hlast & Hui & _ & Hr).
  split; [by apply Hr |]. split; [by apply arm_refs_sound |].
  intros id cb Hcb HQ.
  apply (arm_lookup _ _ _ _ Hsound) in Hcb as [[-> ->] | (_ & Hcb & Hty)].
  - unfold Coherence.up_to_date, Coherence.armed_timeout; cbn.
    by rewrite Hlast, (current_ui _ _ _ Hui).
  - apply (up_to_date_same e); [apply Hlast | by apply current_ui |].
    apply (Hfresh id cb Hcb). by apply HQP.
Qed.

(** Changes that leave the timeouts, the handles and the guards alone. *)
Lemma coherent_on_frame (P Q : Sync.coll → Prop) (e e' : Sync.Engine) :
  coherent_on P e →
  Sync.timeouts e' = Sync.timeouts e →
  Sync.nextTimeout e' = Sync.nextTimeout e →
  (∀ t, Sync.ref t e' = Sync.ref t e) →
  (Sync.isLoaded e', Sync.foodsFromServerRef e', Sync.recipesFromServerRef e')
  = (Sync.isLoaded e, Sync.foodsFromServerRef e, Sync.recipesFromServerRef e) →
  (∀ t, Q t → P t ∧ Sync.lastSave t e' = Sync.lastSave t e
                 ∧ Sync.current t e' = Sync.current t e) →
  coherent_on Q e'.
Proof.
  intros (Hready & (Hnamed & Hold & Hdistinct) & Hfresh) Ht Hn Href [= Hl Hf Hr] HQ.
  split; [| split; [split; [| split] |]].
  - unfold Coherence.ready. by rewrite Hl, Hf, Hr.
  - intros id cb. rewrite Ht, Href. apply Hnamed.
  - intros t id. rewrite Href, Hn. apply Hold.
  - intros id. rewrite !Href. apply Hdistinct.
  - intros id cb Hcb HQt. rewrite Ht in Hcb.
    destruct (HQ _ HQt) as (HP & Hlast & Hcur).
    apply (up_to_date_same e); [done | done |]. by apply (Hfresh id).
Qed.

Lemma coherent_on_weaken (P Q : Sync.coll → Prop) (e : Sync.Engine) :
  coherent_on P e → (∀ t, Q t → P t) → coherent_on Q e.
Proof.
  intros H HQP. apply (coherent_on_frame P Q e e H); try done.
  intros t HQ. split; [by apply HQP | done].
Qed.

Lemma clearTimeout_coherent_on (P : Sync.coll → Prop) (id : positive)
  (e : Sync.Engine) :
  coherent_on P e → coherent_on P (Sync.clearTimeout id e).
Proof.
  intros (Hready & (Hnamed & Hold & Hdistinct) & Hfresh).
  assert (Hsub : ∀ id' cb, Sync.timeouts (Sync.clearTimeout id e) !! id' = Some cb →
            Sync.timeouts e !! id' = Some cb).
  { intros id' cb. cbn. rewrite lookup_delete. by case_decide. }
  split; [done |]. split; [split; [| split] |].
  - intros id' cb Hcb. apply Hsub in Hcb. by apply Hnamed in Hcb.
  - done.
  - done.
  - intros id' cb Hcb HP. apply Hsub in Hcb.
    by apply (up_to_date_same e), (Hfresh id').
Qed.

Lemma tick_coherent (dt : Z) (e : Sync.Engine) :
  coherent e → coherent (Sync.tick dt e).
Proof.
  intros H. by apply (coherent_on_frame (λ _, True) (λ _, True) e).
Qed.

Lemma setFoods_arm (l : list Food) (e : Sync.Engine) :
  ready e →
  ∃ e', Sync.setFoods JSON_stringify l e = arm Sync.CFoods e'
    ∧ foods (Sync.ui e') = l ∧ recipes (Sync.ui e') = recipes (Sync.ui e)
    ∧ Sync.timeouts e' = Sync.timeouts e
    ∧ Sync.nextTimeout e' = Sync.nextTimeout e
    ∧ (∀ t, Sync.ref t e' = Sync.ref t e)
    ∧ (∀ t, Sync.lastSave t e' = Sync.lastSave t e)
    ∧ Sync.clock e' = Sync.clock e ∧ Sync.saved e' = Sync.saved e
    ∧ Sync.inflight e' = Sync.inflight e
    ∧ (coherent e → coherent_on (λ t, t ≠ Sync.CFoods) e').
Proof.
  intros Hready. eexists. split.
  - unfold Sync.setFoods. by apply (effect_ready Sync.CFoods).
  - split_and!; try done; try (by intros []).
    intros Hcoh. apply (coherent_on_frame (λ _, True) _ e); try done; by intros [].
Qed.

Lemma setRecipes_arm (l : list Recipe) (e : Sync.Engine) :
  ready e →
  ∃ e', Sync.setRecipes JSON_stringify l e = arm Sync.CRecipes e'
    ∧ recipes (Sync.ui e') = l ∧ foods (Sync.ui e') = foods (Sync.ui e)
    ∧ Sync.timeouts e' = Sync.timeouts e
    ∧ Sync.nextTimeout e' = Sync.nextTimeout e
    ∧ (∀ t, Sync.ref t e' = Sync.ref t e)
    ∧ (∀ t, Sync.lastSave t e' = Sync.lastSave t e)
    ∧ Sync.clock e' = Sync.clock e ∧ Sync.saved e' = Sync.saved e
    ∧ Sync.inflight e' = Sync.inflight e
    ∧ (coherent e → coherent_on (λ t, t ≠ Sync.CRecipes) e').
Proof.
  intros Hready. eexists. split.
  - unfold Sync.setRecipes. by apply (effect_ready Sync.CRecipes).
  - split_and!; try done; try (by intros []).
    intros Hcoh. apply (coherent_on_frame (λ _, True) _ e); try done; by intros [].
Qed.

Lemma arm_coherent (type : Sync.coll) (e : Sync.Engine) :
  coherent_on (λ t, t ≠ type) e → coherent (arm type e).
Proof. intros H. by apply (arm_coherent_on (λ t, t ≠ type)). Qed.

Lemma fire_not_due (id : positive) (cb : Sync.timeout) (e : Sync.Engine) :
  Sync.timeouts e !! id = Some cb → Sync.clock e < Sync.to_due cb →
  Sync.fire id e = None.
Proof.
  intros Hcb Hlt. unfold Sync.fire. rewrite Hcb.
  destruct (Z.leb_spec (Sync.to_due cb) (Sync.clock e)); [lia | done].
Qed.

Lemma fire_not_pending (id : positive) (e : Sync.Engine) :
  Sync.timeouts e !! id = None → Sync.fire id e = None.
Proof. intros Hcb. unfold Sync.fire. by rewrite Hcb. Qed.

(** What the callback of a due timeout does in a coherent state: it makes
    the call to [save] unless the hash it carries is the last one saved, and
    leaves the other timeouts and the last-saved hashes as they are. *)
Lemma fire_due (id : positive) (cb : Sync.timeout) (e : Sync.Engine) :
  coherent e →
  Sync.timeouts e !! id = Some cb → Sync.to_due cb <= Sync.clock e →
  ∃ e', Sync.fire id e = Some e'
    ∧ coherent e'
    ∧ Sync.saved e'
      = Sync.saved e
        ++ (if String.eqb (Sync.to_hash cb) (Sync.lastSave (Sync.to_type cb) e)
            then [] else [(Sync.to_type cb, Sync.to_data cb)])
    ∧ Sync.inflight e'
      = Sync.inflight e
        ++ (if String.eqb (Sync.to_hash cb) (Sync.lastSave (Sync.to_type cb) e)
            then [] else [(Sync.to_type cb, Sync.to_hash cb)])
    ∧ Sync.timeouts e' = delete id (Sync.timeouts e)
    ∧ (∀ t, Sync.lastSave t e' = Sync.lastSave t e)
    ∧ Sync.ui e' = Sync.ui e
    ∧ Sync.clock e' = Sync.clock e.
Proof.
  intros Hcoh Hcb Hdue. unfold Sync.fire. rewrite Hcb.
  destruct (Z.leb_spec (Sync.to_due cb) (Sync.clock e)); [| lia].
  eexists. split; [done |].
  pose proof (clearTimeout_coherent_on _ id e Hcoh) as Hcoh0.
  destruct Hcoh as (_ & _ & Hfresh).
  destruct (Hfresh id cb Hcb I) as (Hcur & _ & _).
  unfold Sync.runCallback. rewrite Hcur.
  destruct (String.eqb (Sync.to_hash cb) (Sync.lastSave (Sync.to_type cb) e))
    eqn:Heq; cbn [negb].
  - split_and!; try done; cbn; by rewrite app_nil_r.
  - by split_and!.
Qed.

Lemma setLastSave_same (type : Sync.coll) (hash : string) (e : Sync.Engine) :
  hash = Sync.lastSave type e → Sync.setLastSave JSON_stringify type hash e = e.
Proof. intros ->. unfold Sync.setLastSave. by rewrite String.eqb_refl. Qed.

(** A new last-saved hash renders the component again with [debouncedSave]
    rebuilt, so both save effects run: the timeouts pending afterwards are two
    fresh ones, one for each collection, each due a full window later and
    carrying its collection as it is. *)
Lemma setLastSave_changed (type : Sync.coll) (hash : string) (e : Sync.Engine) :
  coherent e → hash ≠ Sync.lastSave type e →
  ∃ e', Sync.setLastSave JSON_stringify type hash e = e'
    ∧ coherent e'
    ∧ Sync.saved e' = Sync.saved e
    ∧ Sync.inflight e' = Sync.inflight e
    ∧ Sync.lastSave type e' = hash
    ∧ (∀ t, t ≠ type → Sync.lastSave t e' = Sync.lastSave t e)
    ∧ Sync.ui e' = Sync.ui e
    ∧ Sync.clock e' = Sync.clock e
    ∧ ∀ k c, Sync.timeouts e' !! k = Some c ↔
        (k = Sync.nextTimeout e
         ∧ c = armed_with Sync.CFoods (Sync.clock e + Sync.debounce)
                 (Sync.current Sync.CFoods e) (Sync.lastFoodsSave e'))
        ∨ (k = Pos.succ (Sync.nextTimeout e)
           ∧ c = armed_with Sync.CRecipes (Sync.clock e + Sync.debounce)
                   (Sync.current Sync.CRecipes e) (Sync.lastRecipesSave e')).
Proof.
  intros Hcoh Hne. eexists. split; [reflexivity |].
  apply String.eqb_neq in Hne. unfold Sync.setLastSave. rewrite Hne.
  set (e2 := Sync.with_lastSave _ _ e).
  assert (Hcoh2 : coherent_on (λ t, t ≠ type) e2).
  { apply (coherent_on_frame (λ _, True) _ e); try done; try by intros [].
    intros t Ht. split; [done |]. split; [| done]. destruct t, type; done. }
  change (Sync.foodsEffect JSON_stringify e2)
    with (Sync.effect JSON_stringify Sync.CFoods e2).
  rewrite (effect_ready Sync.CFoods e2) by apply Hcoh2.
  set (e3 := arm Sync.CFoods e2).
  assert (Hcoh3 : coherent_on (λ t, t = Sync.CFoods ∨ t ≠ type) e3).
  { apply (arm_coherent_on _ _ _ _ Hcoh2). intros t Hnet [-> | Ht]; done. }
  pose proof Hcoh3 as (Hready3 & Hsound3 & _).
  change (Sync.recipesEffect JSON_stringify e3)
    with (Sync.effect JSON_stringify Sync.CRecipes e3).
  rewrite (effect_ready Sync.CRecipes e3 Hready3).
  destruct (arm_fields Sync.CRecipes e3) as (Hc & _ & _ & _ & _ & Hl & Hu & Hs & _).
  destruct (arm_fields Sync.CFoods e2) as (Hc' & _ & Hn' & _ & _ & Hl' & Hu' & Hs' & _).
  fold e3 in Hc', Hn', Hl', Hu', Hs'.
  split_and!.
  - apply (arm_coherent_on _ _ _ _ Hcoh3). intros [] Hnet _; [by left | done].
  - by rewrite Hs, Hs'.
  - rewrite arm_inflight. unfold e3. by rewrite arm_inflight.
  - rewrite Hl, Hl'. by destruct type.
  - intros t Ht. rewrite Hl, Hl'. by destruct t, type.
  - by rewrite Hu, Hu'.
  - by rewrite Hc, Hc'.
  - intros k c.
    rewrite (arm_lookup Sync.CRecipes e3 k c Hsound3).
    pose proof (arm_lookup Sync.CFoods e2 k c (proj1 (proj2 Hcoh2))) as Hfoods.
    fold e3 in Hfoods. rewrite Hfoods, Hn'.
    assert (Hf : armed_timeout Sync.CFoods e2
                 = armed_with Sync.CFoods (Sync.clock e + Sync.debounce)
                     (Sync.current Sync.CFoods e)
                     (Sync.lastFoodsSave (arm Sync.CRecipes e3))).
    { unfold Coherence.armed_timeout, Coherence.armed_with.
      change (Sync.lastFoodsSave ?x) with (Sync.lastSave Sync.CFoods x).
      by rewrite Hl, Hl'. }
    assert (Hr : armed_timeout Sync.CRecipes e3
                 = armed_with Sync.CRecipes (Sync.clock e + Sync.debounce)
                     (Sync.current Sync.CRecipes e)
                     (Sync.lastRecipesSave (arm Sync.CRecipes e3))).
    { unfold Coherence.armed_timeout, Coherence.armed_with.
      change (Sync.lastRecipesSave ?x) with (Sync.lastSave Sync.CRecipes x).
      rewrite Hl, Hc', (current_ui Sync.CRecipes e2 e3 Hu'). done. }
    rewrite Hf, Hr. change (Sync.nextTimeout e2) with (Sync.nextTimeout e).
    split.
    + intros [[-> ->] | (_ & [[-> ->] | (_ & _ & Hty)] & Hty')].
      * by right.
      * by left.
      * by destruct (Sync.to_type c).
    + intros [[-> ->] | [-> ->]].
      * right. split; [lia |]. split; [by left | done].
      * by left.
Qed.

Lemma setLastSave_coherent (type : Sync.coll) (hash : string) (e : Sync.Engine) :
  coherent e → coherent (Sync.setLastSave JSON_stringify type hash e).
Proof.
  intros Hcoh. destruct (decide (hash = Sync.lastSave type e)) as [Heq | Hne].
  - by rewrite setLastSave_same.
  - by destruct (setLastSave_changed type hash e Hcoh Hne) as (e' & -> & H & _).
Qed.

Lemma with_inflight_coherent (l : list (Sync.coll * string)) (e : Sync.Engine) :
  coherent e → coherent (Sync.with_inflight l e).
Proof.
  intros Hcoh.
  apply (coherent_on_frame (λ _, True) _ e); try done; by intros [].
Qed.

Lemma setFoods_coherent (l : list Food) (e : Sync.Engine) :
  coherent e → coherent (Sync.setFoods JSON_stringify l e).
Proof.
  intros Hcoh. destruct (setFoods_arm l e) as (e' & -> & H); [apply Hcoh |].
  apply arm_coherent. by apply H.
Qed.

Lemma setRecipes_coherent (l : list Recipe) (e : Sync.Engine) :
  coherent e → coherent (Sync.setRecipes JSON_stringify l e).
Proof.
  intros Hcoh. destruct (setRecipes_arm l e) as (e' & -> & H); [apply Hcoh |].
  apply arm_coherent. by apply H.
Qed.

(** Every event keeps the engine coherent. *)
Lemma step_coherent (ev : Sync.event) (e e' : Sync.Engine) :
  coherent e → Sync.step JSON_stringify ev e = Some e' → coherent e'.
Proof.
  intros Hcoh Hstep. destruct ev as [l | l | dt | id | k | k]; simpl in Hstep.
  - injection Hstep as <-. by apply setFoods_coherent.
  - injection Hstep as <-. by apply setRecipes_coherent.
  - destruct (0 <=? dt); [| done]. injection Hstep as <-. by apply tick_coherent.
  - destruct (Sync.timeouts e !! id) as [cb |] eqn:Hcb;
      [| by rewrite fire_not_pending in Hstep].
    destruct (Z.le_gt_cases (Sync.to_due cb) (Sync.clock e)) as [Hdue | Hnot].
    + destruct (fire_due id cb e Hcoh Hcb Hdue) as (e'' & Hfire & Hcoh'' & _).
      congruence.
    + rewrite (fire_not_due id cb) in Hstep by (done || lia). done.
  - unfold Sync.answer in Hstep.
    destruct (Sync.inflight e !! k) as [[type hash] |]; [| done].
    injection Hstep as <-. by apply setLastSave_coherent, with_inflight_coherent.
  - unfold Sync.reject in Hstep.
    destruct (Sync.inflight e !! k); [| done].
    injection Hstep as <-. by apply with_inflight_coherent.
Qed.

(** *** Bursts of changes to one collection *)

Lemma SetFoods_sets : sets Sync.CFoods (List.map AFood) Sync.SetFoods.
Proof.
  intros l e Hready.
  destruct (setFoods_arm l e Hready)
    as (e0 & Hset & Hf & _ & Ht & Hn & _ & Hl & Hc & Hs & Hi & Hcoh).
  exists e0. cbn [Sync.step]. rewrite Hset. split_and!; try done.
  unfold Sync.current. by rewrite Hf.
Qed.

Lemma SetRecipes_sets : sets Sync.CRecipes (List.map ARecipe) Sync.SetRecipes.
Proof.
  intros l e Hready.
  destruct (setRecipes_arm l e Hready)
    as (e0 & Hset & Hf & _ & Ht & Hn & _ & Hl & Hc & Hs & Hi & Hcoh).
  exists e0. cbn [Sync.step]. rewrite Hset. split_and!; try done.
  unfold Sync.current. by rewrite Hf.
Qed.

Lemma last_any_default {A : Type} (l : list A) (c a b : A) :
  List.last (c :: l) a = List.last (c :: l) b.
Proof.
  revert c. induction l as [|d l IH]; intros c; [done |].
  change (List.last (d :: l) a = List.last (d :: l) b). apply IH.
Qed.

Lemma final_cons {A : Type} (first : A) (next : Z * A) (rest : list (Z * A)) :
  final first (next :: rest) = final (snd next) rest.
Proof.
  unfold Sync.final. cbn [List.map]. destruct (List.map snd rest) as [|c l]; [done |].
  change (List.last (c :: l) first = List.last (c :: l) (snd next)).
  apply last_any_default.
Qed.

Section Burst.

Context {A : Type} (type : Sync.coll) (inj : A → list any) (mk : A → Sync.event).
Hypothesis Hsets : sets type inj mk.

(** One change: the collection's previous timeout, if any, is replaced by a
    fresh one that is due a full window later. *)
Lemma set_one (x : A) (e : Sync.Engine) :
  coherent e →
  ∃ e1, Sync.step JSON_stringify (mk x) e = Some e1
    ∧ coherent e1
    ∧ (Sync.saved e1 = Sync.saved e ∧ Sync.inflight e1 = Sync.inflight e)
    ∧ (∀ t, Sync.lastSave t e1 = Sync.lastSave t e)
    ∧ Sync.clock e1 = Sync.clock e
    ∧ Sync.current type e1 = inj x
    ∧ (∀ id, Sync.pending type id e1 ↔ id = Sync.nextTimeout e)
    ∧ Sync.timeouts e1 !! Sync.nextTimeout e
      = Some (armed_with type (Sync.clock e + Sync.debounce) (inj x)
                (Sync.lastSave type e)).
Proof.
  intros Hcoh.
  destruct (Hsets x e) as (e0 & Hstep & Hcur & Ht & Hn & Hl & Hc & Hs & Hi & Hcoh0);
    [apply Hcoh |].
  specialize (Hcoh0 Hcoh). pose proof Hcoh0 as (_ & Hsound & _).
  destruct (arm_fields type e0) as (Hc1 & _ & _ & _ & _ & Hl1 & Hu1 & Hs1 & _).
  assert (Hnew : Sync.timeouts (arm type e0) !! Sync.nextTimeout e
                 = Some (armed_with type (Sync.clock e + Sync.debounce) (inj x)
                           (Sync.lastSave type e))).
  { apply (arm_lookup _ _ _ _ Hsound). left. split; [done |].
    unfold Coherence.armed_timeout, Coherence.armed_with. by rewrite Hcur, Hc, Hl. }
  exists (arm type e0). split_and!; try done.
  - by apply arm_coherent.
  - by rewrite Hs1.
  - by rewrite arm_inflight.
  - intros t. by rewrite Hl1.
  - by rewrite Hc1.
  - by rewrite (current_ui _ _ _ Hu1).
  - intros id. split.
    + intros (cb & Hcb & Hty).
      apply (arm_lookup _ _ _ _ Hsound) in Hcb as [[-> _] | (_ & _ & Hne)];
        [by rewrite Hn | done].
    + intros ->. by eexists.
Qed.

Lemma burst_run (first : A) (rest : list (Z * A)) (e : Sync.Engine) :
  coherent e →
  Forall (λ next, 0 <= fst next) rest →
  ∃ e1 id, Sync.run JSON_stringify (burst mk first rest) e = Some e1
    ∧ coherent e1
    ∧ (Sync.saved e1 = Sync.saved e ∧ Sync.inflight e1 = Sync.inflight e)
    ∧ (∀ t, Sync.lastSave t e1 = Sync.lastSave t e)
    ∧ Sync.current type e1 = inj (final first rest)
    ∧ (∀ id', Sync.pending type id' e1 ↔ id' = id)
    ∧ Sync.timeouts e1 !! id
      = Some (armed_with type (Sync.clock e1 + Sync.debounce)
                (inj (final first rest)) (Sync.lastSave type e)).
Proof.
  revert first e. induction rest as [|[gap x] rest IH]; intros first e Hcoh Hgaps.
  - destruct (set_one first e Hcoh)
      as (e1 & Hstep & Hcoh1 & [Hs Hi] & Hl & Hc & Hcur & Hpend & Hnew).
    exists e1, (Sync.nextTimeout e). unfold Sync.burst. cbn [flat_map Sync.run].
    rewrite Hstep, Hc. by split_and!.
  - apply Forall_cons in Hgaps as [Hgap Hgaps]. cbn [fst] in Hgap.
    destruct (set_one first e Hcoh) as (e' & Hstep & Hcoh' & [Hs Hi] & Hl & _).
    destruct (IH x (Sync.tick gap e') (tick_coherent gap e' Hcoh') Hgaps)
      as (e1 & id & Hrun & Hcoh1 & [Hs1 Hi1] & Hl1 & Hcur1 & Hpend1 & Hnew1).
    exists e1, id. rewrite final_cons. cbn [snd].
    split_and!; try done.
    + unfold Sync.burst in *. cbn [flat_map Sync.run app fst snd].
      rewrite Hstep. cbn [Sync.step].
      destruct (Z.leb_spec 0 gap); [exact Hrun | lia].
    + by rewrite Hs1.
    + by rewrite Hi1.
    + intros t. by rewrite Hl1, <- Hl.
    + rewrite Hnew1. do 2 f_equal. rewrite <- (Hl type). by destruct type.
Qed.

End Burst.

Section Settling.

Context {A : Type} (type : Sync.coll) (inj : A → list any) (mk : A → Sync.event).
Hypothesis Hsets : sets type inj mk.

(** Inside the window the one pending timeout cannot fire. *)
Lemma not_yet_due (e1 : Sync.Engine) (id : positive) (data : list any)
  (last : string) (dt : Z) (id' : positive) :
  (∀ id', Sync.pending type id' e1 ↔ id' = id) →
  Sync.timeouts e1 !! id
  = Some (armed_with type (Sync.clock e1 + Sync.debounce) data last) →
  dt < Sync.debounce →
  Sync.pending type id' (Sync.tick dt e1) →
  Sync.step JSON_stringify (Sync.Fire id') (Sync.tick dt e1) = None.
Proof.
  intros Hpend Hcb Hdt Hid'.
  assert (Hid : id' = id) by (by apply Hpend). subst id'.
  cbn [Sync.step].
  apply (fire_not_due id
           (armed_with type (Sync.clock e1 + Sync.debounce) data last)
           (Sync.tick dt e1)); [exact Hcb | cbn; lia].
Qed.

(** Once the window has passed, the pending timeout fires: it calls [save]
    with the collection it carries unless that hashes to the last-saved hash,
    and arms nothing.  Once the call is answered the hash becomes the
    last-saved one, and no timeout armed by the render that follows calls
    [save] for the collection again. *)
Lemma settle_after (e e1 : Sync.Engine) (id : positive) (data : list any)
  (settle wait : Z) :
  coherent e1 →
  Sync.inflight e1 = [] →
  Sync.current type e1 = data →
  (∀ t, Sync.lastSave t e1 = Sync.lastSave t e) →
  (∀ id', Sync.pending type id' e1 ↔ id' = id) →
  Sync.timeouts e1 !! id
  = Some (armed_with type (Sync.clock e1 + Sync.debounce) data
            (Sync.lastSave type e)) →
  Sync.debounce <= settle →
  0 <= wait →
  ∃ e2, Sync.run JSON_stringify [Sync.Tick settle; Sync.Fire id] e1 = Some e2
    ∧ Sync.saved e2
      = Sync.saved e1
        ++ (if String.eqb (hash_of data) (Sync.lastSave type e)
            then [] else [(type, data)])
    ∧ Sync.inflight e2
      = (if String.eqb (hash_of data) (Sync.lastSave type e)
         then [] else [(type, hash_of data)])
    ∧ Sync.lastSave type e2 = Sync.lastSave type e
    ∧ (∀ id', ¬ Sync.pending type id' e2)
    ∧ (hash_of data ≠ Sync.lastSave type e →
       ∃ e3, Sync.run JSON_stringify [Sync.Tick wait; Sync.Answer 0] e2 = Some e3
         ∧ Sync.saved e3 = Sync.saved e2
         ∧ Sync.inflight e3 = []
         ∧ Sync.lastSave type e3 = hash_of data
         ∧ (∀ dt id' e4, Sync.pending type id' e3 →
              Sync.run JSON_stringify [Sync.Tick dt; Sync.Fire id'] e3 = Some e4 →
              Sync.saved e4 = Sync.saved e3)).
Proof.
  intros Hcoh Hin Hcur Hl Hpend Hcb Hsettle Hwait.
  assert (H0 : 0 <= settle) by (unfold Sync.debounce in *; lia).
  destruct (fire_due id _ (Sync.tick settle e1) (tick_coherent settle e1 Hcoh) Hcb)
    as (e2 & Hfire & Hcoh2 & Hs2 & Hi2 & Ht2 & Hl2 & Hu2 & _); [cbn; lia |].
  cbn [Coherence.armed_with Sync.to_type Sync.to_hash Sync.to_data] in Hs2, Hi2.
  assert (Hlast : Sync.lastSave type (Sync.tick settle e1) = Sync.lastSave type e).
  { rewrite <- Hl. by destruct type. }
  rewrite Hlast in Hs2, Hi2.
  change (Sync.inflight (Sync.tick settle e1)) with (Sync.inflight e1) in Hi2.
  rewrite Hin in Hi2. cbn [app] in Hi2.
  exists e2. split_and!.
  - cbn [Sync.run Sync.step]. destruct (Z.leb_spec 0 settle); [| lia].
    by rewrite Hfire.
  - exact Hs2.
  - exact Hi2.
  - by rewrite Hl2.
  - intros id' (cb' & Hcb' & Hty). rewrite Ht2 in Hcb'.
    apply lookup_delete_Some in Hcb' as [Hne Hcb']. apply Hne. symmetry.
    apply Hpend. by exists cb'.
  - intros Hne. pose proof Hne as Hneb. apply String.eqb_neq in Hneb.
    rewrite Hneb in Hi2.
    destruct (setLastSave_changed type (hash_of data)
                (Sync.with_inflight [] (Sync.tick wait e2)))
      as (e3 & He3 & Hcoh3 & Hs3 & Hi3 & Hl3 & _ & Hu3 & _).
    { by apply with_inflight_coherent, tick_coherent. }
    { replace (Sync.lastSave type (Sync.with_inflight [] (Sync.tick wait e2)))
        with (Sync.lastSave type e2) by (by destruct type).
      by rewrite Hl2, Hlast. }
    exists e3. split_and!; try done.
    + cbn [Sync.run Sync.step]. destruct (Z.leb_spec 0 wait); [| lia].
      unfold Sync.answer.
      change (Sync.inflight (Sync.tick wait e2)) with (Sync.inflight e2).
      rewrite Hi2. cbn [lookup list_lookup delete list_delete]. by rewrite He3.
    + intros dt id' e4 (cb' & Hcb' & Hty) Hrun. cbn [Sync.run Sync.step] in Hrun.
      destruct (Z.leb_spec 0 dt); [| done].
      destruct (Sync.fire id' (Sync.tick dt e3)) as [e4' |] eqn:Hfire'; [| done].
      injection Hrun as ->.
      destruct (Z.le_gt_cases (Sync.to_due cb') (Sync.clock (Sync.tick dt e3)))
        as [Hdue | Hnot];
        [| by rewrite (fire_not_due id' cb') in Hfire' by (done || lia)].
      destruct (fire_due id' cb' (Sync.tick dt e3) (tick_coherent dt e3 Hcoh3)
                  Hcb' Hdue) as (e4' & Hfire4 & _ & Hs4 & _).
      rewrite Hfire' in Hfire4. injection Hfire4 as <-.
      destruct Hcoh3 as (_ & _ & Hfresh).
      destruct (Hfresh id' cb' Hcb' I) as (_ & Hdata & Hhash).
      assert (Hsame : Sync.to_hash cb'
                      = Sync.lastSave (Sync.to_type cb') (Sync.tick dt e3)).
      { rewrite Hhash, Hdata, Hty.
        replace (Sync.lastSave type (Sync.tick dt e3)) with (Sync.lastSave type e3)
          by (by destruct type).
        rewrite Hl3. f_equal. rewrite <- Hcur.
        transitivity (Sync.current type e2); [| by apply current_ui].
        by apply current_ui. }
      rewrite Hs4, Hsame, String.eqb_refl. cbn. by rewrite app_nil_r.
Qed.

(** A burst of changes, each less than a window after the one before, then
    quiet, with no call to [save] pending at its start: nothing is written
    during the burst, no timeout can fire between two changes or within a
    window of the last one, exactly one timeout of the collection is left
    pending, and when it fires it calls [save] once with the final collection,
    or not at all when that hashes to the last-saved hash. *)
Lemma burst_coalesces (first : A) (rest : list (Z * A)) (settle wait : Z)
  (e : Sync.Engine) :
  coherent e →
  Sync.inflight e = [] →
  Forall (λ next, 0 <= fst next < Sync.debounce) rest →
  Sync.debounce <= settle →
  0 <= wait →
  ∃ e1 id e2,
    Sync.run JSON_stringify (burst mk first rest) e = Some e1
    ∧ Sync.saved e1 = Sync.saved e
    ∧ (∀ id', Sync.pending type id' e1 ↔ id' = id)
    ∧ (∀ k next ek dt id',
         rest !! k = Some next →
         Sync.run JSON_stringify (burst mk first (take k rest)) e = Some ek →
         0 <= dt <= fst next →
         Sync.pending type id' (Sync.tick dt ek) →
         Sync.step JSON_stringify (Sync.Fire id') (Sync.tick dt ek) = None)
    ∧ (∀ dt id', 0 <= dt < Sync.debounce →
         Sync.pending type id' (Sync.tick dt e1) →
         Sync.step JSON_stringify (Sync.Fire id') (Sync.tick dt e1) = None)
    ∧ Sync.run JSON_stringify [Sync.Tick settle; Sync.Fire id] e1 = Some e2
    ∧ Sync.saved e2
      = Sync.saved e
        ++ (if String.eqb (hash_of (inj (final first rest))) (Sync.lastSave type e)
            then [] else [(type, inj (final first rest))])
    ∧ Sync.inflight e2
      = (if String.eqb (hash_of (inj (final first rest))) (Sync.lastSave type e)
         then [] else [(type, hash_of (inj (final first rest)))])
    ∧ Sync.lastSave type e2 = Sync.lastSave type e
    ∧ (∀ id', ¬ Sync.pending type id' e2)
    ∧ (hash_of (inj (final first rest)) ≠ Sync.lastSave type e →
       ∃ e3, Sync.run JSON_stringify [Sync.Tick wait; Sync.Answer 0] e2 = Some e3
         ∧ Sync.saved e3 = Sync.saved e2
         ∧ Sync.inflight e3 = []
         ∧ Sync.lastSave type e3 = hash_of (inj (final first rest))
         ∧ (∀ dt id' e4, Sync.pending type id' e3 →
              Sync.run JSON_stringify [Sync.Tick dt; Sync.Fire id'] e3 = Some e4 →
              Sync.saved e4 = Sync.saved e3)).
Proof.
  intros Hcoh Hin Hgaps Hsettle Hwait.
  assert (Hpos : Forall (λ next : Z * A, 0 <= fst next) rest).
  { eapply Forall_impl; [exact Hgaps |]. intros next Hn. cbn in Hn. lia. }
  destruct (burst_run type inj mk Hsets first rest e Hcoh Hpos)
    as (e1 & id & Hrun & Hcoh1 & [Hs1 Hi1] & Hl1 & Hcur1 & Hpend1 & Hcb1).
  rewrite Hin in Hi1.
  destruct (settle_after e e1 id _ settle wait Hcoh1 Hi1 Hcur1 Hl1 Hpend1 Hcb1
              Hsettle Hwait)
    as (e2 & Hrun2 & Hs2 & Hi2 & Hl2 & Hnone & Hanswer).
  exists e1, id, e2. split_and!; try done.
  - intros k next ek dt id' Hk Hrunk Hdt Hid'.
    destruct (burst_run type inj mk Hsets first (take k rest) e Hcoh)
      as (ek' & idk & Hrunk' & _ & _ & _ & _ & Hpendk & Hcbk);
      [by apply Forall_take |].
    rewrite Hrunk in Hrunk'. injection Hrunk' as <-.
    apply (not_yet_due ek idk _ _ dt id' Hpendk Hcbk); [| done].
    apply (Forall_lookup_1 _ _ _ _ Hgaps) in Hk. cbn in Hk. lia.
  - intros dt id' Hdt Hid'.
    apply (not_yet_due e1 id _ _ dt id' Hpend1 Hcb1); [lia | done].
  - by rewrite Hs2, Hs1.
Qed.

End Settling.

Lemma loaded_coherent (now : Z) (st : State) :
  coherent (Sync.loaded JSON_stringify now st).
Proof.
  split; [done |]. split; [split_and! |]; try done.
  by intros [] id Href.
Qed.

(** With nothing pending and no call awaiting its answer, only time can
    pass: no later event other than a change writes anything. *)
Lemma idle_forever (evs : list Sync.event) (e e' : Sync.Engine) :
  Sync.timeouts e = ∅ →
  Sync.inflight e = [] →
  forallb Sync.quiet evs = true →
  Sync.run JSON_stringify evs e = Some e' →
  Sync.timeouts e' = ∅ ∧ Sync.inflight e' = [] ∧ Sync.saved e' = Sync.saved e
  ∧ Sync.ui e' = Sync.ui e ∧ ∀ t, Sync.lastSave t e' = Sync.lastSave t e.
Proof.
  revert e. induction evs as [| ev evs IH]; intros e Ht Hi Hquiet Hrun.
  - injection Hrun as <-. done.
  - cbn [forallb] in Hquiet. apply andb_true_iff in Hquiet as [Hev Hquiet].
    cbn [Sync.run] in Hrun.
    destruct (Sync.step JSON_stringify ev e) as [e1 |] eqn:Hstep; [| done].
    destruct ev as [l | l | dt | id | k | k]; try done; cbn [Sync.step] in Hstep.
    + destruct (0 <=? dt); [| done]. injection Hstep as <-.
      destruct (IH (Sync.tick dt e) Ht Hi Hquiet Hrun) as (? & ? & ? & ? & Hl).
      by split_and!.
    + rewrite fire_not_pending in Hstep; [done |]. by rewrite Ht.
    + unfold Sync.answer in Hstep. by rewrite Hi in Hstep.
    + unfold Sync.reject in Hstep. by rewrite Hi in Hstep.
Qed.

Lemma setFoods_guarded (l : list Food) (e : Sync.Engine) :
  Sync.isLoaded e && negb (Sync.foodsFromServerRef e) = false →
  foods (Sync.ui (Sync.setFoods JSON_stringify l e)) = l
  ∧ Sync.timeouts (Sync.setFoods JSON_stringify l e) = Sync.timeouts e
  ∧ Sync.saved (Sync.setFoods JSON_stringify l e) = Sync.saved e
  ∧ Sync.inflight (Sync.setFoods JSON_stringify l e) = Sync.inflight e
  ∧ Sync.lastFoodsSave (Sync.setFoods JSON_stringify l e) = Sync.lastFoodsSave e.
Proof.
  destruct e. unfold Sync.setFoods, Sync.foodsEffect. cbn. by intros ->.
Qed.

Lemma setRecipes_guarded (l : list Recipe) (e : Sync.Engine) :
  Sync.isLoaded e && negb (Sync.recipesFromServerRef e) = false →
  recipes (Sync.ui (Sync.setRecipes JSON_stringify l e)) = l
  ∧ Sync.timeouts (Sync.setRecipes JSON_stringify l e) = Sync.timeouts e
  ∧ Sync.saved (Sync.setRecipes JSON_stringify l e) = Sync.saved e
  ∧ Sync.inflight (Sync.setRecipes JSON_stringify l e) = Sync.inflight e
  ∧ Sync.lastRecipesSave (Sync.setRecipes JSON_stringify l e)
    = Sync.lastRecipesSave e.
Proof.
  destruct e. unfold Sync.setRecipes, Sync.recipesEffect. cbn. by intros ->.
Qed.


End WriteBack.



(** The same burst, event by event: three changes arm the handles 1, 2 and 3,
    only the third is left to fire, and the handles armed once its call is
    answered (4 for the foods, 5 for the recipes) fire without writing. *)
Example debounce_trace :
  Sync.saved <$>
    Sync.run Sample.stringify
      (Sync.foodsBurst [Sample.milk; Sample.eggs]
         [(100, [Sample.milk]); (200, [Sample.milk; Sample.wholeMilk])]
       ++ [Sync.Tick 500; Sync.Fire 3; Sync.Tick 900; Sync.Answer 0;
           Sync.Tick 500; Sync.Fire 4; Sync.Fire 5])
      (Sync.loaded Sample.stringify 0 (Sample.state [Sample.milk] []))
  = Some [(Sync.CFoods, [AFood Sample.milk; AFood Sample.wholeMilk])].
Proof. vm_compute. reflexivity. Qed.

Example debounce_too_early :
  Sync.run Sample.stringify
    (Sync.foodsBurst [Sample.milk; Sample.eggs] [] ++ [Sync.Tick 499; Sync.Fire 1])
    (Sync.loaded Sample.stringify 0 (Sample.state [Sample.milk] []))
  = None.
Proof. vm_compute. reflexivity. Qed.

(** A call to [save] that is slow to be answered.  Both collections change and
    both timeouts fire; the answer for the recipes arrives first and renders
    the component, which arms a timeout for the foods against the last-saved
    hash of before their call; when that fires, the call for the foods is
    still pending, and the same foods are handed to [save] a second time. *)
Example slow_save_posts_twice :
  Sync.saved <$>
    Sync.run Sample.stringify
      [Sync.SetFoods [Sample.eggs]; Sync.SetRecipes [Sample.water];
       Sync.Tick 500; Sync.Fire 1; Sync.Fire 2;
       Sync.Tick 20; Sync.Answer 1;
       Sync.Tick 500; Sync.Fire 3]
      (Sync.loaded Sample.stringify 0 (Sample.state [Sample.milk] []))
  = Some [(Sync.CFoods, [AFood Sample.eggs]);
          (Sync.CRecipes, [ARecipe Sample.water]);
          (Sync.CFoods, [AFood Sample.eggs])].
Proof. vm_compute. reflexivity. Qed.

(** * Further properties *)

(** ** Membership in the derived views *)

Lemma expiring_elem (Date_getTime : string → number) (days : number) (now : Z)
  (foods : list Food) (food : Food) :
  food ∈ Views.getExpiringFoods Date_getTime days now foods ↔
  food ∈ foods
  ∧ Number.Le (Number.of_Z 0)
      (Views.getDaysUntilExpiry Date_getTime now (food_expiryDate food))
  ∧ Number.Le (Views.getDaysUntilExpiry Date_getTime now (food_expiryDate food)) days.
Proof.
  unfold Views.getExpiringFoods, Number.ge.
  rewrite filter_elem_of, andb_true_iff, !Number_le_spec. tauto.
Qed.

Lemma expired_elem (Date_getTime : string → number) (now : Z)
  (foods : list Food) (food : Food) :
  food ∈ Views.getExpiredFoods Date_getTime now foods ↔
  food ∈ foods
  ∧ Number.Lt (Views.getDaysUntilExpiry Date_getTime now (food_expiryDate food))
      (Number.of_Z 0).
Proof.
  unfold Views.getExpiredFoods. by rewrite filter_elem_of, Number_lt_spec.
Qed.

Lemma available_elem (toLowerCase : Str.case_mapping) (recipes : list Recipe)
  (foods : list Food) (recipe : Recipe) :
  recipe ∈ Views.getAvailableRecipes toLowerCase recipes foods ↔
  recipe ∈ recipes
  ∧ ∀ ingredient, ingredient ∈ recipe_ingredients recipe →
      covered toLowerCase foods ingredient.
Proof.
  unfold Views.getAvailableRecipes. by rewrite filter_elem_of, available_spec.
Qed.

(** ** The food list *)

Lemma includes_empty (s : string) : Str.includes s "" = true.
Proof. destruct s; reflexivity. Qed.

Lemma filter_filter_and {A : Type} (f g : A → bool) (l : list A) :
  List.filter f (List.filter g l) = List.filter (λ x, g x && f x) l.
Proof.
  induction l as [|x l IH]; simpl; [done |].
  destruct (g x); simpl; [destruct (f x) |]; by rewrite IH.
Qed.

Lemma filter_ext_bool {A : Type} (f g : A → bool) (l : list A) :
  (∀ x, f x = g x) → List.filter f l = List.filter g l.
Proof.
  intros H. induction l as [|x l IH]; simpl; [done |]. by rewrite H, IH.
Qed.

Lemma includes_lowered_empty (toLowerCase : Str.case_mapping) (s : string) :
  Str.includes (toLowerCase s) (toLowerCase "") = true.
Proof. rewrite lower_empty. apply includes_empty. Qed.

(** [filteredFoods] keeps, in their order, exactly the foods whose name, as
    the runtime lowers it, contains the search term as the runtime lowers it,
    and whose category is the selected one, every category passing when the
    selector is on ["all"].  When the name and the search term are of the
    ASCII range, that is: some piece of the name is the search term but for
    the case of the letters A to Z. *)
Theorem filteredFoods_exact (toLowerCase : Str.case_mapping)
  (searchTerm filterCategory : string) (foods : list Food) :
  (∀ food,
     food ∈ Screens.filteredFoods toLowerCase searchTerm filterCategory foods ↔
     food ∈ foods
     ∧ contains_ignoring_case toLowerCase (food_name food) searchTerm
     ∧ (filterCategory = "all" ∨ food_category food = filterCategory))
  ∧ sublist (Screens.filteredFoods toLowerCase searchTerm filterCategory foods) foods
  ∧ (∀ food,
       Str.is_ascii (food_name food) = true → Str.is_ascii searchTerm = true →
       food ∈ Screens.filteredFoods toLowerCase searchTerm filterCategory foods ↔
       food ∈ foods
       ∧ contains_but_case (food_name food) searchTerm
       ∧ (filterCategory = "all" ∨ food_category food = filterCategory)).
Proof.
  assert (Hmem : ∀ food,
     food ∈ Screens.filteredFoods toLowerCase searchTerm filterCategory foods ↔
     food ∈ foods
     ∧ contains_ignoring_case toLowerCase (food_name food) searchTerm
     ∧ (filterCategory = "all" ∨ food_category food = filterCategory)).
  { intros food. unfold Screens.filteredFoods, contains_ignoring_case.
    rewrite filter_elem_of, andb_true_iff, orb_true_iff, includes_spec,
      !String.eqb_eq.
    tauto. }
  split; [exact Hmem |]. split; [apply filter_sublist |].
  intros food Hname Hterm. by rewrite Hmem, contains_ascii.
Qed.

Lemma filteredFoods_exact_witness :
  Sample.wholeMilk
    ∈ Screens.filteredFoods Sample.toLowerCase "e mIL" "all"
        [Sample.eggs; Sample.wholeMilk].
Proof.
  apply (proj2 (proj2 (filteredFoods_exact Sample.toLowerCase "e mIL" "all"
                         [Sample.eggs; Sample.wholeMilk])));
    [reflexivity | reflexivity |].
  split; [apply list_elem_of_In; simpl; auto |]. split; [| by left].
  by exists "Whol", "e Mil", "k".
Defined.

(** With an empty search box only the category selects, and with the selector
    on ["all"] as well the whole collection is listed, unchanged. *)
Theorem filteredFoods_no_search (toLowerCase : Str.case_mapping)
  (filterCategory : string) (foods : list Food) :
  Screens.filteredFoods toLowerCase "" "all" foods = foods
  ∧ (∀ food, food ∈ Screens.filteredFoods toLowerCase "" filterCategory foods ↔
       food ∈ foods
       ∧ (filterCategory = "all" ∨ food_category food = filterCategory)).
Proof.
  split.
  - apply filter_all_true. intros food _. cbv beta zeta.
    by rewrite includes_lowered_empty.
  - intros food. unfold Screens.filteredFoods.
    rewrite filter_elem_of, includes_lowered_empty, andb_true_l, orb_true_iff,
      !String.eqb_eq.
    tauto.
Qed.

(** Searching and selecting a category are independent: applying one to the
    result of the other, in either order, gives what both give together, and
    filtering a second time changes nothing. *)
Theorem filteredFoods_compose (toLowerCase : Str.case_mapping)
  (searchTerm filterCategory : string) (foods : list Food) :
  Screens.filteredFoods toLowerCase searchTerm "all"
    (Screens.filteredFoods toLowerCase "" filterCategory foods)
  = Screens.filteredFoods toLowerCase searchTerm filterCategory foods
  ∧ Screens.filteredFoods toLowerCase "" filterCategory
      (Screens.filteredFoods toLowerCase searchTerm "all" foods)
    = Screens.filteredFoods toLowerCase searchTerm filterCategory foods
  ∧ Screens.filteredFoods toLowerCase searchTerm filterCategory
      (Screens.filteredFoods toLowerCase searchTerm filterCategory foods)
    = Screens.filteredFoods toLowerCase searchTerm filterCategory foods.
Proof.
  unfold Screens.filteredFoods. rewrite !filter_filter_and. split_and!;
    apply filter_ext_bool; intros food;
    rewrite ?includes_lowered_empty; cbn [String.eqb orb andb];
    destruct (Str.includes _ _), (String.eqb filterCategory "all"),
      (String.eqb (food_category food) filterCategory); reflexivity.
Qed.

(** With the sample case mapping: the search term is matched whatever its
    case, beyond the ASCII letters too, and a term that is in no name finds
    nothing. *)
Example filteredFoods_sample :
  Screens.filteredFoods Sample.toLowerCase "MILK" "lácteos"
    [Sample.milk; Sample.eggs; Sample.wholeMilk]
  = [Sample.milk; Sample.wholeMilk]
  ∧ Screens.filteredFoods Sample.toLowerCase "" "otros"
      [Sample.milk; Sample.eggs; Sample.wholeMilk]
    = [Sample.eggs]
  ∧ Screens.filteredFoods Sample.toLowerCase "ÑO" "all" [Sample.milk; Sample.jalapeno]
    = [Sample.jalapeno]
  ∧ Screens.filteredFoods Sample.toLowerCase "rice" "all"
      [Sample.milk; Sample.jalapeno]
    = [].
Proof. split_and!; reflexivity. Qed.

(** ** Expiry, by instants *)

Lemma filter_disjoint_length {A : Type} (f g : A → bool) (l : list A) :
  (∀ x, x ∈ l → f x = true → g x = true → False) →
  (length (List.filter f l) + length (List.filter g l) <= length l)%nat.
Proof.
  induction l as [|x l IH]; intros Hdisj; [done |]. cbn [List.filter].
  assert (IH' : (length (List.filter f l) + length (List.filter g l)
                 <= length l)%nat).
  { apply IH. intros y Hy. apply Hdisj. by constructor. }
  specialize (Hdisj x). destruct (f x), (g x); cbn [length]; try lia.
  exfalso. apply Hdisj; [constructor | done | done].
Qed.

Lemma Qceiling_le_iff (x : Q) (z : Z) : Qceiling x <= z ↔ (x <= inject_Z z)%Q.
Proof.
  split; intros H.
  - eapply Qle_trans; [apply Qle_ceiling |]. by rewrite <- Zle_Qle.
  - rewrite <- (Qceiling_Z z). by apply Qceiling_resp_le.
Qed.

Lemma of_Z_Le (a b : Z) : Number.Le (Number.of_Z a) (Number.of_Z b) ↔ a <= b.
Proof.
  unfold Number.Le, Number.of_Z. split.
  - intros (p & q & [= <-] & [= <-] & H). by rewrite Zle_Qle.
  - intros H. eexists _, _. split_and!; try done. by rewrite <- Zle_Qle.
Qed.

Lemma of_Z_Lt (a b : Z) : Number.Lt (Number.of_Z a) (Number.of_Z b) ↔ a < b.
Proof.
  unfold Number.Lt, Number.of_Z. split.
  - intros (p & q & [= <-] & [= <-] & H). by rewrite Zlt_Qlt.
  - intros H. eexists _, _. split_and!; try done. by rewrite <- Zlt_Qlt.
Qed.

Lemma days_scale (expiry : Q) (now : Z) :
  (expiry - inject_Z now
   == (expiry - inject_Z now) / inject_Z Views.msPerDay * inject_Z Views.msPerDay)%Q.
Proof. field. discriminate. Qed.

Section ExpiryByInstant.

Variable Date_getTime : string → number.
Variable toLowerCase : Str.case_mapping.

(** For a food whose date reads as the instant [expiry]: it is listed as
    expired exactly when a full day has passed since that instant, and as
    expiring within [window] days exactly when less than a day has passed
    since it and it lies at most [window] days ahead. *)
Theorem buckets_by_instant (now window : Z) (foods : list Food) (food : Food)
  (expiry : Q) :
  Date_getTime (food_expiryDate food) = Num expiry →
  (food ∈ Views.getExpiredFoods Date_getTime now foods ↔
     food ∈ foods ∧ (expiry + inject_Z Views.msPerDay <= inject_Z now)%Q)
  ∧ (food ∈ Views.getExpiringFoods Date_getTime (Number.of_Z window) now foods ↔
       food ∈ foods
       ∧ (inject_Z now < expiry + inject_Z Views.msPerDay)%Q
       ∧ (expiry <= inject_Z now + inject_Z window * inject_Z Views.msPerDay)%Q).
Proof.
  intros Hdate.
  pose proof (expiring_elem Date_getTime (Number.of_Z window) now foods food)
    as Hsoon.
  pose proof (expired_elem Date_getTime now foods food) as Hgone.
  pose proof (days_scale expiry now) as Hscale.
  set (x := ((expiry - inject_Z now) / inject_Z Views.msPerDay)%Q) in *.
  assert (HD : (inject_Z Views.msPerDay == 86400000)%Q) by reflexivity.
  split.
  - rewrite Hgone, (days_of_valid_date _ _ _ _ Hdate), of_Z_Lt. fold x.
    assert (Qceiling x < 0 ↔ Qceiling x <= -1) as -> by lia.
    rewrite Qceiling_le_iff. change (inject_Z (-1)) with (-1)%Q.
    split; intros [Hin H]; (split; [done |]); rewrite HD in *; lra.
  - rewrite Hsoon, (days_of_valid_date _ _ _ _ Hdate), !of_Z_Le. fold x.
    assert (0 <= Qceiling x ↔ ¬ Qceiling x <= -1) as -> by lia.
    rewrite !Qceiling_le_iff. change (inject_Z (-1)) with (-1)%Q.
    split; intros (Hin & H1 & H2); (split; [done |]); rewrite HD in *.
    + apply Qnot_le_lt in H1. split; lra.
    + split; [apply Qlt_not_le |]; lra.
Qed.

(** A food whose date the runtime cannot read is in neither list, and its
    card is green. *)
Theorem unreadable_date_unlisted (days : number) (now : Z) (foods : list Food)
  (food : Food) :
  Date_getTime (food_expiryDate food) = NaN →
  (food ∉ Views.getExpiringFoods Date_getTime days now foods)
  ∧ (food ∉ Views.getExpiredFoods Date_getTime now foods)
  ∧ Screens.foodTone Date_getTime now food = Screens.Green.
Proof.
  intros Hdate.
  pose proof (expiring_elem Date_getTime days now foods food) as Hsoon.
  pose proof (expired_elem Date_getTime now foods food) as Hgone.
  pose proof (days_of_invalid_date Date_getTime now _ Hdate) as Hnan.
  split_and!.
  - rewrite Hsoon, Hnan. intros (_ & (p & q & _ & ? & _) & _). done.
  - rewrite Hgone, Hnan. intros (_ & (p & q & ? & _)). done.
  - unfold Screens.foodTone. by rewrite Hnan.
Qed.

(** The colour of a food card agrees with the dashboard's lists: red exactly
    for the expired foods, orange exactly for those expiring within the
    default three days, green for all others. *)
Theorem foodTone_agrees (now : Z) (foods : list Food) (food : Food) :
  food ∈ foods →
  (Screens.foodTone Date_getTime now food = Screens.Red ↔
     food ∈ Views.getExpiredFoods Date_getTime now foods)
  ∧ (Screens.foodTone Date_getTime now food = Screens.Orange ↔
       food ∈ Views.getExpiringFoods Date_getTime Views.defaultDays now foods)
  ∧ (Screens.foodTone Date_getTime now food = Screens.Green ↔
       (food ∉ Views.getExpiredFoods Date_getTime now foods)
       ∧ (food ∉ Views.getExpiringFoods Date_getTime Views.defaultDays now foods)).
Proof.
  intros Hin.
  unfold Views.getExpiredFoods, Views.getExpiringFoods.
  rewrite !filter_elem_of. unfold Screens.foodTone, Views.defaultDays.
  set (d := Views.getDaysUntilExpiry Date_getTime now (food_expiryDate food)).
  assert (Hdisj : Number.lt d (Number.of_Z 0) = true →
                  Number.le d (Number.of_Z 3) && Number.ge d (Number.of_Z 0) = true →
                  False).
  { intros H2 H1. apply andb_true_iff in H1 as [_ H1].
    apply Number_le_spec in H1. apply Number_lt_spec in H2.
    by apply (Number_Lt_not_Le _ _ H2). }
  cbv zeta.
  destruct (Number.lt _ _) eqn:Hlt, (_ && _) eqn:Hsoon;
    split_and!; split; try done; try tauto; try (intros [? ?]; tauto).
Qed.

(** The dashboard never counts a food twice: the expiring and the expired
    counters add up to at most the total; at most four recipes are shown, each
    of them available, and they are the first ones of the collection that
    are. *)
Theorem dashboard_counts (now : Z) (foods : list Food) (recipes : list Recipe) :
  let d := Screens.renderDashboard Date_getTime toLowerCase now foods recipes in
  (Screens.expiringCount d + Screens.expiredCount d <= Screens.totalFoods d)%nat
  ∧ (Screens.availableCount d <= length recipes)%nat
  ∧ (length (Screens.recipesShown d) <= 4)%nat
  ∧ Screens.recipesShown d `prefix_of` Views.getAvailableRecipes toLowerCase recipes foods
  ∧ (Screens.availableCount d <= 4 →
     Screens.recipesShown d = Views.getAvailableRecipes toLowerCase recipes foods)%nat.
Proof.
  cbn. split_and!.
  - apply filter_disjoint_length. intros food Hin H1 H2.
    apply andb_true_iff in H1 as [_ H1].
    apply Number_le_spec in H1. apply Number_lt_spec in H2.
    by apply (Number_Lt_not_Le _ _ H2).
  - apply sublist_length, filter_sublist.
  - rewrite length_take. lia.
  - apply prefix_take.
  - intros Hle. by apply take_ge.
Qed.

End ExpiryByInstant.

Lemma buckets_by_instant_witness :
  Sample.milk ∈ Views.getExpiredFoods IsoDate.getTime Sample.noon
                  [Sample.milk; Sample.wholeMilk]
  ∧ Sample.wholeMilk ∈ Views.getExpiringFoods IsoDate.getTime (Number.of_Z 3)
                         Sample.noon [Sample.milk; Sample.wholeMilk].
Proof.
  split.
  - apply (buckets_by_instant IsoDate.getTime Sample.noon 3
             [Sample.milk; Sample.wholeMilk] Sample.milk (inject_Z 1709942400000));
      [reflexivity |].
    split; [apply list_elem_of_In; simpl; auto | vm_compute; discriminate].
  - apply (buckets_by_instant IsoDate.getTime Sample.noon 3
             [Sample.milk; Sample.wholeMilk] Sample.wholeMilk
             (inject_Z 1710201600000)); [reflexivity |].
    split; [apply list_elem_of_In; simpl; auto |].
    split; [reflexivity | vm_compute; discriminate].
Defined.

Lemma unreadable_date_unlisted_witness :
  (Sample.undatedRice
     ∉ Views.getExpiringFoods IsoDate.getTime Views.defaultDays Sample.noon
         [Sample.undatedRice])
  ∧ (Sample.undatedRice
       ∉ Views.getExpiredFoods IsoDate.getTime Sample.noon [Sample.undatedRice])
  ∧ Screens.foodTone IsoDate.getTime Sample.noon Sample.undatedRice = Screens.Green.
Proof.
  apply (unreadable_date_unlisted IsoDate.getTime Views.defaultDays Sample.noon
           [Sample.undatedRice] Sample.undatedRice).
  reflexivity.
Defined.

Lemma foodTone_agrees_witness :
  Screens.foodTone IsoDate.getTime Sample.noon Sample.milk = Screens.Red
  ∧ Screens.foodTone IsoDate.getTime Sample.noon Sample.wholeMilk = Screens.Orange.
Proof.
  split.
  - apply (foodTone_agrees IsoDate.getTime Sample.noon
             [Sample.milk; Sample.wholeMilk] Sample.milk);
      [apply list_elem_of_In; simpl; auto |].
    apply list_elem_of_In. vm_compute. auto.
  - apply (foodTone_agrees IsoDate.getTime Sample.noon
             [Sample.milk; Sample.wholeMilk] Sample.wholeMilk);
      [apply list_elem_of_In; simpl; auto |].
    apply list_elem_of_In. vm_compute. auto.
Defined.

Lemma dashboard_counts_witness :
  Screens.recipesShown
    (Screens.renderDashboard IsoDate.getTime Sample.toLowerCase Sample.noon
       [Sample.milk; Sample.wholeMilk] [Sample.pancakes; Sample.water])
  = Views.getAvailableRecipes Sample.toLowerCase [Sample.pancakes; Sample.water]
      [Sample.milk; Sample.wholeMilk].
Proof.
  apply (dashboard_counts IsoDate.getTime Sample.toLowerCase Sample.noon
           [Sample.milk; Sample.wholeMilk] [Sample.pancakes; Sample.water]).
  vm_compute. lia.
Defined.

(** ** Recipe cards *)

Lemma find_first {A : Type} (f : A → bool) (l : list A) (x : A) :
  List.find f l = Some x ↔
  ∃ i, l !! i = Some x ∧ f x = true
       ∧ ∀ j y, (j < i)%nat → l !! j = Some y → f y = false.
Proof.
  induction l as [|a l IH]; simpl.
  - split; [done | intros (i & Hi & _); by rewrite lookup_nil in Hi].
  - destruct (f a) eqn:Hfa.
    + split.
      * intros [= <-]. exists 0%nat. split_and!; try done. intros j y Hj. lia.
      * intros (i & Hi & Hfx & Hfirst). destruct i as [|i]; [by injection Hi as -> |].
        specialize (Hfirst 0%nat a ltac:(lia) eq_refl). congruence.
    + rewrite IH. split.
      * intros (i & Hi & Hfx & Hfirst). exists (S i). split_and!; try done.
        intros [|j] y Hj Hy; [by injection Hy as <- |].
        apply (Hfirst j); [lia | done].
      * intros (i & Hi & Hfx & Hfirst). destruct i as [|i].
        -- injection Hi as ->. congruence.
        -- exists i. split_and!; try done. intros j y Hj Hy.
           apply (Hfirst (S j)); [lia | done].
Qed.

Lemma canMake_available (toLowerCase : Str.case_mapping) (foods : list Food)
  (recipe : Recipe) :
  Screens.canMake toLowerCase foods recipe = true ↔
  ∀ ingredient, ingredient ∈ recipe_ingredients recipe →
    covered toLowerCase foods ingredient.
Proof. apply available_spec. Qed.

(** An ingredient line of a recipe card is green exactly when the first food
    matching the ingredient by name holds enough of it.  When every line of a
    card is green, the card's badge says available and the dashboard counts
    the recipe. *)
Theorem ingredient_lines_and_badge (toLowerCase : Str.case_mapping) (foods : list Food) :
  (∀ ingredient,
     Screens.hasEnough toLowerCase foods ingredient = true ↔
     ∃ i food, foods !! i = Some food
       ∧ contains_ignoring_case toLowerCase (food_name food) (ing_name ingredient)
       ∧ Number.Le (ing_quantity ingredient) (food_quantity food)
       ∧ ∀ j other, (j < i)%nat → foods !! j = Some other →
           ¬ contains_ignoring_case toLowerCase (food_name other) (ing_name ingredient))
  ∧ (∀ recipes recipe,
       recipe ∈ recipes →
       (∀ ingredient, ingredient ∈ recipe_ingredients recipe →
          Screens.hasEnough toLowerCase foods ingredient = true) →
       Screens.canMake toLowerCase foods recipe = true
       ∧ recipe ∈ Views.getAvailableRecipes toLowerCase recipes foods).
Proof.
  assert (Hline : ∀ ingredient,
     Screens.hasEnough toLowerCase foods ingredient = true ↔
     ∃ i food, foods !! i = Some food
       ∧ contains_ignoring_case toLowerCase (food_name food) (ing_name ingredient)
       ∧ Number.Le (ing_quantity ingredient) (food_quantity food)
       ∧ ∀ j other, (j < i)%nat → foods !! j = Some other →
           ¬ contains_ignoring_case toLowerCase (food_name other) (ing_name ingredient)).
  { intros ingredient. unfold Screens.hasEnough, contains_ignoring_case.
    destruct (List.find _ foods) as [food |] eqn:Hfind.
    - apply find_first in Hfind as (i & Hi & Hname & Hfirst).
      unfold Number.ge. rewrite Number_le_spec. split.
      + intros Hle. exists i, food. split_and!; try done; [by apply includes_spec |].
        intros j other Hj Hother Hin. apply includes_spec in Hin.
        by rewrite (Hfirst j other Hj Hother) in Hin.
      + intros (i' & food' & Hi' & Hname' & Hle & Hfirst').
        apply includes_spec in Hname'.
        destruct (Nat.lt_trichotomy i i') as [Hlt | [-> | Hgt]].
        * destruct (Hfirst' i food Hlt Hi). by apply includes_spec.
        * congruence.
        * by rewrite (Hfirst i' food' Hgt Hi') in Hname'.
    - split; [done |]. intros (i & food & Hi & Hname & _).
      apply includes_spec in Hname.
      assert (Hex : Views.found (List.find
                (λ food0, Str.includes (toLowerCase (food_name food0))
                            (toLowerCase (ing_name ingredient))) foods) = true).
      { apply find_found. exists food. split; [| done].
        by apply list_elem_of_lookup_2 in Hi. }
      by rewrite Hfind in Hex. }
  split; [exact Hline |].
  intros recipes recipe Hin Hall.
  assert (Hcov : ∀ ingredient, ingredient ∈ recipe_ingredients recipe →
                   covered toLowerCase foods ingredient).
  { intros ingredient Hing. apply Hall, Hline in Hing
      as (i & food & Hi & Hname & Hle & _).
    exists food. split_and!; try done. by apply list_elem_of_lookup_2 in Hi. }
  split; [by apply canMake_available |].
  by apply available_elem.
Qed.

Lemma ingredient_lines_and_badge_witness :
  Screens.canMake Sample.toLowerCase [Sample.wholeMilk; Sample.milk] Sample.pancakes = true
  ∧ Sample.pancakes
      ∈ Views.getAvailableRecipes Sample.toLowerCase [Sample.pancakes]
          [Sample.wholeMilk; Sample.milk].
Proof.
  apply (ingredient_lines_and_badge Sample.toLowerCase [Sample.wholeMilk; Sample.milk]).
  - apply list_elem_of_In; simpl; auto.
  - intros ingredient Hin. apply list_elem_of_In in Hin. simpl in Hin.
    destruct Hin as [<- | [<- | []]]; reflexivity.
Defined.

(** The converse fails: with the smaller carton listed first the badge says
    available while both ingredient lines are red. *)
Example badge_green_lines_red :
  Screens.canMake Sample.toLowerCase [Sample.milk; Sample.wholeMilk] Sample.pancakes = true
  ∧ List.map (Screens.hasEnough Sample.toLowerCase [Sample.milk; Sample.wholeMilk])
      (recipe_ingredients Sample.pancakes) = [false; false].
Proof. split; reflexivity. Qed.

(** ** Recipe feasibility and the stock *)

(** Stocking more never makes a recipe unavailable: every recipe available
    with some foods is available with any collection that holds those
    foods. *)
Theorem available_monotone (toLowerCase : Str.case_mapping)
  (recipes : list Recipe) (foods more : list Food)
  (recipe : Recipe) :
  (∀ food, food ∈ foods → food ∈ more) →
  recipe ∈ Views.getAvailableRecipes toLowerCase recipes foods →
  recipe ∈ Views.getAvailableRecipes toLowerCase recipes more.
Proof.
  intros Hsub. rewrite !available_elem. intros [Hin Hcov]. split; [done |].
  intros ingredient Hing. destruct (Hcov ingredient Hing) as (food & Hf & H).
  exists food. split; [by apply Hsub | done].
Qed.

Lemma available_monotone_witness :
  Sample.pancakes
    ∈ Views.getAvailableRecipes Sample.toLowerCase [Sample.pancakes; Sample.water]
        [Sample.eggs; Sample.wholeMilk; Sample.milk].
Proof.
  apply (available_monotone Sample.toLowerCase [Sample.pancakes; Sample.water]
           [Sample.wholeMilk]
           [Sample.eggs; Sample.wholeMilk; Sample.milk] Sample.pancakes).
  - intros food Hin. apply list_elem_of_In in Hin. simpl in Hin.
    destruct Hin as [<- | []]. apply list_elem_of_In. simpl. auto.
  - apply list_elem_of_In. vm_compute. auto.
Defined.

(** With nothing in stock, the available recipes are exactly those without
    ingredients. *)
Theorem available_without_foods (toLowerCase : Str.case_mapping)
  (recipes : list Recipe) (recipe : Recipe) :
  recipe ∈ Views.getAvailableRecipes toLowerCase recipes [] ↔
  recipe ∈ recipes ∧ recipe_ingredients recipe = [].
Proof.
  rewrite available_elem. split; intros [Hin H]; (split; [done |]).
  - destruct (recipe_ingredients recipe) as [|ingredient l]; [done |].
    destruct (H ingredient) as (food & Hf & _); [constructor |].
    by apply elem_of_nil in Hf.
  - rewrite H. intros ingredient Hing. by apply elem_of_nil in Hing.
Qed.

(** An ingredient left without a name matches every food: it is covered as
    soon as some food holds the required quantity, whatever that food is.  In
    particular the blank ingredient a new recipe form starts with is covered
    by any food of quantity at least 1. *)
Theorem nameless_ingredient_covered (toLowerCase : Str.case_mapping)
  (foods : list Food) (ingredient : Ingredient) :
  ing_name ingredient = "" →
  (covered toLowerCase foods ingredient ↔
   ∃ food, food ∈ foods ∧ Number.Le (ing_quantity ingredient) (food_quantity food))
  ∧ (covered toLowerCase foods RecipeForm.blankIngredient ↔
     ∃ food, food ∈ foods ∧ Number.Le (Number.of_Z 1) (food_quantity food)).
Proof.
  assert (Hany : ∀ s, contains_ignoring_case toLowerCase s "").
  { intros s. apply includes_spec, includes_lowered_empty. }
  intros Hname. unfold covered. rewrite Hname.
  cbn [RecipeForm.blankIngredient ing_name ing_quantity].
  split; split; intros (food & Hin & H); exists food; (split; [done |]);
    first [by destruct H | by split].
Qed.

Lemma nameless_ingredient_covered_witness :
  covered Sample.toLowerCase [Sample.eggs] RecipeForm.blankIngredient.
Proof.
  apply (nameless_ingredient_covered Sample.toLowerCase [Sample.eggs]
           RecipeForm.blankIngredient);
    [reflexivity |].
  exists Sample.eggs. split; [apply list_elem_of_In; simpl; auto |].
  apply Number_le_spec. reflexivity.
Defined.

(** ** Deleting, adding and updating, in any state *)

Section ByIdMore.

Context {A : Type} (id_of : A → number).

Lemma unique_ids_cons (a : A) (l : list A) :
  unique_ids id_of (a :: l) ↔
  (∀ b, b ∈ l → Number.strict_eq (id_of a) (id_of b) = false)
  ∧ unique_ids id_of l.
Proof.
  split.
  - intros Huniq. split.
    + intros b Hb. apply list_elem_of_lookup in Hb as [j Hj].
      destruct (Number.strict_eq (id_of a) (id_of b)) eqn:Hab; [| done].
      by specialize (Huniq 0%nat (S j) a b eq_refl Hj Hab).
    + intros i j b c Hi Hj Hbc.
      specialize (Huniq (S i) (S j) b c Hi Hj Hbc). by injection Huniq.
  - intros [Hhead Huniq] [|i] [|j] b c Hi Hj Hbc; simpl in Hi, Hj.
    + done.
    + injection Hi as <-. apply list_elem_of_lookup_2 in Hj.
      by rewrite (Hhead c Hj) in Hbc.
    + injection Hj as <-. apply list_elem_of_lookup_2 in Hi.
      rewrite Number_strict_eq_sym in Hbc. by rewrite (Hhead b Hi) in Hbc.
    + f_equal. by apply (Huniq i j b c).
Qed.

Lemma unique_ids_filter (f : A → bool) (l : list A) :
  unique_ids id_of l → unique_ids id_of (List.filter f l).
Proof.
  induction l as [|a l IH]; [done |]. rewrite unique_ids_cons.
  intros [Hhead Huniq]. simpl. destruct (f a); [| by apply IH].
  apply unique_ids_cons. split; [| by apply IH].
  intros b Hb. apply filter_elem_of in Hb as [Hb _]. by apply Hhead.
Qed.

Lemma unique_ids_replace (u : A) (l : list A) :
  unique_ids id_of l →
  unique_ids id_of
    (List.map (λ x, if Number.strict_eq (id_of x) (id_of u) then u else x) l).
Proof.
  induction l as [|a l IH]; [done |]. rewrite unique_ids_cons.
  intros [Hhead Huniq]. cbn [List.map]. apply unique_ids_cons.
  split; [| by apply IH].
  intros b Hb. apply list_elem_of_In, in_map_iff in Hb as (c & <- & Hc).
  apply list_elem_of_In in Hc. specialize (Hhead c Hc).
  destruct (Number.strict_eq (id_of a) (id_of u)) eqn:Hau,
           (Number.strict_eq (id_of c) (id_of u)) eqn:Hcu; try done.
  - rewrite Number_strict_eq_sym in Hcu.
    by rewrite (Number_strict_eq_trans _ _ _ Hau Hcu) in Hhead.
  - destruct (Number.strict_eq (id_of u) (id_of c)) eqn:Huc; [| done].
    by rewrite (Number_strict_eq_trans _ _ _ Hau Huc) in Hhead.
Qed.

Lemma filter_removes_all (id : number) (l : list A) :
  absent id_of id (List.filter (λ x, Number.strict_ne (id_of x) id) l).
Proof.
  intros a Ha. apply filter_elem_of in Ha as [_ Ha].
  unfold Number.strict_ne in Ha. by apply negb_true_iff in Ha.
Qed.

Lemma filter_snoc_fresh (new : A) (l : list A) :
  Number.strict_eq (id_of new) (id_of new) = true →
  absent id_of (id_of new) l →
  List.filter (λ x, Number.strict_ne (id_of x) (id_of new)) (l ++ [new]) = l.
Proof.
  intros Hself Habs. rewrite List.filter_app. cbn [List.filter].
  unfold Number.strict_ne at 2. rewrite Hself. cbn.
  rewrite app_nil_r. by apply filter_absent.
Qed.

End ByIdMore.

(** After [deleteFood] (and likewise [deleteRecipe]) no record with the
    deleted identity is left, even when several carried it; every record with
    another identity is kept; and deleting the same identity again changes
    nothing. *)
Theorem delete_leaves_none (id : number) (st : State) :
  (absent food_id id (foods (Lifecycle.deleteFood id st))
   ∧ (∀ food, food ∈ foods st → Number.strict_eq (food_id food) id = false →
        food ∈ foods (Lifecycle.deleteFood id st))
   ∧ Lifecycle.deleteFood id (Lifecycle.deleteFood id st)
     = Lifecycle.deleteFood id st)
  ∧ (absent recipe_id id (recipes (Lifecycle.deleteRecipe id st))
     ∧ (∀ recipe, recipe ∈ recipes st →
          Number.strict_eq (recipe_id recipe) id = false →
          recipe ∈ recipes (Lifecycle.deleteRecipe id st))
     ∧ Lifecycle.deleteRecipe id (Lifecycle.deleteRecipe id st)
       = Lifecycle.deleteRecipe id st).
Proof.
  split; split_and!.
  - apply filter_removes_all.
  - intros food Hin Hne. apply filter_elem_of. split; [done |].
    unfold Number.strict_ne. by rewrite Hne.
  - unfold Lifecycle.deleteFood, Lifecycle.removeFood. cbn [foods recipes
      showAddFood showAddRecipe editingFood editingRecipe]. f_equal.
    apply filter_absent, filter_removes_all.
  - apply filter_removes_all.
  - intros recipe Hin Hne. apply filter_elem_of. split; [done |].
    unfold Number.strict_ne. by rewrite Hne.
  - unfold Lifecycle.deleteRecipe, Lifecycle.removeRecipe. cbn [foods recipes
      showAddFood showAddRecipe editingFood editingRecipe]. f_equal.
    apply filter_absent, filter_removes_all.
Qed.

(** Deleting a record right after it was added, under an identity no other
    record carries, gives back the collection as it was. *)
Theorem add_then_delete (env : Env) (st : State) :
  (∀ foodData,
     absent food_id (food_id (Lifecycle.newFood env foodData)) (foods st) →
     foods (Lifecycle.deleteFood (food_id (Lifecycle.newFood env foodData))
              (Lifecycle.addFood env foodData st)) = foods st)
  ∧ (∀ recipeData,
       absent recipe_id (recipe_id (Lifecycle.newRecipe env recipeData)) (recipes st) →
       recipes (Lifecycle.deleteRecipe (recipe_id (Lifecycle.newRecipe env recipeData))
                  (Lifecycle.addRecipe env recipeData st)) = recipes st).
Proof.
  split.
  - intros foodData Habs. apply (filter_snoc_fresh food_id); [| done].
    apply strict_eq_self.
  - intros recipeData Habs. apply (filter_snoc_fresh recipe_id); [| done].
    apply strict_eq_self.
Qed.

Lemma add_then_delete_witness :
  foods (Lifecycle.deleteFood
           (food_id (Lifecycle.newFood Sample.env (Sample.milkData (Num 1))))
           (Lifecycle.addFood Sample.env (Sample.milkData (Num 1))
              (Sample.state [Sample.milk; Sample.wholeMilk] [])))
  = [Sample.milk; Sample.wholeMilk].
Proof.
  apply (proj1 (add_then_delete Sample.env
                  (Sample.state [Sample.milk; Sample.wholeMilk] []))
           (Sample.milkData (Num 1))).
  intros food Hin. apply list_elem_of_In in Hin. simpl in Hin.
  destruct Hin as [<- | [<- | []]]; reflexivity.
Defined.

(** Identities that are unique stay unique under [updateFood], [deleteFood],
    [updateRecipe] and [deleteRecipe], whatever is updated or deleted; an
    update also keeps the number of records. *)
Theorem unique_ids_kept (st : State) :
  (unique_ids food_id (foods st) →
   (∀ id, unique_ids food_id (foods (Lifecycle.deleteFood id st)))
   ∧ (∀ foodData st',
        Lifecycle.updateFood foodData st = Done st' →
        unique_ids food_id (foods st')
        ∧ length (foods st') = length (foods st)))
  ∧ (unique_ids recipe_id (recipes st) →
     (∀ id, unique_ids recipe_id (recipes (Lifecycle.deleteRecipe id st)))
     ∧ (∀ recipeData st',
          Lifecycle.updateRecipe recipeData st = Done st' →
          unique_ids recipe_id (recipes st')
          ∧ length (recipes st') = length (recipes st))).
Proof.
  split; intros Huniq; split.
  - intros id. by apply unique_ids_filter.
  - intros foodData st' Hrun. unfold Lifecycle.updateFood in Hrun.
    destruct (editingFood st) as [editing |]; [| done]. injection Hrun as <-.
    cbn [foods]. unfold Lifecycle.replaceFood. split; [| apply length_map].
    by apply (unique_ids_replace food_id).
  - intros id. by apply unique_ids_filter.
  - intros recipeData st' Hrun. unfold Lifecycle.updateRecipe in Hrun.
    destruct (editingRecipe st) as [editing |]; [| done]. injection Hrun as <-.
    cbn [recipes]. unfold Lifecycle.replaceRecipe. split; [| apply length_map].
    by apply (unique_ids_replace recipe_id).
Qed.

Lemma sample_unique :
  unique_ids food_id [Sample.milk; Sample.wholeMilk; Sample.eggs].
Proof.
  apply unique_ids_cons. split.
  - intros b Hb. apply list_elem_of_In in Hb. simpl in Hb.
    destruct Hb as [<- | [<- | []]]; reflexivity.
  - apply unique_ids_cons. split.
    + intros b Hb. apply list_elem_of_In in Hb. simpl in Hb.
      destruct Hb as [<- | []]; reflexivity.
    + apply unique_ids_cons. split; [intros b Hb; by apply elem_of_nil in Hb |].
      intros i j a b Hi. by rewrite lookup_nil in Hi.
Qed.

Lemma delete_leaves_none_witness :
  Sample.eggs
    ∈ foods (Lifecycle.deleteFood (food_id Sample.milk)
               (Sample.state [Sample.milk; Sample.eggs; Sample.milk] [])).
Proof.
  apply (delete_leaves_none (food_id Sample.milk)
           (Sample.state [Sample.milk; Sample.eggs; Sample.milk] [])).
  - apply list_elem_of_In; simpl; auto.
  - reflexivity.
Defined.

Lemma unique_ids_kept_witness :
  unique_ids food_id
    (foods (Lifecycle.deleteFood (food_id Sample.milk) Sample.editingWholeMilk))
  ∧ (∀ st', Lifecycle.updateFood (Sample.milkData (Num 3)) Sample.editingWholeMilk
            = Done st' →
            unique_ids food_id (foods st') ∧ length (foods st') = 3%nat).
Proof.
  destruct (proj1 (unique_ids_kept Sample.editingWholeMilk) sample_unique)
    as [Hdelete Hupdate].
  split.
  - apply Hdelete.
  - intros st' Hrun. apply (Hupdate _ _ Hrun).
Defined.

(** ** Trimming *)

Lemma rev_onto_append (s acc : string) :
  Str.rev_onto s acc = String.append (Str.rev_onto s EmptyString) acc.
Proof.
  revert acc. induction s as [|c s IH]; intros acc; cbn [Str.rev_onto]; [done |].
  rewrite (IH (String c acc)), (IH (String c EmptyString)).
  by rewrite append_assoc.
Qed.

Lemma rev_onto_length (a b : string) :
  String.length (Str.rev_onto a b) = (String.length a + String.length b)%nat.
Proof.
  revert b. induction a as [| c a IH]; intros b; [done |].
  cbn. rewrite IH. cbn. lia.
Qed.

Lemma reverse_append (a b : string) :
  Str.reverse (String.append a b)
  = String.append (Str.reverse b) (Str.reverse a).
Proof.
  unfold Str.reverse. induction a as [|c a IH].
  - by rewrite append_empty_l, append_empty_r.
  - rewrite append_cons. cbn [Str.rev_onto].
    rewrite (rev_onto_append (String.append a b) (String c EmptyString)), IH,
      (rev_onto_append a (String c EmptyString)).
    by rewrite append_assoc.
Qed.

Lemma reverse_involutive (s : string) : Str.reverse (Str.reverse s) = s.
Proof.
  unfold Str.reverse. induction s as [|c s IH]; [done |]. cbn [Str.rev_onto].
  rewrite (rev_onto_append s (String c EmptyString)).
  fold (Str.reverse (String.append (Str.rev_onto s EmptyString) (String c EmptyString))).
  rewrite reverse_append. unfold Str.reverse. by rewrite IH.
Qed.

Lemma reverse_length (s : string) : String.length (Str.reverse s) = String.length s.
Proof. unfold Str.reverse. rewrite rev_onto_length. cbn. lia. Qed.

(** The entries of [Str.white_space] are the UTF-8 texts of the white space
    code points, one for one. *)
Lemma white_space_utf8 : Str.white_space = List.map utf8 WhiteSpace.
Proof. reflexivity. Qed.

Lemma strip_prefix_spec (w s rest : string) :
  Str.strip_prefix w s = Some rest ↔ s = String.append w rest.
Proof.
  revert s. induction w as [|a w IH]; intros s; cbn [Str.strip_prefix].
  - rewrite append_empty_l. split; [by intros [= ->] | by intros ->].
  - destruct s as [|b s]; [by rewrite append_cons |].
    rewrite append_cons. destruct (Ascii.eqb_spec a b) as [-> | Hne].
    + rewrite IH. split; [by intros -> | by intros [= ->]].
    + split; [done | intros [= ? _]; congruence].
Qed.

Lemma strip_first_some (table : list string) (s rest : string) :
  Str.strip_first table s = Some rest →
  ∃ w, w ∈ table ∧ s = String.append w rest.
Proof.
  induction table as [|w table IH]; cbn [Str.strip_first]; [done |].
  destruct (Str.strip_prefix w s) as [rest' |] eqn:Hw.
  - intros [= ->]. exists w. split; [constructor | by apply strip_prefix_spec].
  - intros Hrest. destruct (IH Hrest) as (w' & Hin & Hs).
    exists w'. split; [by constructor | done].
Qed.

Lemma strip_first_none (table : list string) (s : string) :
  Str.strip_first table s = None ↔
  ∀ w u, w ∈ table → s ≠ String.append w u.
Proof.
  induction table as [|w table IH]; cbn [Str.strip_first].
  - split; [| done]. intros _ w u Hw. by apply elem_of_nil in Hw.
  - destruct (Str.strip_prefix w s) as [rest |] eqn:Hw.
    + split; [done |]. intros Hnone. apply strip_prefix_spec in Hw.
      destruct (Hnone w rest); [constructor | done].
    + rewrite IH. split.
      * intros Hnone w' u Hin Hs. apply elem_of_cons in Hin as [-> | Hin].
        -- apply strip_prefix_spec in Hs. congruence.
        -- by apply (Hnone w' u).
      * intros Hnone w' u Hin. apply Hnone. by constructor.
Qed.

Lemma made_of_app (table : list string) (a b : string) :
  made_of table a → made_of table b → made_of table (String.append a b).
Proof.
  intros Ha Hb. induction Ha as [|w a Hw Ha IH]; [done |].
  rewrite append_assoc. by constructor.
Qed.

Lemma made_of_one (table : list string) (w : string) :
  w ∈ table → made_of table w.
Proof.
  intros Hw. rewrite <- (append_empty_r w). constructor; [done | constructor].
Qed.

Lemma made_of_reverse (table : list string) (s : string) :
  made_of (List.map Str.reverse table) s → made_of table (Str.reverse s).
Proof.
  intros Hs. induction Hs as [|w s Hw Hs IH]; [constructor |].
  rewrite reverse_append. apply made_of_app; [done |].
  apply list_elem_of_In, in_map_iff in Hw as (w' & <- & Hw').
  rewrite reverse_involutive. by apply made_of_one, list_elem_of_In.
Qed.

(** Taking entries off the front leaves a run of entries behind. *)
Lemma strip_all_split (table : list string) (fuel : nat) (s : string) :
  ∃ pre, s = String.append pre (Str.strip_all table fuel s) ∧ made_of table pre.
Proof.
  revert s. induction fuel as [|fuel IH]; intros s; cbn [Str.strip_all].
  - exists EmptyString. split; [done | constructor].
  - destruct (Str.strip_first table s) as [rest |] eqn:Hfirst.
    + apply strip_first_some in Hfirst as (w & Hw & ->).
      destruct (IH rest) as (pre & Hrest & Hpre).
      exists (String.append w pre). split; [| by constructor].
      by rewrite append_assoc, <- Hrest.
    + exists EmptyString. split; [done | constructor].
Qed.

(** With the length of the text as fuel, no entry is left at the front. *)
Lemma strip_all_done (table : list string) (fuel : nat) (s : string) :
  (∀ w, w ∈ table → w ≠ EmptyString) →
  (String.length s <= fuel)%nat →
  Str.strip_first table (Str.strip_all table fuel s) = None.
Proof.
  intros Hne. revert s. induction fuel as [|fuel IH]; intros s Hlen;
    cbn [Str.strip_all].
  - destruct s as [|c s]; [| cbn in Hlen; lia].
    apply strip_first_none. intros w u Hw Hs.
    destruct w as [|a w]; [by apply (Hne EmptyString) | done].
  - destruct (Str.strip_first table s) as [rest |] eqn:Hfirst; [| done].
    apply IH. apply strip_first_some in Hfirst as (w & Hw & ->).
    rewrite append_length in Hlen.
    destruct w as [|a w]; [by destruct (Hne EmptyString) |]. cbn in Hlen. lia.
Qed.

Lemma white_space_nonempty (w : string) : w ∈ Str.white_space → w ≠ EmptyString.
Proof.
  intros Hw ->. apply list_elem_of_In in Hw. cbn in Hw.
  repeat (destruct Hw as [Hw | Hw]; [discriminate Hw |]). done.
Qed.

Lemma reversed_nonempty (w : string) :
  w ∈ List.map Str.reverse Str.white_space → w ≠ EmptyString.
Proof.
  intros Hw ->. apply list_elem_of_In in Hw. cbn in Hw.
  repeat (destruct Hw as [Hw | Hw]; [discriminate Hw |]). done.
Qed.

(** No white space text starts another one. *)
Lemma white_space_prefix_free (w w' a b : string) :
  w ∈ Str.white_space → w' ∈ Str.white_space →
  String.append w a = String.append w' b → w = w'.
Proof.
  intros Hw Hw'. apply list_elem_of_In in Hw, Hw'. cbn in Hw, Hw'.
  repeat (destruct Hw as [<- | Hw]; [| try done]);
    repeat (destruct Hw' as [<- | Hw']; [| try done]);
    cbn; intros H; first [reflexivity | discriminate H].
Qed.

Lemma trim_start_split (s : string) :
  ∃ pre, s = String.append pre (Str.trim_start s)
    ∧ white pre
    ∧ ∀ w u, w ∈ Str.white_space → Str.trim_start s ≠ String.append w u.
Proof.
  destruct (strip_all_split Str.white_space (String.length s) s) as (pre & Hs & Hpre).
  exists pre. split_and!; [done | unfold white; by rewrite <- white_space_utf8 |].
  apply strip_first_none, strip_all_done; [apply white_space_nonempty | done].
Qed.

Lemma trim_end_split (s : string) :
  ∃ post, s = String.append (Str.trim_end s) post
    ∧ white post
    ∧ ∀ w u, w ∈ Str.white_space → Str.trim_end s ≠ String.append u w.
Proof.
  unfold Str.trim_end.
  set (table := List.map Str.reverse Str.white_space).
  destruct (strip_all_split table (String.length s) (Str.reverse s))
    as (pre & Hs & Hpre).
  exists (Str.reverse pre). split_and!.
  - by rewrite <- reverse_append, <- Hs, reverse_involutive.
  - unfold white. rewrite <- white_space_utf8. by apply made_of_reverse.
  - intros w u Hw Hend.
    assert (Hnone : Str.strip_first table
                      (Str.strip_all table (String.length s) (Str.reverse s)) = None).
    { apply strip_all_done; [apply reversed_nonempty |]. by rewrite reverse_length. }
    apply (f_equal Str.reverse) in Hend.
    rewrite reverse_involutive, reverse_append in Hend.
    rewrite strip_first_none in Hnone.
    apply (Hnone (Str.reverse w) (Str.reverse u)); [| done].
    apply list_elem_of_In, in_map, list_elem_of_In, Hw.
Qed.

(** [trim] takes away a run of white space at each end and nothing else; what
    is left neither starts nor ends with white space. *)
Lemma trim_split (s : string) :
  ∃ pre post,
    s = String.append pre (String.append (Str.trim s) post)
    ∧ white pre ∧ white post
    ∧ trimmed (Str.trim s).
Proof.
  destruct (trim_start_split s) as (pre & Hs & Hpre & Hhead).
  destruct (trim_end_split (Str.trim_start s)) as (post & Ht & Hpost & Hlast).
  exists pre, post. unfold Str.trim. split_and!; try done.
  - by rewrite <- Ht.
  - intros cp u Hcp.
    assert (Hw : utf8 cp ∈ Str.white_space).
    { rewrite white_space_utf8. by apply list_elem_of_In, in_map, list_elem_of_In. }
    split; [| by apply Hlast].
    intros Hu. apply (Hhead (utf8 cp) (String.append u post) Hw).
    by rewrite Ht, Hu, append_assoc.
Qed.

Lemma white_strip_all (fuel : nat) (s : string) :
  made_of Str.white_space s → (String.length s <= fuel)%nat →
  Str.strip_all Str.white_space fuel s = EmptyString.
Proof.
  intros Hs. revert fuel. induction Hs as [|w s Hw Hs IH]; intros fuel Hlen.
  - by destruct fuel.
  - pose proof (white_space_nonempty w Hw) as Hne.
    rewrite append_length in Hlen.
    destruct fuel as [|fuel]; [destruct w; [done | cbn in Hlen; lia] |].
    cbn [Str.strip_all].
    destruct (Str.strip_first Str.white_space (String.append w s))
      as [rest |] eqn:Hfirst.
    + apply strip_first_some in Hfirst as (w' & Hw' & Heq).
      pose proof (white_space_prefix_free w w' s rest Hw Hw' Heq) as <-.
      apply append_inj_l in Heq as <-. apply IH.
      destruct w; [done | cbn in Hlen; lia].
    + rewrite strip_first_none in Hfirst. by destruct (Hfirst w s Hw).
Qed.

(** [trim] leaves nothing exactly of the texts that are white space only. *)
Lemma trim_empty_iff (s : string) : Str.trim s = EmptyString ↔ white s.
Proof.
  split.
  - intros Hempty.
    destruct (trim_split s) as (pre & post & Hs & Hpre & Hpost & _).
    rewrite Hempty, append_empty_l in Hs. rewrite Hs. by apply made_of_app.
  - intros Hwhite. unfold white in Hwhite. rewrite <- white_space_utf8 in Hwhite.
    unfold Str.trim, Str.trim_start. by rewrite white_strip_all.
Qed.

Example trim_no_break_space :
  Str.trim (String.append Sample.nbsp (String.append " Milk" Sample.nbsp)) = "Milk"
  ∧ Str.trim (String.append Sample.nbsp " ") = ""
  ∧ Str.trim "Whole Milk" = "Whole Milk".
Proof. split_and!; reflexivity. Qed.

(** ** Submitting the forms *)

Lemma truthy_nonempty (s : string) : Str.truthy s = true ↔ s ≠ EmptyString.
Proof. by destruct s. Qed.

Lemma truthy_trim (s : string) : Str.truthy (Str.trim s) = true ↔ ¬ white s.
Proof. by rewrite truthy_nonempty, trim_empty_iff. Qed.

(** The food form refuses a name that is white space only and an empty date:
    it alerts and the state stays as it is, for a new food and for an edit.
    Otherwise it submits, and the name it submits is the typed one without
    the white space around it: not empty, and neither starting nor ending with
    white space; a new food is appended under that name. *)
Theorem food_form_submit (env : Env) (formData : FoodData) (st : State) :
  (white (fd_name formData) ∨ fd_expiryDate formData = EmptyString →
   (∃ msg, FoodForm.handleAddClick formData = FoodForm.Alerted msg)
   ∧ FoodForm.submitNew env formData st = st
   ∧ FoodForm.submitEdit formData st = Done st)
  ∧ (¬ white (fd_name formData) →
     fd_expiryDate formData ≠ EmptyString →
     ∃ d, FoodForm.handleAddClick formData = FoodForm.Submitted d
       ∧ fd_name d = Str.trim (fd_name formData)
       ∧ fd_name d ≠ EmptyString
       ∧ trimmed (fd_name d)
       ∧ (∃ pre post,
            fd_name formData = String.append pre (String.append (fd_name d) post)
            ∧ white pre ∧ white post)
       ∧ fd_expiryDate d = fd_expiryDate formData
       ∧ foods (FoodForm.submitNew env formData st)
         = foods st ++ [Lifecycle.newFood env d]
       ∧ recipes (FoodForm.submitNew env formData st) = recipes st).
Proof.
  split.
  - intros Hbad.
    assert (Halert : ∃ msg, FoodForm.handleAddClick formData = FoodForm.Alerted msg).
    { unfold FoodForm.handleAddClick.
      destruct (Str.truthy (Str.trim (fd_name formData))) eqn:Hname; [| by eexists].
      apply truthy_trim in Hname.
      destruct Hbad as [? | ->]; [done | by eexists]. }
    split; [done |]. destruct Halert as [msg Hmsg].
    unfold FoodForm.submitNew, FoodForm.submitEdit. by rewrite Hmsg.
  - intros Hname Hdate.
    assert (Hsub : FoodForm.handleAddClick formData
                   = FoodForm.Submitted (FoodForm.processedData formData)).
    { unfold FoodForm.handleAddClick.
      apply truthy_trim in Hname. apply truthy_nonempty in Hdate.
      by rewrite Hname, Hdate. }
    exists (FoodForm.processedData formData).
    destruct (trim_split (fd_name formData)) as (pre & post & Hs & Hpre & Hpost & Htr).
    split_and!; try done.
    + cbn. intros Hempty. by apply trim_empty_iff in Hempty.
    + by exists pre, post.
    + unfold FoodForm.submitNew. by rewrite Hsub.
    + unfold FoodForm.submitNew. by rewrite Hsub.
Qed.

Lemma food_form_submit_witness :
  FoodForm.submitNew Sample.env (Sample.milkData (Num 0)) (Sample.state [Sample.eggs] [])
  = Sample.state [Sample.eggs;
                  {| food_id :=
                       Num (Number.to_double (inject_Z 1700000000300 + 0.5));
                     food_name := "Milk"; food_category := "lácteos";
                     food_quantity := Num 1; food_unit := "l";
                     food_expiryDate := "2024-03-15"; food_notes := "";
                     food_dateAdded := "2023-11-14T22:18:20.300Z";
                     food_keys := Sample.foodKeys |}] []
  ∧ FoodForm.submitNew Sample.env
      {| fd_name := String.append Sample.nbsp "  "; fd_category := "otros";
         fd_quantity := Num 1; fd_unit := "kg"; fd_expiryDate := "2024-03-15";
         fd_notes := ""; fd_keys := Sample.formKeys |}
      (Sample.state [Sample.eggs] [])
    = Sample.state [Sample.eggs] [].
Proof.
  split.
  - destruct (proj2 (food_form_submit Sample.env (Sample.milkData (Num 0))
                       (Sample.state [Sample.eggs] [])))
      as (d & Hsub & _); [| discriminate |].
    + intros Hwhite. apply trim_empty_iff in Hwhite. discriminate Hwhite.
    + unfold FoodForm.submitNew. rewrite Hsub. injection Hsub as <-. reflexivity.
  - apply (proj1 (food_form_submit Sample.env _ (Sample.state [Sample.eggs] []))).
    left. by apply trim_empty_iff.
Defined.

Lemma or_else_nonempty (s d : string) : s ≠ EmptyString → Str.or_else s d = s.
Proof. by destruct s. Qed.

Lemma or_else_empty (s : string) : Str.or_else s EmptyString = s.
Proof. by destruct s. Qed.

Lemma strip_all_none (table : list string) (fuel : nat) (s : string) :
  Str.strip_first table s = None → Str.strip_all table fuel s = s.
Proof. intros H. destruct fuel; cbn [Str.strip_all]; [done | by rewrite H]. Qed.

(** [trim] leaves a text as it is exactly when the text neither starts nor
    ends with white space. *)
Lemma trim_trimmed (s : string) : Str.trim s = s ↔ trimmed s.
Proof.
  split.
  - intros Hs. rewrite <- Hs. by destruct (trim_split s) as (? & ? & _ & _ & _ & H).
  - intros Htr.
    assert (Hstart : Str.trim_start s = s).
    { unfold Str.trim_start. apply strip_all_none, strip_first_none.
      intros w u Hw. rewrite white_space_utf8 in Hw.
      apply list_elem_of_In, in_map_iff in Hw as (cp & <- & Hcp).
      apply list_elem_of_In in Hcp. by apply Htr. }
    unfold Str.trim. rewrite Hstart. unfold Str.trim_end.
    rewrite strip_all_none; [apply reverse_involutive |].
    apply strip_first_none. intros w u Hw Hs.
    apply list_elem_of_In, in_map_iff in Hw as (w0 & <- & Hw0).
    rewrite <- list_elem_of_In, white_space_utf8 in Hw0.
    apply list_elem_of_In, in_map_iff in Hw0 as (cp & <- & Hcp).
    apply list_elem_of_In in Hcp.
    apply (f_equal Str.reverse) in Hs.
    rewrite reverse_involutive, reverse_append, reverse_involutive in Hs.
    by apply (Htr cp (Str.reverse u)).
Qed.

Lemma assign_present (k : string) (keys : list string) :
  k ∈ keys → Keys.assign k keys = keys.
Proof.
  intros Hk. unfold Keys.assign.
  replace (existsb (String.eqb k) keys) with true; [done |].
  symmetry. apply existsb_exists. exists k.
  split; [by apply list_elem_of_In | apply String.eqb_refl].
Qed.

Lemma assign_absent (k : string) (keys : list string) :
  k ∉ keys → Keys.assign k keys = keys ++ [k].
Proof.
  intros Hk. unfold Keys.assign.
  destruct (existsb (String.eqb k) keys) eqn:Hex; [| done].
  apply existsb_exists in Hex as (k' & Hin & Heq).
  apply String.eqb_eq in Heq as <-. by apply list_elem_of_In in Hin.
Qed.

(** Opening the edit form on a record and submitting it untouched closes the
    form and keeps every value of the record, but not the order of its keys:
    they come out in the order of the form, followed by the identity and the
    date of creation.  So the collection is left as it was exactly when the
    record had its keys in that order already.  For a food this needs a name
    that is not empty and neither starts nor ends with white space, a
    category, a unit and a date that are not empty, and a quantity that is
    neither zero nor NaN; for a recipe, servings that are neither zero nor
    NaN. *)
Theorem edit_untouched (st : State) (i : nat) :
  (∀ food,
     editingFood st = Some food →
     foods st !! i = Some food →
     only_match food_id (food_id food) i (foods st) →
     trimmed (food_name food) →
     food_name food ≠ EmptyString →
     food_category food ≠ EmptyString →
     food_unit food ≠ EmptyString →
     food_expiryDate food ≠ EmptyString →
     Number.truthy (food_quantity food) = true →
     FoodForm.submitEdit (FoodFormState.initial (Some food)) st
     = Done {| foods := <[i := food_with_keys edited_food_keys food]> (foods st);
               recipes := recipes st;
               showAddFood := showAddFood st; showAddRecipe := showAddRecipe st;
               editingFood := None; editingRecipe := editingRecipe st |}
     ∧ (<[i := food_with_keys edited_food_keys food]> (foods st) = foods st
        ↔ food_keys food = edited_food_keys))
  ∧ (∀ recipe,
       editingRecipe st = Some recipe →
       recipes st !! i = Some recipe →
       only_match recipe_id (recipe_id recipe) i (recipes st) →
       Number.truthy (recipe_servings recipe) = true →
       RecipeForm.submitEdit (RecipeForm.initial (Some recipe)) st
       = Done {| foods := foods st;
                 recipes :=
                   <[i := recipe_with_keys edited_recipe_keys recipe]> (recipes st);
                 showAddFood := showAddFood st; showAddRecipe := showAddRecipe st;
                 editingFood := editingFood st; editingRecipe := None |}
       ∧ (<[i := recipe_with_keys edited_recipe_keys recipe]> (recipes st)
          = recipes st
          ↔ recipe_keys recipe = edited_recipe_keys)).
Proof.
  split.
  - intros food Hed Hi Honly Htrim Hname Hcat Hunit Hdate Hqty.
    apply trim_trimmed in Htrim. split.
    + assert (Hinit : FoodFormState.initial (Some food)
                      = {| fd_name := food_name food;
                           fd_category := food_category food;
                           fd_quantity := food_quantity food;
                           fd_unit := food_unit food;
                           fd_expiryDate := food_expiryDate food;
                           fd_notes := food_notes food;
                           fd_keys := ["name"; "category"; "quantity"; "unit";
                                       "expiryDate"; "notes"] |}).
      { unfold FoodFormState.initial, Number.or_else. cbv zeta.
        by rewrite !or_else_empty, !or_else_nonempty, Hqty. }
      assert (Hsub : FoodForm.handleAddClick (FoodFormState.initial (Some food))
                     = FoodForm.Submitted (FoodFormState.initial (Some food))).
      { rewrite Hinit. unfold FoodForm.handleAddClick, FoodForm.processedData,
          FoodForm.Number_, Number.or_else.
        cbn [fd_name fd_category fd_quantity fd_unit fd_expiryDate fd_notes fd_keys].
        rewrite Htrim, Hqty. apply truthy_nonempty in Hname, Hdate.
        by rewrite Hname, Hdate. }
      unfold FoodForm.submitEdit. rewrite Hsub, Hinit.
      by rewrite (updateFood_only_match st i food _ Hed Honly).
    + split.
      * intros Heq. apply (f_equal (λ l, l !! i)) in Heq.
        rewrite list_lookup_insert_eq in Heq by (by apply lookup_lt_Some in Hi).
        rewrite Hi in Heq. injection Heq as Heq.
        by rewrite <- Heq.
      * intros Hkeys. apply list_insert_id. rewrite Hi. f_equal.
        destruct food. cbn in Hkeys. by rewrite <- Hkeys.
  - intros recipe Hed Hi Honly Hserv. split.
    + assert (Hinit : RecipeForm.initial (Some recipe)
                      = {| rd_name := recipe_name recipe;
                           rd_description := recipe_description recipe;
                           rd_instructions := recipe_instructions recipe;
                           rd_cookingTime := recipe_cookingTime recipe;
                           rd_servings := recipe_servings recipe;
                           rd_ingredients := recipe_ingredients recipe;
                           rd_keys := ["name"; "description"; "instructions";
                                       "cookingTime"; "servings"; "ingredients"] |}).
      { unfold RecipeForm.initial, Number.or_else. cbv zeta.
        by rewrite !or_else_empty, Hserv. }
      unfold RecipeForm.submitEdit, RecipeForm.handleSubmit. rewrite Hinit.
      by rewrite (updateRecipe_only_match st i recipe _ Hed Honly).
    + split.
      * intros Heq. apply (f_equal (λ l, l !! i)) in Heq.
        rewrite list_lookup_insert_eq in Heq by (by apply lookup_lt_Some in Hi).
        rewrite Hi in Heq. injection Heq as Heq.
        by rewrite <- Heq.
      * intros Hkeys. apply list_insert_id. rewrite Hi. f_equal.
        destruct recipe. cbn in Hkeys. by rewrite <- Hkeys.
Qed.

Lemma edit_untouched_witness :
  FoodForm.submitEdit (FoodFormState.initial (Some Sample.wholeMilk))
    Sample.editingWholeMilk
  = Done {| foods := [Sample.milk;
                      food_with_keys edited_food_keys Sample.wholeMilk;
                      Sample.eggs];
            recipes := [Sample.pancakes; Sample.water];
            showAddFood := false; showAddRecipe := false;
            editingFood := None; editingRecipe := Some Sample.water |}
  ∧ RecipeForm.submitEdit (RecipeForm.initial (Some Sample.water))
      Sample.editingWholeMilk
    = Done {| foods := [Sample.milk; Sample.wholeMilk; Sample.eggs];
              recipes := [Sample.pancakes; Sample.water];
              showAddFood := false; showAddRecipe := false;
              editingFood := Some Sample.wholeMilk; editingRecipe := None |}.
Proof.
  split.
  - apply (proj1 (edit_untouched Sample.editingWholeMilk 1) Sample.wholeMilk);
      try reflexivity; try discriminate; [exact sample_only_match |].
    apply trim_trimmed. reflexivity.
  - apply (proj2 (edit_untouched Sample.editingWholeMilk 1) Sample.water);
      try reflexivity. exact sample_recipe_only_match.
Defined.

(** A food that [addFood] wrote and that goes through the edit form untouched
    is written back, its keys in another order; a recipe that [addRecipe]
    wrote is not. *)
Example untouched_edit_written_back :
  Sync.saved <$>
    Sync.run Sample.keyed
      [Sync.SetFoods [food_with_keys edited_food_keys Sample.wholeMilk];
       Sync.SetRecipes [recipe_with_keys edited_recipe_keys Sample.water];
       Sync.Tick 500; Sync.Fire 1; Sync.Fire 2]
      (Sync.loaded Sample.keyed 0 (Sample.state [Sample.wholeMilk] [Sample.water]))
  = Some [(Sync.CFoods, [AFood (food_with_keys edited_food_keys Sample.wholeMilk)])].
Proof. vm_compute. reflexivity. Qed.

(** A stored quantity of zero does not survive an untouched edit: the form
    opens on 1 and submits 1. *)
Example edit_untouched_zero :
  fd_quantity
    (FoodFormState.initial
       (Some {| food_id := Num 9; food_name := "Salt"; food_category := "condimentos";
                food_quantity := Num 0; food_unit := "kg";
                food_expiryDate := "2030-01-01"; food_notes := "";
                food_dateAdded := "2024-03-01T08:00:00.000Z";
                food_keys := Sample.foodKeys |}))
  = Num 1.
Proof. reflexivity. Qed.

(** ** The ingredient rows of the recipe form *)

Lemma delete_beyond {A : Type} (index : nat) (l : list A) :
  (length l <= index)%nat → delete index l = l.
Proof.
  revert index. induction l as [|x l IH]; intros index Hge; [done |].
  destruct index as [|index]; simpl in *; [lia |]. f_equal. apply IH. lia.
Qed.

Lemma alter_beyond {A : Type} (f : A → A) (index : nat) (l : list A) :
  (length l <= index)%nat → alter f index l = l.
Proof.
  intros Hge. apply list_eq. intros j.
  destruct (decide (index = j)) as [<- | Hne].
  - by rewrite list_lookup_alter_eq, (lookup_ge_None_2 _ _ Hge).
  - by apply list_lookup_alter_ne.
Qed.

Lemma filter_index_keep_all {A : Type} (keep : nat → bool) (k : nat) (l : list A) :
  (∀ i, (k <= i)%nat → keep i = true) → RecipeForm.filter_index keep k l = l.
Proof.
  revert k. induction l as [|x l IH]; intros k Hkeep; [done |].
  cbn [RecipeForm.filter_index]. rewrite (Hkeep k) by lia. f_equal.
  apply IH. intros i Hi. apply Hkeep. lia.
Qed.

Lemma filter_index_delete {A : Type} (index k : nat) (l : list A) :
  RecipeForm.filter_index (λ i, negb (Nat.eqb i (k + index))) k l = delete index l.
Proof.
  revert index k. induction l as [|x l IH]; intros index k; [done |].
  cbn [RecipeForm.filter_index]. destruct index as [|index].
  - rewrite Nat.add_0_r, Nat.eqb_refl. cbn.
    apply filter_index_keep_all. intros i Hi.
    destruct (Nat.eqb_spec i k); [lia | done].
  - destruct (Nat.eqb_spec k (k + S index)) as [Heq | _]; [lia |]. cbn. f_equal.
    replace (k + S index)%nat with (S k + index)%nat by lia. apply IH.
Qed.

Lemma map_index_alter {A : Type} (f : A → A) (index k : nat) (l : list A) :
  RecipeForm.map_index (λ x i, if Nat.eqb i (k + index) then f x else x) k l
  = alter f index l.
Proof.
  revert index k. induction l as [|x l IH]; intros index k; [done |].
  cbn [RecipeForm.map_index]. destruct index as [|index].
  - rewrite Nat.add_0_r, Nat.eqb_refl. cbn. f_equal.
    clear IH. generalize (Nat.lt_succ_diag_r k). generalize (S k) as m.
    induction l as [|y l IH]; intros m Hm; [done |].
    cbn [RecipeForm.map_index].
    destruct (Nat.eqb_spec m k); [lia |]. f_equal. apply IH. lia.
  - destruct (Nat.eqb_spec k (k + S index)) as [Heq | _]; [lia |]. cbn. f_equal.
    replace (k + S index)%nat with (S k + index)%nat by lia. apply IH.
Qed.

(** The form data keep their keys as long as [ingredients] is among them, as
    it is from the start. *)
Lemma with_ingredients_keys (l : list Ingredient) (formData : RecipeData) :
  "ingredients" ∈ rd_keys formData →
  rd_keys (RecipeForm.with_ingredients l formData) = rd_keys formData.
Proof. intros Hk. by apply assign_present. Qed.

Lemma initial_has_ingredients (recipe : option Recipe) :
  "ingredients" ∈ rd_keys (RecipeForm.initial recipe).
Proof. destruct recipe; cbn; repeat constructor. Qed.

Lemma with_ingredients_same (formData : RecipeData) :
  "ingredients" ∈ rd_keys formData →
  RecipeForm.with_ingredients (rd_ingredients formData) formData = formData.
Proof.
  intros Hk. unfold RecipeForm.with_ingredients. rewrite (assign_present _ _ Hk).
  by destruct formData.
Qed.

(** The remove button of a row takes exactly that row out of the form and
    keeps the others in order; on form data that have their [ingredients]
    key, as those of the form always have, a position beyond the last row
    removes nothing, and removing the row that "add ingredient" has just
    appended gives the form back as it was. *)
Theorem removeIngredient_row (index : nat) (formData : RecipeData) :
  RecipeForm.removeIngredient index formData
  = RecipeForm.with_ingredients (delete index (rd_ingredients formData)) formData
  ∧ ((length (rd_ingredients formData) <= index)%nat →
     "ingredients" ∈ rd_keys formData →
     RecipeForm.removeIngredient index formData = formData)
  ∧ rd_ingredients (RecipeForm.addIngredient formData)
    = rd_ingredients formData ++ [RecipeForm.blankIngredient]
  ∧ ("ingredients" ∈ rd_keys formData →
     RecipeForm.removeIngredient (length (rd_ingredients formData))
       (RecipeForm.addIngredient formData) = formData)
  ∧ (∀ recipe, "ingredients" ∈ rd_keys (RecipeForm.initial recipe))
  ∧ (∀ l, "ingredients" ∈ rd_keys formData →
       rd_keys (RecipeForm.with_ingredients l formData) = rd_keys formData).
Proof.
  assert (Hdel : ∀ index fd, RecipeForm.removeIngredient index fd
            = RecipeForm.with_ingredients (delete index (rd_ingredients fd)) fd).
  { intros k fd. unfold RecipeForm.removeIngredient. f_equal.
    apply (filter_index_delete k 0). }
  split_and!; try done.
  - intros Hge Hk. rewrite Hdel, delete_beyond by done.
    by apply with_ingredients_same.
  - intros Hk. rewrite Hdel. unfold RecipeForm.addIngredient.
    cbn [RecipeForm.with_ingredients rd_ingredients].
    rewrite (delete_middle (rd_ingredients formData) [] RecipeForm.blankIngredient),
      app_nil_r.
    unfold RecipeForm.with_ingredients.
    cbn [rd_name rd_description rd_instructions rd_cookingTime rd_servings rd_keys].
    rewrite !(assign_present _ _ Hk). by destruct formData.
  - apply initial_has_ingredients.
  - intros l Hk. by apply with_ingredients_keys.
Qed.

Lemma removeIngredient_row_witness :
  RecipeForm.removeIngredient 5 (RecipeForm.initial (Some Sample.pancakes))
  = RecipeForm.initial (Some Sample.pancakes).
Proof.
  apply (proj1 (proj2 (removeIngredient_row 5
                         (RecipeForm.initial (Some Sample.pancakes))))).
  - simpl. lia.
  - apply initial_has_ingredients.
Defined.

(** Editing a field of a row changes that field of that row and nothing else:
    the other rows, the other fields of the row (its keys in their order among
    them, when the field is one of them), the number of rows and the rest of
    the form stay; on form data that have their [ingredients] key, a position
    beyond the last row changes nothing. *)
Theorem updateIngredient_row (index : nat) (c : RecipeForm.change)
  (formData : RecipeData) :
  RecipeForm.updateIngredient index c formData
  = RecipeForm.with_ingredients
      (alter (RecipeForm.apply c) index (rd_ingredients formData)) formData
  ∧ length (rd_ingredients (RecipeForm.updateIngredient index c formData))
    = length (rd_ingredients formData)
  ∧ (∀ j, j ≠ index →
       rd_ingredients (RecipeForm.updateIngredient index c formData) !! j
       = rd_ingredients formData !! j)
  ∧ (∀ ingredient, rd_ingredients formData !! index = Some ingredient →
       rd_ingredients (RecipeForm.updateIngredient index c formData) !! index
       = Some match c with
              | RecipeForm.Name value =>
                  mkIngredient value (ing_quantity ingredient) (ing_unit ingredient)
                    (Keys.assign "name" (ing_keys ingredient))
              | RecipeForm.Quantity value =>
                  mkIngredient (ing_name ingredient) value (ing_unit ingredient)
                    (Keys.assign "quantity" (ing_keys ingredient))
              | RecipeForm.Unit value =>
                  mkIngredient (ing_name ingredient) (ing_quantity ingredient) value
                    (Keys.assign "unit" (ing_keys ingredient))
              end)
  ∧ (∀ k keys, k ∈ keys → Keys.assign k keys = keys)
  ∧ ((length (rd_ingredients formData) <= index)%nat →
     "ingredients" ∈ rd_keys formData →
     RecipeForm.updateIngredient index c formData = formData).
Proof.
  assert (Halt : RecipeForm.updateIngredient index c formData
            = RecipeForm.with_ingredients
                (alter (RecipeForm.apply c) index (rd_ingredients formData)) formData).
  { unfold RecipeForm.updateIngredient. f_equal.
    apply (map_index_alter (RecipeForm.apply c) index 0). }
  rewrite Halt. cbn [RecipeForm.with_ingredients rd_ingredients]. split_and!.
  - done.
  - apply length_alter.
  - intros j Hj. by apply list_lookup_alter_ne.
  - intros ingredient Hi. rewrite list_lookup_alter_eq, Hi. by destruct c.
  - exact assign_present.
  - intros Hge Hk. rewrite alter_beyond by done. by apply with_ingredients_same.
Qed.

Lemma updateIngredient_row_witness :
  rd_ingredients (RecipeForm.updateIngredient 0 (RecipeForm.Quantity (Num 3))
                    (RecipeForm.initial None)) !! 0%nat
  = Some (mkIngredient "" (Num 3) "unidad" ["name"; "quantity"; "unit"])
  ∧ RecipeForm.updateIngredient 1 (RecipeForm.Name "flour") (RecipeForm.initial None)
    = RecipeForm.initial None.
Proof.
  destruct (updateIngredient_row 0 (RecipeForm.Quantity (Num 3))
              (RecipeForm.initial None)) as (_ & _ & _ & Hrow & _).
  destruct (updateIngredient_row 1 (RecipeForm.Name "flour")
              (RecipeForm.initial None)) as (_ & _ & _ & _ & _ & Hout).
  split.
  - apply (Hrow RecipeForm.blankIngredient). reflexivity.
  - apply Hout; [simpl; lia | apply initial_has_ingredients].
Defined.

(** ** The data hash *)

Lemma comes_before_cases (a b : any) (p q : Q) :
  any_id a = Num p → any_id b = Num q →
  (Sync.comes_before a b = true ∧ (p < q)%Q)
  ∨ (Sync.comes_before a b = false ∧ (q <= p)%Q).
Proof.
  intros Ha Hb. unfold Sync.comes_before. rewrite Ha, Hb. cbn.
  destruct (Qle_bool (p - q) 0 && negb (Qeq_bool (p - q) 0)) eqn:Hlt.
  - left. split; [done |]. apply Qlt_bool_iff in Hlt.
    change (inject_Z 0) with 0%Q in Hlt. lra.
  - right. split; [done |]. apply not_true_iff_false in Hlt.
    rewrite Qlt_bool_iff in Hlt. change (inject_Z 0) with 0%Q in Hlt.
    apply Qnot_lt_le in Hlt. lra.
Qed.

Lemma comes_before_NaN (a b : any) :
  any_id a = NaN → Sync.comes_before a b = false.
Proof. intros Ha. unfold Sync.comes_before. by rewrite Ha. Qed.

Lemma comes_before_numeric (a b : any) :
  Sync.comes_before a b = true → ∃ p, any_id a = Num p.
Proof.
  destruct (any_id a) as [|p] eqn:Ha; [| by eexists].
  by rewrite comes_before_NaN.
Qed.

(** Two records with different numeric identities can be inserted in either
    order. *)
Lemma insert_sorted_comm (x y : any) (p q : Q) (l : list any) :
  any_id x = Num p → any_id y = Num q → ¬ (p == q)%Q →
  Sync.insert_sorted x (Sync.insert_sorted y l)
  = Sync.insert_sorted y (Sync.insert_sorted x l).
Proof.
  intros Hx Hy Hne.
  assert (Hxy := comes_before_cases x y p q Hx Hy).
  assert (Hyx := comes_before_cases y x q p Hy Hx).
  induction l as [|z l IH]; cbn [Sync.insert_sorted].
  - destruct Hxy as [[-> Hxy] | [-> Hxy]], Hyx as [[-> Hyx] | [-> Hyx]];
      try done; try lra; destruct Hne; lra.
  - destruct (any_id z) as [|r] eqn:Hz.
    + rewrite !(comes_before_NaN z) by done. cbn [Sync.insert_sorted].
      rewrite !(comes_before_NaN z) by done.
      destruct Hxy as [[-> Hxy] | [-> Hxy]], Hyx as [[-> Hyx] | [-> Hyx]];
        try done; try lra; destruct Hne; lra.
    + destruct (comes_before_cases z x r p Hz Hx) as [[Hzx Hzx'] | [Hzx Hzx']],
               (comes_before_cases z y r q Hz Hy) as [[Hzy Hzy'] | [Hzy Hzy']];
        rewrite Hzx, Hzy; cbn [Sync.insert_sorted]; rewrite ?Hzx, ?Hzy.
      * by rewrite IH.
      * destruct Hyx as [[-> Hyx] | [-> Hyx]]; [done | lra].
      * destruct Hxy as [[-> Hxy] | [-> Hxy]]; [done | lra].
      * destruct Hxy as [[-> Hxy] | [-> Hxy]], Hyx as [[-> Hyx] | [-> Hyx]];
          try done; try lra; destruct Hne; lra.
Qed.

Lemma insert_sorted_perm (x : any) (l : list any) :
  Sync.insert_sorted x l ≡ₚ x :: l.
Proof.
  induction l as [|y l IH]; cbn [Sync.insert_sorted]; [done |].
  destruct (Sync.comes_before y x); [| done].
  rewrite IH. apply Permutation_swap.
Qed.

Lemma sort_by_id_perm (l : list any) : Sync.sort_by_id l ≡ₚ l.
Proof.
  induction l as [|x l IH]; [done |]. unfold Sync.sort_by_id in *. cbn [foldr].
  by rewrite insert_sorted_perm, IH.
Qed.

Lemma insert_sorted_sorted (x : any) (p : Q) (l : list any) :
  any_id x = Num p → numeric_ids l →
  StronglySorted id_le l → StronglySorted id_le (Sync.insert_sorted x l).
Proof.
  intros Hx Hnum Hsorted. induction Hsorted as [|y l Hsorted IH Hy];
    cbn [Sync.insert_sorted].
  - repeat constructor.
  - destruct (Hnum y) as [q Hq]; [constructor |].
    assert (Hnum' : numeric_ids l).
    { intros a Ha. apply Hnum. by constructor. }
    destruct (comes_before_cases y x q p Hq Hx) as [[-> Hlt] | [-> Hle]].
    + constructor; [by apply IH |].
      apply Forall_forall. intros a Ha.
      rewrite insert_sorted_perm in Ha. apply elem_of_cons in Ha as [-> | Ha].
      * exists q, p. split_and!; try done. lra.
      * rewrite Forall_forall in Hy. by apply Hy.
    + constructor; [by constructor |]. constructor.
      * by exists p, q.
      * rewrite Forall_forall in Hy |- *. intros a Ha.
        destruct (Hy a Ha) as (q' & r & Hq' & Hr & Hle').
        exists p, r. split_and!; try done. rewrite Hq in Hq'. injection Hq' as <-. lra.
Qed.

(** The hash does not depend on the order of the records, as long as their
    identities are numbers and no two are the same: any rearrangement of such
    a collection has the same hash. *)
Theorem hash_order_independent (JSON_stringify : list any → string)
  (l1 l2 : list any) :
  l1 ≡ₚ l2 → numeric_ids l1 → unique_ids any_id l1 →
  Sync.createDataHash JSON_stringify l1 = Sync.createDataHash JSON_stringify l2.
Proof.
  intros Hperm Hnum Huniq. unfold Sync.createDataHash, Sync.copy. f_equal.
  rewrite !List.map_id. unfold Sync.sort_by_id.
  apply (foldr_permutation eq Sync.insert_sorted []); [| done].
  intros j1 a1 j2 a2 b Hj H1 H2.
  destruct (Hnum a1) as [p Hp]; [by apply list_elem_of_lookup_2 in H1 |].
  destruct (Hnum a2) as [q Hq]; [by apply list_elem_of_lookup_2 in H2 |].
  apply (insert_sorted_comm a1 a2 p q b Hp Hq). intros Heq. apply Hj.
  apply (Huniq j1 j2 a1 a2 H1 H2). rewrite Hp, Hq. cbn. by apply Qeq_bool_iff.
Qed.

(** What is hashed is the collection itself, every record once, rearranged
    by identity: when the identities are numbers they come in non-decreasing
    order. *)
Theorem sort_by_id_sorted (l : list any) :
  Sync.sort_by_id l ≡ₚ l
  ∧ (numeric_ids l → StronglySorted id_le (Sync.sort_by_id l)).
Proof.
  split; [apply sort_by_id_perm |].
  induction l as [|x l IH]; intros Hnum; [constructor |].
  change (Sync.sort_by_id (x :: l))
    with (Sync.insert_sorted x (Sync.sort_by_id l)).
  destruct (Hnum x) as [p Hp]; [constructor |].
  assert (Hnum' : numeric_ids l).
  { intros a Ha. apply Hnum. by constructor. }
  apply (insert_sorted_sorted x p); [done | | by apply IH].
  intros a Ha. apply Hnum'. by rewrite sort_by_id_perm in Ha.
Qed.

Lemma sample_any_numeric : numeric_ids [AFood Sample.eggs; AFood Sample.milk].
Proof.
  intros a Ha. apply list_elem_of_In in Ha. simpl in Ha.
  destruct Ha as [<- | [<- | []]]; by eexists.
Qed.

Lemma sample_any_unique : unique_ids any_id [AFood Sample.eggs; AFood Sample.milk].
Proof.
  apply unique_ids_cons. split.
  - intros b Hb. apply list_elem_of_In in Hb. simpl in Hb.
    destruct Hb as [<- | []]; reflexivity.
  - apply unique_ids_cons. split; [intros b Hb; by apply elem_of_nil in Hb |].
    intros i j a b Hi. by rewrite lookup_nil in Hi.
Qed.

Lemma hash_order_independent_witness :
  Sync.createDataHash Sample.stringify [AFood Sample.eggs; AFood Sample.milk]
  = Sync.createDataHash Sample.stringify [AFood Sample.milk; AFood Sample.eggs].
Proof.
  apply (hash_order_independent Sample.stringify
           [AFood Sample.eggs; AFood Sample.milk]
           [AFood Sample.milk; AFood Sample.eggs]).
  - apply Permutation_swap.
  - exact sample_any_numeric.
  - exact sample_any_unique.
Defined.

Lemma sort_by_id_sorted_witness :
  StronglySorted id_le (Sync.sort_by_id [AFood Sample.eggs; AFood Sample.milk]).
Proof.
  apply (sort_by_id_sorted [AFood Sample.eggs; AFood Sample.milk]).
  exact sample_any_numeric.
Defined.

Example sort_by_id_sample :
  Sync.sort_by_id [AFood Sample.eggs; AFood Sample.wholeMilk; AFood Sample.milk]
  = [AFood Sample.milk; AFood Sample.wholeMilk; AFood Sample.eggs].
Proof. reflexivity. Qed.

(** ** Loading, unmounting and the coupling of the two write-backs *)

Section Session.

Variable JSON_stringify : list any → string.

Local Abbreviation hash_of := (Sync.createDataHash JSON_stringify).
Local Abbreviation coherent := (Coherence.coherent JSON_stringify).
Local Abbreviation armed_with := (Coherence.armed_with JSON_stringify).
Local Abbreviation arm := (Coherence.arm JSON_stringify).

Lemma no_timeouts_no_fire (e : Sync.Engine) (id : positive) (dt : Z) :
  Sync.timeouts e = ∅ → Sync.fire id (Sync.tick dt e) = None.
Proof.
  intros Hempty. apply fire_not_pending. cbn. by rewrite Hempty.
Qed.

Lemma setFoods_idle (fs : list Food) (e : Sync.Engine) :
  Sync.isLoaded e && negb (Sync.foodsFromServerRef e) = false →
  Sync.setFoods JSON_stringify fs e
  = Sync.with_ui
      {| foods := fs; recipes := recipes (Sync.ui e);
         showAddFood := showAddFood (Sync.ui e);
         showAddRecipe := showAddRecipe (Sync.ui e);
         editingFood := editingFood (Sync.ui e);
         editingRecipe := editingRecipe (Sync.ui e) |} e.
Proof.
  destruct e. unfold Sync.setFoods, Sync.foodsEffect. cbn. by intros ->.
Qed.

Lemma setRecipes_idle (rs : list Recipe) (e : Sync.Engine) :
  Sync.isLoaded e && negb (Sync.recipesFromServerRef e) = false →
  Sync.setRecipes JSON_stringify rs e
  = Sync.with_ui
      {| foods := foods (Sync.ui e); recipes := rs;
         showAddFood := showAddFood (Sync.ui e);
         showAddRecipe := showAddRecipe (Sync.ui e);
         editingFood := editingFood (Sync.ui e);
         editingRecipe := editingRecipe (Sync.ui e) |} e.
Proof.
  destruct e. unfold Sync.setRecipes, Sync.recipesEffect. cbn. by intros ->.
Qed.

Lemma setLastSave_idle (type : Sync.coll) (hash : string) (e : Sync.Engine) :
  Sync.isLoaded e = false →
  Sync.setLastSave JSON_stringify type hash e = Sync.with_lastSave type hash e.
Proof.
  destruct e. unfold Sync.setLastSave, Sync.recipesEffect, Sync.foodsEffect.
  cbn. intros ->. destruct type; cbn;
    (destruct (String.eqb hash _) eqn:Heq; [apply String.eqb_eq in Heq as -> |]; done).
Qed.

Lemma setIsLoaded_guarded (e : Sync.Engine) :
  Sync.isLoaded e = false →
  Sync.foodsFromServerRef e = true → Sync.recipesFromServerRef e = true →
  Loading.setIsLoaded JSON_stringify e = Loading.with_guards true true true e.
Proof.
  destruct e. unfold Loading.setIsLoaded, Sync.recipesEffect, Sync.foodsEffect.
  cbn. by intros -> -> ->.
Qed.

Lemma loadSucceeded_state (now : Z) (fs : list Food) (rs : list Recipe) :
  Loading.loadSucceeded JSON_stringify fs rs (Loading.mounted now)
  = Loading.with_guards true true true
      (Sync.with_timeouts ∅ 2%positive
         (Sync.loaded JSON_stringify now (Sample.state fs rs))).
Proof.
  unfold Loading.loadSucceeded. cbv zeta.
  rewrite setFoods_idle by reflexivity.
  rewrite setRecipes_idle by reflexivity.
  rewrite (setLastSave_idle Sync.CFoods) by reflexivity.
  rewrite (setLastSave_idle Sync.CRecipes) by reflexivity.
  rewrite setIsLoaded_guarded by reflexivity.
  reflexivity.
Qed.

(** A successful load leaves nothing pending and writes nothing: the
    collections are the loaded ones, the last-saved hashes are theirs, and once
    the guards are reset the engine is coherent; as long as nothing changes,
    no write-back ever fires. *)
Theorem load_arms_nothing (now : Z) (fs : list Food) (rs : list Recipe) :
  let e := Loading.resetGuards
             (Loading.loadSucceeded JSON_stringify fs rs (Loading.mounted now)) in
  coherent e
  ∧ Sync.timeouts e = ∅
  ∧ Sync.saved e = []
  ∧ foods (Sync.ui e) = fs ∧ recipes (Sync.ui e) = rs
  ∧ Sync.lastFoodsSave e = hash_of (List.map AFood fs)
  ∧ Sync.lastRecipesSave e = hash_of (List.map ARecipe rs)
  ∧ ∀ id dt, Sync.step JSON_stringify (Sync.Fire id) (Sync.tick dt e) = None.
Proof.
  cbv zeta. rewrite loadSucceeded_state.
  split; [| split_and!; try done; intros id dt; by apply no_timeouts_no_fire].
  split; [done |]. split; [split_and! |]; try done. by intros [] id Href.
Qed.

(** A change made after a successful load but before the guards are reset
    arms no write-back: the collection is changed, nothing is pending, the
    last-saved hash is still the loaded one, and after the reset no timeout
    can fire, however long one waits. *)
Theorem change_under_guard (now : Z) (fs : list Food) (rs : list Recipe) :
  (∀ l,
     let e := Loading.resetGuards
                (Sync.setFoods JSON_stringify l
                   (Loading.loadSucceeded JSON_stringify fs rs (Loading.mounted now))) in
     foods (Sync.ui e) = l
     ∧ Sync.timeouts e = ∅ ∧ Sync.saved e = []
     ∧ Sync.lastFoodsSave e = hash_of (List.map AFood fs)
     ∧ ∀ id dt, Sync.step JSON_stringify (Sync.Fire id) (Sync.tick dt e) = None)
  ∧ (∀ l,
       let e := Loading.resetGuards
                  (Sync.setRecipes JSON_stringify l
                     (Loading.loadSucceeded JSON_stringify fs rs (Loading.mounted now))) in
       recipes (Sync.ui e) = l
       ∧ Sync.timeouts e = ∅ ∧ Sync.saved e = []
       ∧ Sync.lastRecipesSave e = hash_of (List.map ARecipe rs)
       ∧ ∀ id dt, Sync.step JSON_stringify (Sync.Fire id) (Sync.tick dt e) = None).
Proof.
  split; intros l; cbv zeta; rewrite loadSucceeded_state; split_and!; try done;
    intros id dt; by apply no_timeouts_no_fire.
Qed.

Lemma loadFailed_state (now : Z) :
  Loading.loadFailed JSON_stringify (Loading.mounted now)
  = {| Sync.clock := now;
       Sync.timeouts :=
         <[2%positive := armed_with Sync.CRecipes (now + Sync.debounce) [] ""]>
           (<[1%positive := armed_with Sync.CFoods (now + Sync.debounce) [] ""]> ∅);
       Sync.nextTimeout := 3%positive;
       Sync.refFoods := Some 1%positive; Sync.refRecipes := Some 2%positive;
       Sync.lastFoodsSave := ""; Sync.lastRecipesSave := "";
       Sync.isLoaded := true; Sync.foodsFromServerRef := false;
       Sync.recipesFromServerRef := false;
       Sync.ui := Sync.ui (Loading.mounted now);
       Sync.saved := []; Sync.inflight := [] |}.
Proof. reflexivity. Qed.

(** When loading fails, the empty collections are taken for changes: a
    write-back is armed for each, and the first one to fire after the window
    writes an empty collection to the store. *)
Theorem failed_load_writes_empty (now settle : Z) :
  JSON_stringify [] ≠ EmptyString →
  Sync.debounce <= settle →
  let e := Loading.loadFailed JSON_stringify (Loading.mounted now) in
  Sync.pending Sync.CFoods 1 e
  ∧ Sync.pending Sync.CRecipes 2 e
  ∧ (∃ e', Sync.run JSON_stringify [Sync.Tick settle; Sync.Fire 1] e = Some e'
           ∧ Sync.saved e' = [(Sync.CFoods, [])])
  ∧ (∃ e', Sync.run JSON_stringify [Sync.Tick settle; Sync.Fire 2] e = Some e'
           ∧ Sync.saved e' = [(Sync.CRecipes, [])]).
Proof.
  intros Hne Hsettle. cbv zeta. rewrite loadFailed_state.
  assert (Hhash : String.eqb (hash_of []) EmptyString = false).
  { by apply String.eqb_neq. }
  assert (H0 : (0 <=? settle) = true).
  { apply Z.leb_le. unfold Sync.debounce in Hsettle. lia. }
  assert (Hdue : (now + Sync.debounce <=? now + settle) = true).
  { apply Z.leb_le. lia. }
  split_and!.
  - unfold Sync.pending. cbn [Sync.timeouts]. eexists.
    split; [by rewrite lookup_insert_ne, lookup_insert_eq | done].
  - unfold Sync.pending. cbn [Sync.timeouts]. eexists.
    split; [by rewrite lookup_insert_eq | done].
  - eexists. split.
    + cbn [Sync.run Sync.step]. rewrite H0. unfold Sync.fire, Sync.tick.
      cbn [Sync.timeouts Sync.with_clock Sync.clock].
      rewrite lookup_insert_ne, lookup_insert_eq by done.
      cbn [Sync.to_due armed_with Coherence.armed_with]. rewrite Hdue.
      unfold Sync.runCallback. cbn [Sync.to_hash Sync.to_currentHash Coherence.armed_with].
      rewrite Hhash. cbn [negb]. reflexivity.
    + reflexivity.
  - eexists. split.
    + cbn [Sync.run Sync.step]. rewrite H0. unfold Sync.fire, Sync.tick.
      cbn [Sync.timeouts Sync.with_clock Sync.clock].
      rewrite lookup_insert_eq.
      cbn [Sync.to_due armed_with Coherence.armed_with]. rewrite Hdue.
      unfold Sync.runCallback. cbn [Sync.to_hash Sync.to_currentHash Coherence.armed_with].
      rewrite Hhash. cbn [negb]. reflexivity.
    + reflexivity.
Qed.

(** Unmounting clears every pending write-back: whatever was waiting for its
    window to pass is never written. *)
Theorem unmount_drops_pending (e : Sync.Engine) :
  coherent e →
  Sync.timeouts (Loading.unmount e) = ∅
  ∧ Sync.saved (Loading.unmount e) = Sync.saved e
  ∧ ∀ id dt,
      Sync.step JSON_stringify (Sync.Fire id) (Sync.tick dt (Loading.unmount e))
      = None.
Proof.
  intros (_ & (Hnamed & _ & _) & _).
  assert (Hempty : Sync.timeouts (Loading.unmount e) = ∅).
  { apply map_eq. intros id. rewrite lookup_empty.
    destruct (Sync.timeouts e !! id) as [cb |] eqn:Hcb.
    - specialize (Hnamed id cb Hcb). unfold Loading.unmount, Loading.clearIfSet.
      destruct (Sync.to_type cb); cbn in Hnamed; rewrite Hnamed.
      + destruct (Sync.refRecipes e); cbn;
          rewrite ?lookup_delete; repeat case_decide; try done;
          by rewrite lookup_delete_eq.
      + cbn. destruct (Sync.refFoods e); cbn; by rewrite lookup_delete_eq.
    - unfold Loading.unmount, Loading.clearIfSet.
      destruct (Sync.refFoods e), (Sync.refRecipes e); cbn;
        rewrite ?lookup_delete; repeat case_decide; done. }
  split_and!; [done | |].
  - unfold Loading.unmount, Loading.clearIfSet.
    by destruct (Sync.refFoods e), (Sync.refRecipes e).
  - intros id dt. by apply no_timeouts_no_fire.
Qed.

(** A write-back that fires re-arms nothing: its call to [save] is made and
    awaits its answer, its own timeout is gone, and the other timeouts and the
    last-saved hashes are left as they are.  The answer, when it brings a hash
    other than the last-saved one, re-arms both collections: the timeouts
    pending afterwards are exactly two fresh ones, one for each collection,
    each due a full window after the answer and carrying its collection as it
    is then.  So a write-back that is still waiting for the other collection
    when the answer arrives is put off by a full window, and one is armed for
    it even when none was waiting. *)
Theorem write_rearms_both (e : Sync.Engine) :
  coherent e →
  (∀ id cb,
     Sync.timeouts e !! id = Some cb →
     Sync.to_due cb <= Sync.clock e →
     Sync.to_hash cb ≠ Sync.lastSave (Sync.to_type cb) e →
     ∃ e', Sync.step JSON_stringify (Sync.Fire id) e = Some e'
       ∧ Sync.saved e' = Sync.saved e ++ [(Sync.to_type cb, Sync.to_data cb)]
       ∧ Sync.inflight e'
         = Sync.inflight e ++ [(Sync.to_type cb, Sync.to_hash cb)]
       ∧ Sync.timeouts e' = delete id (Sync.timeouts e)
       ∧ Sync.nextTimeout e' = Sync.nextTimeout e
       ∧ ∀ t, Sync.lastSave t e' = Sync.lastSave t e)
  ∧ (∀ k type hash,
       Sync.inflight e !! k = Some (type, hash) →
       hash ≠ Sync.lastSave type e →
       ∃ e', Sync.step JSON_stringify (Sync.Answer k) e = Some e'
         ∧ Sync.saved e' = Sync.saved e
         ∧ Sync.inflight e' = delete k (Sync.inflight e)
         ∧ Sync.lastSave type e' = hash
         ∧ ∀ i c, Sync.timeouts e' !! i = Some c ↔
             (i = Sync.nextTimeout e
              ∧ c = armed_with Sync.CFoods (Sync.clock e + Sync.debounce)
                      (Sync.current Sync.CFoods e) (Sync.lastFoodsSave e'))
             ∨ (i = Pos.succ (Sync.nextTimeout e)
                ∧ c = armed_with Sync.CRecipes (Sync.clock e + Sync.debounce)
                        (Sync.current Sync.CRecipes e) (Sync.lastRecipesSave e'))).
Proof.
  intros Hcoh. split.
  - intros id cb Hcb Hdue Hne. cbn [Sync.step].
    pose proof Hcoh as (_ & _ & Hfresh).
    destruct (Hfresh id cb Hcb I) as (Hcur & _ & _).
    apply String.eqb_neq in Hne.
    unfold Sync.fire, Sync.runCallback. rewrite Hcb, Hcur, Hne.
    destruct (Z.leb_spec (Sync.to_due cb) (Sync.clock e)); [| lia].
    eexists. split; [reflexivity |]. by split_and!.
  - intros k type hash Hk Hne. cbn [Sync.step]. unfold Sync.answer. rewrite Hk.
    destruct (setLastSave_changed JSON_stringify type hash
                (Sync.with_inflight (delete k (Sync.inflight e)) e))
      as (e' & He' & _ & Hs & Hi & Hl & _ & _ & _ & Ht).
    { by apply with_inflight_coherent. }
    { replace (Sync.lastSave type (Sync.with_inflight _ e))
        with (Sync.lastSave type e) by (by destruct type).
      done. }
    exists e'. rewrite He'. by split_and!.
Qed.

End Session.

Lemma unmount_drops_pending_witness :
  Sync.timeouts
    (Loading.unmount
       (Sync.setFoods Sample.stringify [Sample.eggs]
          (Sync.loaded Sample.stringify 0 (Sample.state [Sample.milk] [])))) = ∅.
Proof.
  apply (unmount_drops_pending Sample.stringify).
  apply setFoods_coherent, loaded_coherent.
Defined.

Lemma failed_load_writes_empty_witness :
  ∃ e', Sync.run Sample.bracketed [Sync.Tick 500; Sync.Fire 1]
          (Loading.loadFailed Sample.bracketed (Loading.mounted 0)) = Some e'
        ∧ Sync.saved e' = [(Sync.CFoods, [])].
Proof.
  apply (failed_load_writes_empty Sample.bracketed 0 500);
    [discriminate | unfold Sync.debounce; lia].
Defined.

Lemma write_rearms_both_witness :
  ∃ e1 e2,
    Sync.step Sample.stringify (Sync.Fire 1) Sample.bothDue = Some e1
    ∧ Sync.saved e1 = [(Sync.CFoods, [AFood Sample.eggs])]
    ∧ Sync.to_due <$> Sync.timeouts e1 !! 2%positive = Some 500
    ∧ Sync.step Sample.stringify (Sync.Answer 0) (Sync.tick 200 e1) = Some e2
    ∧ Sync.timeouts e2 !! 2%positive = None
    ∧ Sync.to_due <$> Sync.timeouts e2 !! 4%positive = Some 1200.
Proof.
  assert (Hcoh : Coherence.coherent Sample.stringify Sample.bothDue).
  { apply tick_coherent, setRecipes_coherent, setFoods_coherent, loaded_coherent. }
  destruct (proj1 (write_rearms_both Sample.stringify Sample.bothDue Hcoh)
              1%positive _ eq_refl)
    as (e1 & Hstep & Hsaved & Hin & Ht & Hn & Hl);
    [vm_compute; discriminate | discriminate |].
  assert (Hcoh1 : Coherence.coherent Sample.stringify (Sync.tick 200 e1)).
  { apply tick_coherent. exact (step_coherent _ _ _ _ Hcoh Hstep). }
  destruct (proj2 (write_rearms_both Sample.stringify (Sync.tick 200 e1) Hcoh1)
              0%nat Sync.CFoods "Eggs")
    as (e2 & Hstep2 & _ & _ & _ & Hpending).
  { change (Sync.inflight (Sync.tick 200 e1)) with (Sync.inflight e1).
    by rewrite Hin. }
  { change (Sync.lastSave Sync.CFoods (Sync.tick 200 e1))
      with (Sync.lastSave Sync.CFoods e1).
    rewrite Hl. discriminate. }
  change (Sync.nextTimeout (Sync.tick 200 e1)) with (Sync.nextTimeout e1)
    in Hpending.
  change (Sync.clock (Sync.tick 200 e1)) with (Sync.clock e1 + 200) in Hpending.
  rewrite Hn in Hpending.
  exists e1, e2. split_and!; try done.
  - by rewrite Ht.
  - destruct (Sync.timeouts e2 !! 2%positive) as [c |] eqn:Hc; [| done].
    apply Hpending in Hc as [[Hk _] | [Hk _]]; discriminate Hk.
  - assert (Hfour := proj2 (Hpending 4%positive _) (or_intror (conj eq_refl eq_refl))).
    rewrite Hfour. cbn. f_equal.
    assert (Hclock : Sync.clock e1 = 500).
    { vm_compute in Hstep. by injection Hstep as <-. }
    rewrite Hclock. reflexivity.
Defined.

(** ** The storage server *)

Lemma strip_slashes_length (s : string) :
  (String.length (Server.strip_slashes s) <= String.length s)%nat.
Proof.
  induction s as [| c s IH]; [done |]. cbn. destruct (Ascii.eqb c "/"); cbn; lia.
Qed.

Lemma after_slash_length (s r : string) :
  Server.after_slash s = Some r → (String.length r < String.length s)%nat.
Proof.
  induction s as [| c s IH]; [done |]. cbn. destruct (Ascii.eqb c "/").
  - intros [= ->]. lia.
  - intros Hr. apply IH in Hr. lia.
Qed.

(** A directory name is shorter than the path, unless it is the root or the
    current directory. *)
Lemma path_dirname_shorter (p : string) :
  Server.path_dirname p = "." ∨ Server.path_dirname p = "/"
  ∨ (String.length (Server.path_dirname p) < String.length p)%nat.
Proof.
  unfold Server.path_dirname. destruct p as [| c p]; [by left |].
  set (q := String c p).
  pose proof (strip_slashes_length (Str.rev_onto q EmptyString)) as Hstrip.
  rewrite rev_onto_length in Hstrip. cbn [String.length] in Hstrip.
  destruct (Server.strip_slashes (Str.rev_onto q EmptyString)) as [| c' r] eqn:Hr;
    [by right; left |].
  destruct (Server.after_slash (String c' r)) as [rest |] eqn:Hrest; [| by left].
  apply after_slash_length in Hrest.
  pose proof (strip_slashes_length rest) as Hstrip'.
  destruct (Server.strip_slashes rest) as [| c'' rest'] eqn:Hrest'; [by right; left |].
  right; right. rewrite rev_onto_length. cbn [String.length] in *. lia.
Qed.

Lemma foods_recipes_distinct (dirname : string) :
  Server.FOODS_FILE dirname ≠ Server.RECIPES_FILE dirname.
Proof.
  unfold Server.FOODS_FILE, Server.RECIPES_FILE, Server.path_join. cbn [fold_left].
  intros Heq. apply append_inj_l in Heq. discriminate Heq.
Qed.

Lemma data_file_not_its_directory (dirname : string) :
  Server.path_dirname (Server.FOODS_FILE dirname) ≠ Server.FOODS_FILE dirname
  ∧ Server.path_dirname (Server.RECIPES_FILE dirname) ≠ Server.RECIPES_FILE dirname.
Proof.
  assert (Hlong : ∀ base,
            (2 <= String.length (String.append base "/x"))%nat).
  { intros base. rewrite append_length. cbn. lia. }
  assert (Hne : ∀ p, (2 <= String.length p)%nat → Server.path_dirname p ≠ p).
  { intros p Hp Heq.
    destruct (path_dirname_shorter p) as [H | [H | H]]; rewrite Heq in H.
    - subst p. cbn in Hp. lia.
    - subst p. cbn in Hp. lia.
    - lia. }
  unfold Server.FOODS_FILE, Server.RECIPES_FILE, Server.path_join. cbn [fold_left].
  split; apply Hne; rewrite !append_length; cbn; lia.
Qed.

Section Storage.

Context {json : Type}.
Variable JSON_parse : string → option json.
Variable JSON_stringify JSON_pretty : json → string.
Variable express_json : string → option json.
Variable emptyArray : json.
Variable dirname : string.

Local Abbreviation readJSONFile := (Server.readJSONFile JSON_parse emptyArray).
Local Abbreviation writeJSONFile := (Server.writeJSONFile JSON_pretty).
Local Abbreviation getFoods := (Server.getFoods JSON_parse emptyArray dirname).
Local Abbreviation getRecipes := (Server.getRecipes JSON_parse emptyArray dirname).
Local Abbreviation postFoods := (Server.postFoods JSON_pretty dirname).
Local Abbreviation postRecipes := (Server.postRecipes JSON_pretty dirname).
Local Abbreviation foodsAPI_getAll :=
  (Client.foodsAPI_getAll JSON_parse JSON_stringify emptyArray dirname).
Local Abbreviation recipesAPI_getAll :=
  (Client.recipesAPI_getAll JSON_parse JSON_stringify emptyArray dirname).
Local Abbreviation foodsAPI_save :=
  (Client.foodsAPI_save JSON_stringify JSON_pretty express_json dirname).
Local Abbreviation recipesAPI_save :=
  (Client.recipesAPI_save JSON_stringify JSON_pretty express_json dirname).

(** What is read depends on the files only: a path that holds no file, a
    directory among them, reads as the empty array, and so does a file that
    cannot be parsed. *)
Lemma readJSONFile_files (filePath : string) (d : Server.Disk) :
  readJSONFile filePath d
  = match Server.files d !! filePath with
    | Some data => default emptyArray (JSON_parse data)
    | None => emptyArray
    end.
Proof.
  unfold Server.readJSONFile, Server.existsSync, Server.readFileSync.
  destruct (Server.files d !! filePath) as [data |] eqn:Hfile.
  - rewrite bool_decide_eq_true_2 by eauto. cbn. by destruct (JSON_parse data).
  - by destruct (negb _).
Qed.

Lemma writeJSONFile_cases (filePath : string) (data : json) (d : Server.Disk) :
  Server.path_dirname filePath ≠ filePath →
  ∃ d',
    (writeJSONFile filePath data d = (true, d')
     ∧ Server.writable d = true ∧ (filePath ∉ Server.dirs d)
     ∧ Server.files d' = <[filePath := JSON_pretty data]> (Server.files d))
    ∨ (writeJSONFile filePath data d = (false, d')
       ∧ (Server.writable d = false ∨ filePath ∈ Server.dirs d)
       ∧ Server.files d' = Server.files d).
Proof.
  intros Hdir. unfold Server.writeJSONFile, Server.mkdirSync, Server.writeFileSync.
  destruct (Server.writable d) eqn:Hw.
  - destruct (decide (filePath ∈ Server.dirs d)) as [Hin | Hout].
    + destruct (negb _); cbn; rewrite ?Hw; cbn.
      * rewrite bool_decide_eq_true_2 by (by apply elem_of_union_r). cbn.
        eexists. right. split; [done |]. split; [by right | done].
      * rewrite bool_decide_eq_true_2 by done. cbn.
        eexists. right. split; [done |]. split; [by right | done].
    + destruct (negb _); cbn; rewrite ?Hw; cbn.
      * rewrite bool_decide_eq_false_2
          by (rewrite elem_of_union, elem_of_singleton; by intros [Heq | Hin]). cbn.
        eexists. left. split; [done |]. done.
      * rewrite bool_decide_eq_false_2 by done. cbn.
        eexists. left. split; [done |]. done.
  - exists d. right. destruct (negb _); cbn; rewrite ?Hw; cbn; split; try done;
      split; try done; by left.
Qed.

(** Saving the foods either succeeds, with status 200 and the indented text
    of the body in the foods file, or fails, with status 500 and every file
    as it was; it fails exactly when the disk refuses writes or a directory
    sits where the file should be. *)
Theorem post_answers (reqBody : json) (d : Server.Disk) :
  ∃ r d', postFoods reqBody d = (r, d')
    ∧ ((Server.status r = 200
        ∧ Server.payload r = Server.Message "Foods saved successfully"
        ∧ Server.writable d = true
        ∧ (Server.FOODS_FILE dirname ∉ Server.dirs d)
        ∧ Server.files d'
          = <[Server.FOODS_FILE dirname := JSON_pretty reqBody]> (Server.files d))
       ∨ (Server.status r = 500
          ∧ Server.payload r = Server.Error "Failed to save foods"
          ∧ (Server.writable d = false ∨ Server.FOODS_FILE dirname ∈ Server.dirs d)
          ∧ Server.files d' = Server.files d)).
Proof.
  unfold Server.postFoods.
  destruct (writeJSONFile_cases (Server.FOODS_FILE dirname) reqBody d
              (proj1 (data_file_not_its_directory dirname)))
    as (d' & [(-> & Hw & Hout & Hfiles) | (-> & Hwhy & Hfiles)]).
  - eexists _, d'. split; [done |]. left. by split_and!.
  - eexists _, d'. split; [done |]. right. by split_and!.
Qed.

Lemma postFoods_accepted (reqBody : json) (d : Server.Disk) :
  Server.writable d = true →
  Server.FOODS_FILE dirname ∉ Server.dirs d →
  ∃ r d', postFoods reqBody d = (r, d')
    ∧ Server.ok r = true
    ∧ Server.files d'
      = <[Server.FOODS_FILE dirname := JSON_pretty reqBody]> (Server.files d).
Proof.
  intros Hw Hout. unfold Server.postFoods.
  destruct (writeJSONFile_cases (Server.FOODS_FILE dirname) reqBody d
              (proj1 (data_file_not_its_directory dirname)))
    as (d' & [(-> & _ & _ & Hfiles) | (_ & [Hno | Hin] & _)]);
    [| congruence | done].
  by eexists _, d'.
Qed.

Lemma postFoods_refused (reqBody : json) (d : Server.Disk) :
  Server.writable d = false →
  ∃ r d', postFoods reqBody d = (r, d')
    ∧ Server.ok r = false
    ∧ Server.files d' = Server.files d.
Proof.
  intros Hw. unfold Server.postFoods.
  destruct (writeJSONFile_cases (Server.FOODS_FILE dirname) reqBody d
              (proj1 (data_file_not_its_directory dirname)))
    as (d' & [(_ & Hyes & _) | (-> & _ & Hfiles)]); [congruence |].
  by eexists _, d'.
Qed.

Lemma getFoods_after_write (reqBody : json) (d d' : Server.Disk) :
  Server.files d'
  = <[Server.FOODS_FILE dirname := JSON_pretty reqBody]> (Server.files d) →
  JSON_parse (JSON_pretty reqBody) = Some reqBody →
  getFoods d' = Server.mkResponse 200 (Server.Json reqBody)
  ∧ getRecipes d' = getRecipes d.
Proof.
  intros Hfiles Hparse.
  unfold Server.getFoods, Server.getRecipes. rewrite !readJSONFile_files, Hfiles.
  rewrite lookup_insert_eq, Hparse.
  by rewrite lookup_insert_ne by apply foods_recipes_distinct.
Qed.

Lemma get_same_files (d d' : Server.Disk) :
  Server.files d' = Server.files d →
  getFoods d' = getFoods d ∧ getRecipes d' = getRecipes d.
Proof.
  intros Hfiles. unfold Server.getFoods, Server.getRecipes.
  by rewrite !readJSONFile_files, Hfiles.
Qed.

(** On a disk that accepts the write, what is posted is what is then read,
    as long as its indented text parses back to it; the recipes read as
    before. *)
Theorem server_round_trip (reqBody : json) (d : Server.Disk) :
  Server.writable d = true →
  Server.FOODS_FILE dirname ∉ Server.dirs d →
  JSON_parse (JSON_pretty reqBody) = Some reqBody →
  ∃ r d', postFoods reqBody d = (r, d')
    ∧ Server.ok r = true
    ∧ getFoods d' = Server.mkResponse 200 (Server.Json reqBody)
    ∧ getRecipes d' = getRecipes d.
Proof.
  intros Hw Hout Hparse.
  destruct (postFoods_accepted reqBody d Hw Hout) as (r & d' & Hpost & Hok & Hfiles).
  exists r, d'. split; [done |]. split; [done |].
  by apply getFoods_after_write.
Qed.

(** ** The storage client *)

Lemma getAll_online (handler : Server.Disk → Server.response json) (key : string)
    (w : Client.World) (value : json) :
  Client.online w = true →
  handler (Client.disk w) = Server.mkResponse 200 (Server.Json value) →
  Client.getAll JSON_parse JSON_stringify emptyArray handler key w
  = match JSON_parse (JSON_stringify value) with
    | Some parsed => Done parsed
    | None => Client.fromLocalStorage JSON_parse emptyArray key w
    end.
Proof.
  intros Hon Hresp. unfold Client.getAll, Client.fetchJson. by rewrite Hon, Hresp.
Qed.

Lemma getAll_offline (handler : Server.Disk → Server.response json) (key : string)
    (w : Client.World) :
  Client.online w = false →
  Client.getAll JSON_parse JSON_stringify emptyArray handler key w
  = Client.fromLocalStorage JSON_parse emptyArray key w.
Proof.
  intros Hoff. unfold Client.getAll, Client.fetchJson. by rewrite Hoff.
Qed.

(** With the server in reach, its middleware handing the foods on as they
    are and its disk accepting the write, the foods saved are the foods
    fetched next; nothing goes to [localStorage], and the recipes are fetched
    as before. *)
Theorem online_round_trip (foods : json) (w : Client.World) :
  Client.online w = true →
  Server.writable (Client.disk w) = true →
  Server.FOODS_FILE dirname ∉ Server.dirs (Client.disk w) →
  express_json (JSON_stringify foods) = Some foods →
  JSON_parse (JSON_stringify foods) = Some foods →
  JSON_parse (JSON_pretty foods) = Some foods →
  foodsAPI_getAll (foodsAPI_save foods w) = Done foods
  ∧ Client.localStorage (foodsAPI_save foods w) = Client.localStorage w
  ∧ recipesAPI_getAll (foodsAPI_save foods w) = recipesAPI_getAll w.
Proof.
  intros Hon Hw Hout Hbody Hcompact Hpretty.
  destruct (postFoods_accepted foods (Client.disk w) Hw Hout)
    as (r & d' & Hpost & Hok & Hfiles).
  destruct (getFoods_after_write foods (Client.disk w) d' Hfiles Hpretty)
    as [Hfoods Hrecipes].
  assert (Hsave : foodsAPI_save foods w
                  = {| Client.online := true; Client.disk := d';
                       Client.localStorage := Client.localStorage w |}).
  { unfold Client.foodsAPI_save, Client.save, Client.postJson.
    by rewrite Hon, Hbody, Hpost, Hok. }
  rewrite Hsave. split_and!; [| done |].
  - unfold Client.foodsAPI_getAll.
    by rewrite (getAll_online _ _ (Client.mkWorld true d' _) foods eq_refl Hfoods),
         Hcompact.
  - unfold Client.recipesAPI_getAll, Client.getAll, Client.fetchJson.
    cbn [Client.online Client.disk]. by rewrite Hon, Hrecipes.
Qed.

(** With the server out of reach, the foods saved go to [localStorage] and
    are the foods fetched next, as long as their text is not empty and parses
    back to them; the disk is not touched and the recipes are fetched as
    before. *)
Theorem offline_round_trip (foods : json) (w : Client.World) :
  Client.online w = false →
  JSON_stringify foods ≠ EmptyString →
  JSON_parse (JSON_stringify foods) = Some foods →
  foodsAPI_getAll (foodsAPI_save foods w) = Done foods
  ∧ Client.disk (foodsAPI_save foods w) = Client.disk w
  ∧ recipesAPI_getAll (foodsAPI_save foods w) = recipesAPI_getAll w.
Proof.
  intros Hoff Hne Hparse.
  assert (Hsave : foodsAPI_save foods w
                  = Client.toLocalStorage JSON_stringify Client.foodsKey foods w).
  { unfold Client.foodsAPI_save, Client.save, Client.postJson. by rewrite Hoff. }
  rewrite Hsave. split_and!; [| done |].
  - unfold Client.foodsAPI_getAll. rewrite getAll_offline by done.
    unfold Client.fromLocalStorage, Client.toLocalStorage.
    cbn [Client.localStorage]. rewrite lookup_insert_eq.
    apply truthy_nonempty in Hne. by rewrite Hne, Hparse.
  - unfold Client.recipesAPI_getAll. rewrite !getAll_offline by done.
    unfold Client.fromLocalStorage, Client.toLocalStorage.
    cbn [Client.localStorage]. by rewrite lookup_insert_ne.
Qed.

(** Foods saved while the server is out of reach, or while its disk refuses
    writes, go to [localStorage] only; once the server answers, what is
    fetched is the server's copy, whatever was saved in between. *)
Theorem unsynced_save_shadowed (foods : json) (w : Client.World) :
  Client.online w = false ∨ Server.writable (Client.disk w) = false →
  Client.localStorage (foodsAPI_save foods w) !! Client.foodsKey
  = Some (JSON_stringify foods)
  ∧ Server.files (Client.disk (foodsAPI_save foods w))
    = Server.files (Client.disk w)
  ∧ ∀ kept,
      JSON_parse
        (JSON_stringify
           (readJSONFile (Server.FOODS_FILE dirname) (Client.disk w)))
      = Some kept →
      foodsAPI_getAll (reconnected (foodsAPI_save foods w)) = Done kept.
Proof.
  intros Hwhy.
  assert (Hsave : ∃ d', Server.files d' = Server.files (Client.disk w)
            ∧ foodsAPI_save foods w
              = Client.toLocalStorage JSON_stringify Client.foodsKey foods
                  {| Client.online := Client.online w; Client.disk := d';
                     Client.localStorage := Client.localStorage w |}).
  { unfold Client.foodsAPI_save, Client.save, Client.postJson.
    destruct w as [on d ls].
    cbn [Client.online Client.disk Client.localStorage] in *.
    destruct on.
    - destruct Hwhy as [Hoff | Hro]; [done |].
      destruct (express_json (JSON_stringify foods)) as [reqBody |].
      + destruct (postFoods_refused reqBody d Hro)
          as (r & d' & Hpost & Hok & Hfiles).
        exists d'. by rewrite Hpost, Hok.
      + by exists d.
    - by exists d. }
  destruct Hsave as (d' & Hfiles & ->).
  split_and!.
  - unfold Client.toLocalStorage. cbn [Client.localStorage]. by rewrite lookup_insert_eq.
  - done.
  - intros kept Hkept. unfold Client.foodsAPI_getAll.
    rewrite (getAll_online _ _ (reconnected _)
               (readJSONFile (Server.FOODS_FILE dirname) (Client.disk w)) eq_refl).
    + by rewrite Hkept.
    + cbn [reconnected Client.toLocalStorage Client.disk].
      by apply get_same_files.
Qed.

End Storage.

Lemma server_round_trip_witness :
  ∃ r d',
    Server.postFoods SampleStore.pretty SampleStore.dirname SampleStore.shelf
      SampleStore.blank = (r, d')
    ∧ Server.ok r = true
    ∧ Server.getFoods SampleStore.parse SampleStore.emptyArray SampleStore.dirname d'
      = Server.mkResponse 200 (Server.Json SampleStore.shelf)
    ∧ Server.getRecipes SampleStore.parse SampleStore.emptyArray SampleStore.dirname d'
      = Server.getRecipes SampleStore.parse SampleStore.emptyArray SampleStore.dirname
          SampleStore.blank.
Proof.
  apply (server_round_trip SampleStore.parse SampleStore.pretty SampleStore.emptyArray
           SampleStore.dirname SampleStore.shelf SampleStore.blank);
    [reflexivity | apply not_elem_of_empty | reflexivity].
Defined.

Lemma online_round_trip_witness :
  Client.foodsAPI_getAll SampleStore.parse SampleStore.stringify
    SampleStore.emptyArray SampleStore.dirname
    (Client.foodsAPI_save SampleStore.stringify SampleStore.pretty SampleStore.parse
       SampleStore.dirname SampleStore.shelf SampleStore.connected)
  = Done SampleStore.shelf
  ∧ Client.localStorage
      (Client.foodsAPI_save SampleStore.stringify SampleStore.pretty SampleStore.parse
         SampleStore.dirname SampleStore.shelf SampleStore.connected)
    = Client.localStorage SampleStore.connected
  ∧ Client.recipesAPI_getAll SampleStore.parse SampleStore.stringify
      SampleStore.emptyArray SampleStore.dirname
      (Client.foodsAPI_save SampleStore.stringify SampleStore.pretty SampleStore.parse
         SampleStore.dirname SampleStore.shelf SampleStore.connected)
    = Client.recipesAPI_getAll SampleStore.parse SampleStore.stringify
        SampleStore.emptyArray SampleStore.dirname SampleStore.connected.
Proof.
  apply (online_round_trip SampleStore.parse SampleStore.stringify SampleStore.pretty
           SampleStore.parse SampleStore.emptyArray SampleStore.dirname
           SampleStore.shelf SampleStore.connected);
    [reflexivity | reflexivity | apply not_elem_of_empty
    | reflexivity | reflexivity | reflexivity].
Defined.

Lemma offline_round_trip_witness :
  Client.foodsAPI_getAll SampleStore.parse SampleStore.stringify
    SampleStore.emptyArray SampleStore.dirname
    (Client.foodsAPI_save SampleStore.stringify SampleStore.pretty SampleStore.parse
       SampleStore.dirname SampleStore.shelf SampleStore.disconnected)
  = Done SampleStore.shelf
  ∧ Client.disk
      (Client.foodsAPI_save SampleStore.stringify SampleStore.pretty SampleStore.parse
         SampleStore.dirname SampleStore.shelf SampleStore.disconnected)
    = Client.disk SampleStore.disconnected
  ∧ Client.recipesAPI_getAll SampleStore.parse SampleStore.stringify
      SampleStore.emptyArray SampleStore.dirname
      (Client.foodsAPI_save SampleStore.stringify SampleStore.pretty SampleStore.parse
         SampleStore.dirname SampleStore.shelf SampleStore.disconnected)
    = Client.recipesAPI_getAll SampleStore.parse SampleStore.stringify
        SampleStore.emptyArray SampleStore.dirname SampleStore.disconnected.
Proof.
  apply (offline_round_trip SampleStore.parse SampleStore.stringify SampleStore.pretty
           SampleStore.parse SampleStore.emptyArray SampleStore.dirname
           SampleStore.shelf SampleStore.disconnected);
    [reflexivity | discriminate | reflexivity].
Defined.

(** The server keeps [[7]]; [[3, 1]] is saved while its disk refuses writes;
    what is fetched next is [[7]]. *)
Lemma unsynced_save_shadowed_witness :
  Client.foodsAPI_getAll SampleStore.parse SampleStore.stringify
    SampleStore.emptyArray SampleStore.dirname
    (reconnected
       (Client.foodsAPI_save SampleStore.stringify SampleStore.pretty
          SampleStore.parse SampleStore.dirname SampleStore.shelf
          SampleStore.refused))
  = Done [7%nat].
Proof.
  apply (unsynced_save_shadowed SampleStore.parse SampleStore.stringify
           SampleStore.pretty SampleStore.parse SampleStore.emptyArray
           SampleStore.dirname SampleStore.shelf SampleStore.refused
           (or_intror eq_refl)).
  vm_compute. reflexivity.
Defined.
